(** * Settlement engine of the expense splitter: [simplifyDebts]

    Shallow embedding of [utils/debtSimplifier.js].  The function is
    translated once, over an interface [Number] that lists the operations on
    JavaScript numbers the source uses ([<], [+], [-], [*], [/], unary [-],
    [Math.abs], [Math.min], [Math.round] and the literals [0], [0.01],
    [100]).  The instance is [Binary64]: IEEE 754 binary64 with
    round-to-nearest-even, which is what a JavaScript engine computes; it is
    built on Rocq's primitive floats.

    The balances object is an association list in the order in which
    [Object.entries] enumerates it (keys are unique).  The two working
    arrays hold their records by value and are updated in place at an index,
    the loop is a step function over an explicit state, and a property access
    on [undefined] is the one way the body could throw.

    A second embedding keeps the objects in a heap and the arrays as lists
    of references, to say which objects the function writes to; it is shown
    to compute what the first one computes. *)

From Stdlib Require Import ZArith Floats Lia.
From stdpp Require Import base list strings sorting.

(** ** The operations on numbers used by the source *)

Class Number (num : Type) : Type := {
  num_zero : num;                      (* 0 *)
  num_cent : num;                      (* 0.01 *)
  num_hundred : num;                   (* 100 *)
  num_lt : num -> num -> bool;         (* a < b *)
  num_neg : num -> num;                (* -a *)
  num_add : num -> num -> num;         (* a + b *)
  num_sub : num -> num -> num;         (* a - b *)
  num_mul : num -> num -> num;         (* a * b *)
  num_div : num -> num -> num;         (* a / b *)
  num_abs : num -> num;                (* Math.abs(a) *)
  num_min : num -> num -> num;         (* Math.min(a, b) *)
  num_round : num -> num               (* Math.round(a) *)
}.

(** [a > b] is [b < a]. *)
Definition num_gt {num} `{Number num} (a b : num) : bool := num_lt b a.

(** ** Records *)

(** [{ person, amount }], an element of [debtors] or [creditors]. *)
Record Entry (num : Type) : Type := mkEntry {
  person : string;
  amount : num
}.
Arguments mkEntry {num} _ _.
Arguments person {num} _.
Arguments amount {num} _.

(** [{ from, to, amount, currency }], an element of [settlements]. *)
Record Settlement (num : Type) : Type := mkSettlement {
  s_from : string;
  s_to : string;
  s_amount : num;
  s_currency : string
}.
Arguments mkSettlement {num} _ _ _ _.
Arguments s_from {num} _.
Arguments s_to {num} _.
Arguments s_amount {num} _.
Arguments s_currency {num} _.

(** The variables of [simplifyDebts] while the loop runs.  [balances] is the
    caller's object; the function only reads it. *)
Record State (num : Type) : Type := mkState {
  balances : list (string * num);
  debtors : list (Entry num);
  creditors : list (Entry num);
  settlements : list (Settlement num);
  i : nat;
  j : nat
}.
Arguments mkState {num} _ _ _ _ _ _.
Arguments balances {num} _.
Arguments debtors {num} _.
Arguments creditors {num} _.
Arguments settlements {num} _.
Arguments i {num} _.
Arguments j {num} _.

(** How a run of the function ends: it returns, it throws (a [TypeError]
    from reading a property of [undefined]), or the model's fuel ran out
    before the loop condition became false. *)
Inductive Outcome (A : Type) : Type :=
  | Returned (a : A)
  | Threw
  | OutOfFuel.
Arguments Returned {A} _.
Arguments Threw {A}.
Arguments OutOfFuel {A}.

Section Engine.
Context {num : Type} `{Number num}.

(** *** Step 1: separate into debtors and creditors *)

(** One turn of [for (const [person, amount] of Object.entries(balances))]. *)
Definition partition_step (acc : list (Entry num) * list (Entry num))
    (kv : string * num) : list (Entry num) * list (Entry num) :=
  let '(ds, cs) := acc in
  let '(p, a) := kv in
  let ds := if num_lt a (num_neg num_cent) then ds ++ [mkEntry p a] else ds in
  let cs := if num_gt a num_cent then cs ++ [mkEntry p a] else cs in
  (ds, cs).

Definition partition (bal : list (string * num))
    : list (Entry num) * list (Entry num) :=
  fold_left partition_step bal ([], []).

(** *** Step 2: sort

    [Array.prototype.sort] is stable; with a comparator [cmp] an element
    moves behind a later one only when [cmp] of the two is positive. *)
Fixpoint insert_by (cmp : Entry num -> Entry num -> num) (x : Entry num)
    (l : list (Entry num)) : list (Entry num) :=
  match l with
  | [] => [x]
  | y :: l' =>
      if num_gt (cmp x y) num_zero then y :: insert_by cmp x l'
      else x :: y :: l'
  end.

Definition sort_by (cmp : Entry num -> Entry num -> num)
    (l : list (Entry num)) : list (Entry num) :=
  foldr (insert_by cmp) [] l.

(** [(a, b) => a.amount - b.amount] *)
Definition ascending (a b : Entry num) : num := num_sub (amount a) (amount b).
(** [(a, b) => b.amount - a.amount] *)
Definition descending (a b : Entry num) : num := num_sub (amount b) (amount a).

(** The state on entry to the loop. *)
Definition init (bal : list (string * num)) : State num :=
  let '(ds, cs) := partition bal in
  mkState bal (sort_by ascending ds) (sort_by descending cs) [] 0 0.

(** *** Step 3: match them *)

(** [i < debtors.length && j < creditors.length] *)
Definition cond (st : State num) : bool :=
  (i st <? length (debtors st))%nat && (j st <? length (creditors st))%nat.

(** [Math.round(amount * 100) / 100] *)
Definition round2 (a : num) : num :=
  num_div (num_round (num_mul a num_hundred)) num_hundred.

(** The amount the body transfers between [debtor] and [creditor]. *)
Definition transfer (debtor creditor : Entry num) : num :=
  round2 (num_min (num_abs (amount debtor)) (amount creditor)).

(** One execution of the loop body; [None] when [debtors[i]] or
    [creditors[j]] is [undefined], where the body would throw. *)
Definition body (st : State num) : option (State num) :=
  debtor ← debtors st !! i st;
  creditor ← creditors st !! j st;
  let amt := transfer debtor creditor in
  let settlements' :=
    settlements st ++ [mkSettlement (person debtor) (person creditor) amt "USD"] in
  let debtor' := mkEntry (person debtor) (num_add (amount debtor) amt) in
  let creditor' := mkEntry (person creditor) (num_sub (amount creditor) amt) in
  let i' := if num_lt (num_abs (amount debtor')) num_cent then S (i st) else i st in
  let j' := if num_lt (amount creditor') num_cent then S (j st) else j st in
  Some (mkState (balances st)
                (<[i st := debtor']> (debtors st))
                (<[j st := creditor']> (creditors st))
                settlements' i' j').

(** The [while] loop, with at most [fuel] executions of the body. *)
Fixpoint while (fuel : nat) (st : State num) : Outcome (State num) :=
  if cond st then
    match fuel with
    | O => OutOfFuel
    | S fuel' =>
        match body st with
        | Some st' => while fuel' st'
        | None => Threw
        end
    end
  else Returned st.

(** [simplifyDebts(balances)], with at most [fuel] loop iterations. *)
Definition simplifyDebts (fuel : nat) (bal : list (string * num))
    : Outcome (list (Settlement num)) :=
  match while fuel (init bal) with
  | Returned st => Returned (settlements st)
  | Threw => Threw
  | OutOfFuel => OutOfFuel
  end.

End Engine.

(** ** JavaScript numbers: binary64 *)

Module Binary64.

(** [Math.min(a, b)]: [NaN] if either is [NaN], and [-0] is below [+0]. *)
Definition js_min (a b : float) : float :=
  if (PrimFloat.is_nan a || PrimFloat.is_nan b)%bool then PrimFloat.nan
  else if PrimFloat.ltb a b then a
  else if PrimFloat.ltb b a then b
  else if PrimFloat.get_sign a then a else b.

(** The integer [floor(v + 1/2)] for [v = (-1)^s * m * 2^e] with [e < 0]. *)
Definition round_half_up (s : bool) (m : positive) (e : Z) : Z :=
  Z.shiftr (2 * cond_Zopp s (Z.pos m) + Z.shiftl 1 (- e)) (- e + 1).

(** [Math.round(a)]: the integral number closest to [a], ties towards
    +infinity; [NaN], the infinities, the zeros and numbers that are already
    integral are returned as they are, and a result of zero keeps the sign
    of [a]. *)
Definition js_round (a : float) : float :=
  match Prim2SF a with
  | S754_finite s m e =>
      if (0 <=? e)%Z then a
      else
        let n := round_half_up s m e in
        let r := PrimFloat.of_uint63 (Uint63.of_Z (Z.abs n)) in
        if s then PrimFloat.opp r else r
  | _ => a
  end.

#[export] Instance number : Number float := {|
  num_zero := 0%float;
  num_cent := 0x1.47ae147ae147bp-7%float;
  num_hundred := 100%float;
  num_lt := PrimFloat.ltb;
  num_neg := PrimFloat.opp;
  num_add := PrimFloat.add;
  num_sub := PrimFloat.sub;
  num_mul := PrimFloat.mul;
  num_div := PrimFloat.div;
  num_abs := PrimFloat.abs;
  num_min := js_min;
  num_round := js_round
|}.

End Binary64.

(** ** Notions the properties are stated with *)

Section Notions.
Context {num : Type} `{Number num}.

(** [amount < -0.01]: the test that makes a participant a debtor. *)
Definition is_debtor (a : num) : bool := num_lt a (num_neg num_cent).
(** [amount > 0.01]: the test that makes a participant a creditor. *)
Definition is_creditor (a : num) : bool := num_gt a num_cent.
(** [Math.abs(amount) < 0.01]: the test the loop uses for "settled". *)
Definition within_cent (a : num) : bool := num_lt (num_abs a) num_cent.
(** [a <= b]: below or equal. *)
Definition at_most (a b : num) : Prop := num_lt a b = true \/ a = b.

(** What one turn of the partition loop appends to [debtors] and to
    [creditors]. *)
Definition debtor_entry (kv : string * num) : option (Entry num) :=
  if is_debtor kv.2 then Some (mkEntry kv.1 kv.2) else None.
Definition creditor_entry (kv : string * num) : option (Entry num) :=
  if is_creditor kv.2 then Some (mkEntry kv.1 kv.2) else None.

(** The lengths of the two working lists after the partition step. *)
Definition debtorCount (bal : list (string * num)) : nat :=
  length (partition bal).1.
Definition creditorCount (bal : list (string * num)) : nat :=
  length (partition bal).2.

(** The sum of the balances, added from left to right. *)
Definition sum_of (bal : list (string * num)) : num :=
  fold_left (fun acc kv => num_add acc kv.2) bal num_zero.

(** Applying one settlement to a copy of the balances:
    [copy[s.from] += s.amount; copy[s.to] -= s.amount]. *)
Definition apply_settlement (bal : list (string * num)) (s : Settlement num)
    : list (string * num) :=
  (fun kv : string * num =>
     let a := kv.2 in
     let a := if decide (kv.1 = s_from s) then num_add a (s_amount s) else a in
     let a := if decide (kv.1 = s_to s) then num_sub a (s_amount s) else a in
     (kv.1, a)) <$> bal.

Definition apply_settlements (l : list (Settlement num))
    (bal : list (string * num)) : list (string * num) :=
  fold_left apply_settlement l bal.

(** The states the loop passes through, each at the test of the loop
    condition. *)
Inductive Reachable (bal : list (string * num)) : State num -> Prop :=
  | reach_init : Reachable bal (init bal)
  | reach_step st st' :
      Reachable bal st -> cond st = true -> body st = Some st' ->
      Reachable bal st'.

(** An iteration moves at least one of the two cursors. *)
Definition advances (st st' : State num) : Prop :=
  (i st + j st < i st' + j st')%nat.

(** The working amount of participant [p] in one of the two lists. *)
Fixpoint lookup_amount (p : string) (l : list (Entry num)) : option num :=
  match l with
  | [] => None
  | e :: l' =>
      if decide (person e = p) then Some (amount e) else lookup_amount p l'
  end.

(** The balance of a participant as the state holds it: the working amount
    when the participant is in one of the lists, the input amount
    otherwise. *)
Definition current (st : State num) (kv : string * num) : string * num :=
  (kv.1, default (default kv.2 (lookup_amount kv.1 (creditors st)))
                 (lookup_amount kv.1 (debtors st))).

(** The loop's measure: the entries the two cursors have not passed. *)
Definition remaining (st : State num) : nat :=
  (length (debtors st) - i st) + (length (creditors st) - j st).

(** *** The properties as the specification words them *)

(** Zero-sum property: on an input that sums to (approximately) zero, every
    balance is within 0.01 of zero once all settlements are applied. *)
Definition zero_sum_settled (bal : list (string * num)) : Prop :=
  within_cent (sum_of bal) = true ->
  forall fuel l, simplifyDebts fuel bal = Returned l ->
    Forall (fun kv => within_cent kv.2 = true) (apply_settlements l bal).

(** Partition with inclusive bounds: amounts [<= -0.01] among the debtors,
    amounts [>= 0.01] among the creditors. *)
Definition partition_inclusive (bal : list (string * num)) : Prop :=
  forall p a, (p, a) ∈ bal ->
    (at_most a (num_neg num_cent) -> mkEntry p a ∈ debtors (init bal)) /\
    (at_most num_cent a -> mkEntry p a ∈ creditors (init bal)).

(** Boundedness: at most [debtorCount + creditorCount - 1] settlements. *)
Definition settlements_bounded (bal : list (string * num)) : Prop :=
  (1 <= debtorCount bal + creditorCount bal)%nat ->
  forall fuel l, simplifyDebts fuel bal = Returned l ->
    (length l <= debtorCount bal + creditorCount bal - 1)%nat.

(** Bounded loop: the loop ends within [debtorCount + creditorCount]
    iterations, and every iteration moves a cursor. *)
Definition loop_bounded (bal : list (string * num)) : Prop :=
  (exists st, while (debtorCount bal + creditorCount bal) (init bal)
              = Returned st) /\
  (forall st st', Reachable bal st -> cond st = true -> body st = Some st' ->
                  advances st st').

End Notions.

(** ** Laws of the comparisons with [0.01]

    What the structural properties need to know about numbers: no number is
    both below [-0.01] and above [0.01], and a number whose absolute value
    is below [0.01] is neither. *)

Class NumberLaws (num : Type) `{Number num} : Prop := {
  debtor_not_creditor (a : num) :
    is_debtor a = true -> is_creditor a = true -> False;
  within_cent_not_debtor (a : num) :
    within_cent a = true -> is_debtor a = false;
  within_cent_not_creditor (a : num) :
    within_cent a = true -> is_creditor a = false
}.

(** ** Binary64 values

    The specification of the primitive operations is stated on [spec_float]:
    sign, mantissa and exponent. *)

(** What [binary_round_aux] returns once the mantissa [x] and exponent [e]
    are settled. *)
Definition bra_result (s : bool) (x e : Z) : spec_float :=
  match x with
  | Z0 => S754_zero s
  | Zpos p => if (e <=? emax - prec)%Z then S754_finite s p e else S754_infinity s
  | Zneg _ => S754_nan
  end.

(** The magnitude of a finite number: one more than the position of its
    leading bit, so that the number is at least [2 ^ (mag - 1)]. *)
Definition mag (p : positive) (e : Z) : Z := (Z.log2 (Z.pos p) + 1 + e)%Z.

(** Positive, with magnitude at least [k] (so at least [2 ^ (k - 1)]), or
    +infinity. *)
Definition pos_ge (k : Z) (x : spec_float) : Prop :=
  x = S754_infinity false \/
  exists m e, x = S754_finite false m e /\ (k <= mag m e)%Z.

(** What a debtor's working amount can be: anything but [NaN] and
    -infinity. *)
Definition debtor_ok (x : spec_float) : Prop :=
  x <> S754_nan /\ x <> S754_infinity true.

(** What a creditor's working amount can be: anything but [NaN] and
    +infinity. *)
Definition creditor_ok (x : spec_float) : Prop :=
  x <> S754_nan /\ x <> S754_infinity false.

(** The literals [0.01] and [100] as sign, mantissa and exponent. *)
Definition cent64 : spec_float := S754_finite false 5764607523034235 (-59).
Definition hundred64 : spec_float := S754_finite false 7036874417766400 (-46).

(** The loop invariant on binary64: from the cursors on, no working amount
    is [NaN], no debtor is at -infinity and no creditor at +infinity, and
    none passes the loop's "settled" test. *)
Definition binary64_invariant (st : State float) : Prop :=
  (forall k e, (i st <= k)%nat -> debtors st !! k = Some e ->
     debtor_ok (Prim2SF (amount e)) /\
     @within_cent float Binary64.number (amount e) = false) /\
  (forall k e, (j st <= k)%nat -> creditors st !! k = Some e ->
     creditor_ok (Prim2SF (amount e)) /\
     @num_lt float Binary64.number (amount e)
       (@num_cent float Binary64.number) = false).

(** *** Numbers as integers

    The number a binary64 value stands for, scaled by [2 ^ 1074] so that it
    is an integer; the infinities are mapped beyond every finite value. *)
Definition scaled_infinity : Z := (2 ^ 2098)%Z.

Definition scaled (x : spec_float) : Z :=
  match x with
  | S754_zero _ => 0%Z
  | S754_infinity s => cond_Zopp s scaled_infinity
  | S754_nan => 0%Z
  | S754_finite s m e => cond_Zopp s (Z.pos m * 2 ^ (e + 1074))%Z
  end.

(** A point of the binary64 grid, scaled: [M * 2 ^ E * 2 ^ 1074]. *)
Definition grid (M E : Z) : Z := (M * 2 ^ (E + 1074))%Z.

(** The scaled value of a JavaScript number. *)
Definition value64 (x : float) : Z := scaled (Prim2SF x).

(** The scaled value of the amount of entry [k], when there is one. *)
Definition head_value (l : list (Entry float)) (k : nat) : Z :=
  match l !! k with Some e => value64 (amount e) | None => 0%Z end.

(** How far the creditor under the cursor is above the debtor under the
    cursor. *)
Definition gap (st : State float) : Z :=
  (head_value (creditors st) (j st) - head_value (debtors st) (i st))%Z.

(** The loop's measure on binary64: the entries still ahead of the cursors
    and, below that, the gap between the two entries under the cursors. *)
Definition loop_measure (st : State float) : Z :=
  (Z.of_nat (remaining st) * (4 * scaled_infinity + 1)
   + (gap st + 2 * scaled_infinity))%Z.

(** ** Inputs *)

Module Inputs.
Import Binary64.
#[local] Set Warnings "-inexact-float".

(** Scenario 1 of the specification. *)
Definition scenario1 : list (string * float) :=
  [("A", -30); ("B", 10); ("C", 20)]%float.

(** Scenario 3 of the specification: everybody within half a cent. *)
Definition scenario3 : list (string * float) :=
  [("A", 0.005); ("B", -0.005)]%float.

(** Balances of exactly one cent. *)
Definition boundary : list (string * float) :=
  [("A", PrimFloat.opp 0.01); ("B", 0.01)]%float.

(** Three debts of 10.004 against one credit of 30.012. *)
Definition residue : list (string * float) :=
  [("A", -10.004); ("B", -10.004); ("C", -10.004); ("D", 30.012)]%float.

(** Amounts between [2^51] and [2^53], where neighbouring binary64 numbers
    are 0.5 or 1 apart. *)
Definition stalled : list (string * float) :=
  [("A", -3000000000000001); ("B", 6000000000000002)]%float.

(** Whole cents that sum to zero: two debts of 0.06 against credits of 0.05,
    0.05 and 0.02. *)
Definition whole_cents : list (string * float) :=
  [("A", -0.06); ("B", -0.06); ("C", 0.05); ("D", 0.05); ("E", 0.02)]%float.

(** What [simplifyDebts] returns on [residue] and on [scenario1]. *)
Definition residue_settlements : list (Settlement float) :=
  [mkSettlement "A" "D" 10 "USD"; mkSettlement "B" "D" 10 "USD";
   mkSettlement "C" "D" 10 "USD"]%float.
Definition scenario1_settlements : list (Settlement float) :=
  [mkSettlement "A" "C" 20 "USD"; mkSettlement "A" "B" 10 "USD"]%float.

End Inputs.

(** ** The caller: the handler of [GET /api/trips/:id/settle]

    The handler builds the [balances] object from the trip and its expenses,
    passes it to [simplifyDebts] and replies with both.  It is modelled from
    the two database reads on: what [Trip.findById] and [Expense.find] gave
    are the inputs: a failed read, and a document that does not have the
    types of its schema ([participants] an array of strings, payers strings,
    amounts numbers), are outside the model.

    The object is a plain [{}]: the model holds for names that are not
    properties of [Object.prototype] (see [own_names]), for which a read
    before the first write gives [undefined]. *)

(** *** What the handler needs from numbers besides the arithmetic *)

Class Conversions (num : Type) : Type := {
  (** [trip.participants.length], as a number *)
  num_of_length : nat -> num;
  (** [!x] for a number [x]: whether [x] is [0], [-0] or [NaN] *)
  num_falsy : num -> bool
}.

#[export] Instance binary64_conversions : Conversions float := {|
  num_of_length n := PrimFloat.of_uint63 (Uint63.of_Z (Z.of_nat n));
  num_falsy x := (PrimFloat.eqb x 0 || PrimFloat.is_nan x)%bool
|}.

(** *** Objects

    The own properties of an object, in the order in which they were
    created. *)

Section Objects.
Context {V : Type}.

(** [o[k]] for an own property; [None] is [undefined]. *)
Fixpoint obj_get (o : list (string * V)) (k : string) : option V :=
  match o with
  | [] => None
  | (k', v) :: o' => if decide (k = k') then Some v else obj_get o' k
  end.

(** [o[k] = v]: an existing property keeps its place, a new one comes
    last. *)
Fixpoint obj_set (o : list (string * V)) (k : string) (v : V)
    : list (string * V) :=
  match o with
  | [] => [(k, v)]
  | (k', v') :: o' =>
      if decide (k = k') then (k, v) :: o' else (k', v') :: obj_set o' k v
  end.

(** The value of a decimal digit. *)
Definition digit_value (c : Ascii.ascii) : option N :=
  let n := Ascii.N_of_ascii c in
  if ((48 <=? n) && (n <=? 57))%N then Some (n - 48)%N else None.

(** The number a string of decimal digits denotes, after the digits read so
    far gave [acc]. *)
Fixpoint decimal (s : string) (acc : N) : option N :=
  match s with
  | EmptyString => Some acc
  | String c s' => d ← digit_value c; decimal s' (10 * acc + d)%N
  end.

(** Whether a property name is an array index: the canonical decimal form
    of an integer from 0 to 2^32 - 2. *)
Definition array_index (k : string) : option N :=
  match k with
  | EmptyString => None
  | String c s' =>
      if (Ascii.N_of_ascii c =? 48)%N then
        match s' with EmptyString => Some 0%N | _ => None end
      else
        n ← decimal k 0; if (n <? 4294967295)%N then Some n else None
  end.

(** Insertion by ascending index. *)
Fixpoint insert_index (x : N * (string * V)) (l : list (N * (string * V)))
    : list (N * (string * V)) :=
  match l with
  | [] => [x]
  | y :: l' => if (x.1 <=? y.1)%N then x :: y :: l' else y :: insert_index x l'
  end.

(** [Object.entries(o)]: the properties whose name is an array index come
    first, by ascending index; the others follow in the order of their
    creation. *)
Definition Object_entries (o : list (string * V)) : list (string * V) :=
  (foldr insert_index []
     (omap (fun kv => i ← array_index kv.1; Some (i, kv)) o)).*2
  ++ filter (fun kv => array_index kv.1 = None) o.

End Objects.

(** The properties every object inherits from [Object.prototype]. *)
Definition Object_prototype : list string :=
  ["constructor"; "__defineGetter__"; "__defineSetter__"; "hasOwnProperty";
   "__lookupGetter__"; "__lookupSetter__"; "isPrototypeOf";
   "propertyIsEnumerable"; "toString"; "valueOf"; "__proto__";
   "toLocaleString"].

(** Names for which a plain object behaves as a map. *)
Definition own_names (names : list string) : Prop :=
  Forall (fun k => k ∉ Object_prototype) names.

(** *** Documents *)

(** A document of [tripSchema], without its creation date. *)
Record Trip : Type := mkTrip {
  name : string;
  currency : string;
  participants : list string
}.

(** A document of [expenseSchema], without its trip and its date. *)
Record Expense (num : Type) : Type := mkExpense {
  description : string;
  exp_amount : num;
  payer : string
}.
Arguments mkExpense {num} _ _ _.
Arguments description {num} _.
Arguments exp_amount {num} _.
Arguments payer {num} _.

(** What the handler sends: status 404 with an error, status 200 with the
    currency, the balances and the settlements, or status 500 from the
    [catch]. *)
Inductive Reply (num : Type) : Type :=
  | NotFound
  | Settled (cur : string) (bal : list (string * num))
            (sts : list (Settlement num))
  | ServerError.
Arguments NotFound {num}.
Arguments Settled {num} _ _ _.
Arguments ServerError {num}.

Section Handler.
Context {num : Type} `{Number num} `{Conversions num}.

(** [trip.participants.forEach(p => balances[p] = 0)] *)
Definition zero_balances (ps : list string) : list (string * num) :=
  fold_left (fun o p => obj_set o p num_zero) ps [].

(** [trip.participants.forEach(person => { if (person !== exp.payer)
    balances[person] -= splitAmount })]; [None] when a balance that was
    never written is read. *)
Fixpoint charge_others (ps : list string) (pay : string) (splitAmount : num)
    (o : list (string * num)) : option (list (string * num)) :=
  match ps with
  | [] => Some o
  | person :: ps' =>
      if decide (person <> pay) then
        b ← obj_get o person;
        charge_others ps' pay splitAmount (obj_set o person (num_sub b splitAmount))
      else charge_others ps' pay splitAmount o
  end.

(** The body of [expenses.forEach(exp => ...)]. *)
Definition add_expense (t : Trip) (o : list (string * num)) (exp : Expense num)
    : option (list (string * num)) :=
  let splitAmount :=
    num_div (exp_amount exp) (num_of_length (length (participants t))) in
  let o :=
    match obj_get o (payer exp) with
    | Some b => if num_falsy b then obj_set o (payer exp) num_zero else o
    | None => obj_set o (payer exp) num_zero
    end in
  b ← obj_get o (payer exp);
  let o := obj_set o (payer exp)
             (num_add b (num_sub (exp_amount exp) splitAmount)) in
  charge_others (participants t) (payer exp) splitAmount o.

(** [expenses.forEach(...)] *)
Fixpoint add_expenses (t : Trip) (o : list (string * num))
    (expenses : list (Expense num)) : option (list (string * num)) :=
  match expenses with
  | [] => Some o
  | exp :: rest => o' ← add_expense t o exp; add_expenses t o' rest
  end.

(** The [balances] object when [simplifyDebts] is called. *)
Definition net_balances (t : Trip) (expenses : list (Expense num))
    : option (list (string * num)) :=
  add_expenses t (zero_balances (participants t)) expenses.

(** The handler, after the two reads: [trip] is what [Trip.findById] gave
    ([None] for [null]) and [expenses] what [Expense.find] gave.  The outer
    [None] stands for arithmetic on [undefined], which the model of numbers
    does not cover. *)
Definition settle (fuel : nat) (trip : option Trip)
    (expenses : list (Expense num)) : option (Outcome (Reply num)) :=
  match trip with
  | None => Some (Returned NotFound)
  | Some t =>
      o ← net_balances t expenses;
      Some match simplifyDebts fuel (Object_entries o) with
           | Returned sts => Returned (Settled (currency t) (Object_entries o) sts)
           | Threw => Returned ServerError
           | OutOfFuel => OutOfFuel
           end
  end.

End Handler.

(** *** Amounts that are not ordinary

    The loop is still running, and the debtor or the creditor under the
    cursor is [NaN]. *)
Definition poisoned_state (st : State float) : Prop :=
  exists d c, debtors st !! i st = Some d /\ creditors st !! j st = Some c /\
    (Prim2SF (amount d) = S754_nan \/ Prim2SF (amount c) = S754_nan).

(** A finite amount of sign [s]: positive for [false], negative for
    [true]. *)
Definition signed_finite (s : bool) (a : float) : Prop :=
  exists m e, Prim2SF a = S754_finite s m e.

(** An amount that is finite and not zero. *)
Definition proper_amount (e : Entry float) : Prop :=
  exists s m x, Prim2SF (amount e) = S754_finite s m x.

(** *** Trips *)

Module Trips.
#[local] Set Warnings "-inexact-float".

(** Three participants and one dinner paid by the first. *)
Definition weekend : Trip := mkTrip "Weekend" "EUR" ["A"; "B"; "C"].
Definition weekend_expenses : list (Expense float) :=
  [mkExpense "dinner" 30%float "A"].

(** A trip created without participants, a payment and a refund. *)
Definition nobody : Trip := mkTrip "Nobody" "USD" [].
Definition nobody_expenses : list (Expense float) :=
  [mkExpense "paid" 10%float "A"; mkExpense "refund" (-10)%float "B"].

(** Balances with both infinities, and balances with a [NaN]. *)
Definition unbounded : list (string * float) :=
  [("A", PrimFloat.neg_infinity); ("B", PrimFloat.infinity)].
Definition undefined_share : list (string * float) :=
  [("A", (-20)%float); ("B", PrimFloat.nan); ("C", 20%float)].

End Trips.

(** ** Amounts of bounded magnitude *)

(** [Math.abs(a) <= 2 ** 40]: a number, and of magnitude at most [2 ^ 40]
    (about 1.1e12). *)
Definition small (a : float) : bool := PrimFloat.leb (PrimFloat.abs a) 0x1p40.

(** The scaled value of [0.01]. *)
Definition cent_value : Z := value64 (@num_cent float Binary64.number).

(** The loop invariant for such amounts, on scaled values: a working amount
    the cursor has passed is within 0.01 of zero; from the cursor on a
    debtor is between [-2 ^ 40] and [-0.01], a creditor between [0.01] and
    [2 ^ 40]. *)
Definition bounded_invariant (st : State float) : Prop :=
  (forall k e, debtors st !! k = Some e ->
     Prim2SF (amount e) <> S754_nan /\
     if decide (k < i st)%nat
     then (Z.abs (value64 (amount e)) < cent_value)%Z
     else (- 2 ^ 1114 <= value64 (amount e)
           <= - cent_value)%Z) /\
  (forall k e, creditors st !! k = Some e ->
     Prim2SF (amount e) <> S754_nan /\
     if decide (k < j st)%nat
     then (Z.abs (value64 (amount e)) < cent_value)%Z
     else (cent_value <= value64 (amount e)
           <= 2 ^ 1114)%Z).

(** The sum of the balances as numbers, without rounding (scaled). *)
Definition exact_sum (bal : list (string * float)) : Z :=
  foldr (fun kv acc => (value64 kv.2 + acc)%Z) 0%Z bal.

(** ** The heap: who can write to the caller's object

    [balances] is a reference to an object of the caller.  The function
    builds its records, its three arrays and the settlements as new objects
    and writes to the records through the references the arrays hold.  Here
    objects live in a heap, a reference is the position of an object in it,
    and every read and write of the function goes through the heap. *)

(** The objects [simplifyDebts] reaches. *)
Inductive Object : Type :=
  | Mapping (props : list (string * float))   (* the balances object *)
  | Party (p : string) (a : float)            (* { person, amount } *)
  | Payment (s : Settlement float)            (* { from, to, amount, currency } *)
  | Array (elems : list nat).                 (* an array of references *)

(** A computation on the heap: how it ends, and the heap it leaves. *)
Definition Run (A : Type) : Type :=
  list Object -> Outcome A * list Object.

#[export] Instance run_ret : MRet Run := fun A a h => (Returned a, h).

#[export] Instance run_bind : MBind Run := fun A B f m h =>
  match m h with
  | (Returned a, h') => f a h'
  | (Threw, h') => (Threw, h')
  | (OutOfFuel, h') => (OutOfFuel, h')
  end.

(** A [TypeError]. *)
Definition throw {A : Type} : Run A := fun h => (Threw, h).

(** The model's fuel has run out. *)
Definition out_of_fuel {A : Type} : Run A := fun h => (OutOfFuel, h).

(** A new object ([{ ... }] or [[]]); its reference is new. *)
Definition alloc (o : Object) : Run nat :=
  fun h => (Returned (length h), h ++ [o]).

(** Reading through a reference; nothing is there for [undefined]. *)
Definition load (r : nat) : Run Object :=
  fun h => match h !! r with
           | Some o => (Returned o, h)
           | None => (Threw, h)
           end.

(** Writing through a reference. *)
Definition store (r : nat) (o : Object) : Run unit :=
  fun h => (Returned tt, <[r := o]> h).

(** The heap as it is. *)
Definition snapshot : Run (list Object) := fun h => (Returned h, h).

(** [Object.entries(obj)] *)
Definition entries (obj : nat) : Run (list (string * float)) :=
  o ← load obj;
  match o with Mapping props => mret props | _ => throw end.

(** The elements of [arr]. *)
Definition elements (arr : nat) : Run (list nat) :=
  o ← load arr;
  match o with Array es => mret es | _ => throw end.

(** [arr.push(r)] *)
Definition push (arr r : nat) : Run unit :=
  es ← elements arr; store arr (Array (es ++ [r])).

(** [arr[k]]; reading a property of [undefined] throws. *)
Definition element (arr k : nat) : Run nat :=
  es ← elements arr;
  match es !! k with Some r => mret r | None => throw end.

(** [r.person] and [r.amount] *)
Definition get_person (r : nat) : Run string :=
  o ← load r;
  match o with Party p _ => mret p | _ => throw end.

Definition get_amount (r : nat) : Run float :=
  o ← load r;
  match o with Party _ a => mret a | _ => throw end.

(** [r.amount = a] *)
Definition set_amount (r : nat) (a : float) : Run unit :=
  o ← load r;
  match o with Party p _ => store r (Party p a) | _ => throw end.

(** [a.amount] for the comparator of [sort], which reads and does not
    write. *)
Definition amount_in (h : list Object) (r : nat) : float :=
  match h !! r with Some (Party _ a) => a | _ => PrimFloat.nan end.

(** [Array.prototype.sort], on references. *)
Fixpoint insert_ref (cmp : nat -> nat -> float) (x : nat) (l : list nat)
    : list nat :=
  match l with
  | [] => [x]
  | y :: l' =>
      if PrimFloat.ltb 0 (cmp x y) then y :: insert_ref cmp x l'
      else x :: y :: l'
  end.

(** [arr.sort(cmp)]: the array is sorted in place. *)
Definition sort (arr : nat) (cmp : list Object -> nat -> nat -> float) : Run unit :=
  h ← snapshot; es ← elements arr;
  store arr (Array (foldr (insert_ref (cmp h)) [] es)).

(** [for (const [person, amount] of Object.entries(balances)) { ... }]: the
    pairs hold copies of a string and of a number. *)
Fixpoint separate (debtors creditors : nat) (l : list (string * float))
    : Run unit :=
  match l with
  | [] => mret tt
  | (person, amount) :: l' =>
      (if PrimFloat.ltb amount (- 0x1.47ae147ae147bp-7)
       then r ← alloc (Party person amount); push debtors r
       else mret tt);;
      (if PrimFloat.ltb 0x1.47ae147ae147bp-7 amount
       then r ← alloc (Party person amount); push creditors r
       else mret tt);;
      separate debtors creditors l'
  end.

(** One execution of the loop body; it gives the two cursors. *)
Definition body_heap (debtors creditors settlements : nat) (i j : nat)
    : Run (nat * nat) :=
  debtor ← element debtors i;
  creditor ← element creditors j;
  da ← get_amount debtor; ca ← get_amount creditor;
  let amount :=
    (Binary64.js_round (Binary64.js_min (PrimFloat.abs da) ca * 100)
     / 100)%float in
  from ← get_person debtor; to ← get_person creditor;
  s ← alloc (Payment (mkSettlement from to amount "USD"));
  push settlements s;;
  da ← get_amount debtor; set_amount debtor (da + amount)%float;;
  ca ← get_amount creditor; set_amount creditor (ca - amount)%float;;
  da ← get_amount debtor; ca ← get_amount creditor;
  let i' := if PrimFloat.ltb (PrimFloat.abs da) 0x1.47ae147ae147bp-7
            then S i else i in
  let j' := if PrimFloat.ltb ca 0x1.47ae147ae147bp-7 then S j else j in
  mret (i', j').

(** The loop, with at most [fuel] executions of its body. *)
Fixpoint while_heap (fuel : nat) (debtors creditors settlements : nat)
    (i j : nat) : Run unit :=
  ds ← elements debtors; cs ← elements creditors;
  if (i <? length ds)%nat && (j <? length cs)%nat then
    match fuel with
    | O => out_of_fuel
    | S fuel' =>
        ij ← body_heap debtors creditors settlements i j;
        while_heap fuel' debtors creditors settlements ij.1 ij.2
    end
  else mret tt.

(** [simplifyDebts(balances)] on the heap; the result is the reference of
    the array of settlements. *)
Definition simplifyDebts_heap (fuel : nat) (balances : nat) : Run nat :=
  debtors ← alloc (Array []);
  creditors ← alloc (Array []);
  l ← entries balances;
  separate debtors creditors l;;
  sort debtors (fun h a b => (amount_in h a - amount_in h b)%float);;
  sort creditors (fun h a b => (amount_in h b - amount_in h a)%float);;
  settlements ← alloc (Array []);
  while_heap fuel debtors creditors settlements 0 0;;
  mret settlements.

(** The settlements the array at [r] refers to. *)
Definition payments (h : list Object) (r : nat) : option (list (Settlement float)) :=
  match h !! r with
  | Some (Array es) =>
      mapM (fun s => match h !! s with
                     | Some (Payment p) => Some p
                     | _ => None
                     end) es
  | _ => None
  end.

(** *** The heap and the functional model *)

(** The object of a record of the functional model. *)
Definition party (e : Entry float) : Object := Party (person e) (amount e).

(** The references [rs] refer to the objects of [l], one by one. *)
Definition refer {A : Type} (f : A -> Object) (h : list Object) (rs : list nat)
    (l : list A) : Prop :=
  Forall2 (fun r x => h !! r = Some (f x)) rs l.

(** The two arrays hold references [ds] and [cs] to records that are the
    working lists [dl] and [cl]; no record is referred to twice, and all of
    this was allocated after the first [n] objects of the heap. *)
Record Lists (n : nat) (h : list Object) (dArr cArr : nat) (ds cs : list nat)
    (dl cl : list (Entry float)) : Prop := {
  lists_debtors : h !! dArr = Some (Array ds);
  lists_creditors : h !! cArr = Some (Array cs);
  lists_distinct : dArr <> cArr;
  lists_dl : refer party h ds dl;
  lists_cl : refer party h cs cl;
  lists_NoDup : NoDup (ds ++ cs);
  lists_new : Forall (le n) (dArr :: cArr :: ds ++ cs)
}.

(** The heap holds the state [st] of the loop. *)
Definition Machine (n : nat) (h : list Object) (dArr cArr sArr : nat)
    (st : State float) : Prop :=
  exists ds cs ss,
    Lists n h dArr cArr ds cs (debtors st) (creditors st) /\
    h !! sArr = Some (Array ss) /\ refer Payment h ss (settlements st) /\
    sArr <> dArr /\ sArr <> cArr /\ (n <= sArr)%nat.

(** The first [n] objects of the heap are as they were. *)
Definition same_below (n : nat) (h h' : list Object) : Prop :=
  forall r, (r < n)%nat -> h' !! r = h !! r.

(** * Properties that hold for every number system *)

Section Structure.
Context {num : Type} `{Number num}.

(** ** The partition step *)

Lemma partition_fold bal ds cs :
  fold_left partition_step bal (ds, cs)
  = (ds ++ omap debtor_entry bal, cs ++ omap creditor_entry bal).
Proof.
  revert ds cs. induction bal as [|[p a] bal IH]; intros ds cs; simpl.
  - by rewrite !app_nil_r.
  - rewrite IH. unfold debtor_entry, creditor_entry, is_debtor, is_creditor.
    simpl. destruct (num_lt a (num_neg num_cent)), (num_gt a num_cent);
      by rewrite <- ?app_assoc.
Qed.

Lemma partition_eq bal :
  partition bal = (omap debtor_entry bal, omap creditor_entry bal).
Proof. unfold partition. by rewrite partition_fold. Qed.

Lemma elem_of_partition_debtors bal e :
  e ∈ (partition bal).1 <->
  (person e, amount e) ∈ bal /\ is_debtor (amount e) = true.
Proof.
  rewrite partition_eq. simpl. rewrite list_elem_of_omap. split.
  - intros ([p a] & Hin & Hd). unfold debtor_entry in Hd. simpl in Hd.
    destruct (is_debtor a) eqn:E; [|done]. by simplify_eq.
  - intros [Hin Hd]. exists (person e, amount e). split; [done|].
    unfold debtor_entry. simpl. rewrite Hd. by destruct e.
Qed.

Lemma elem_of_partition_creditors bal e :
  e ∈ (partition bal).2 <->
  (person e, amount e) ∈ bal /\ is_creditor (amount e) = true.
Proof.
  rewrite partition_eq. simpl. rewrite list_elem_of_omap. split.
  - intros ([p a] & Hin & Hd). unfold creditor_entry in Hd. simpl in Hd.
    destruct (is_creditor a) eqn:E; [|done]. by simplify_eq.
  - intros [Hin Hd]. exists (person e, amount e). split; [done|].
    unfold creditor_entry. simpl. rewrite Hd. by destruct e.
Qed.

(** ** Sorting only reorders *)

Lemma insert_by_perm cmp x l : insert_by cmp x l ≡ₚ x :: l.
Proof.
  induction l as [|y l IH]; simpl; [done|].
  destruct (num_gt (cmp x y) num_zero); [|done].
  rewrite IH. apply Permutation_swap.
Qed.

Lemma sort_by_perm cmp l : sort_by cmp l ≡ₚ l.
Proof.
  induction l as [|x l IH]; simpl; [done|].
  by rewrite insert_by_perm, IH.
Qed.

Lemma sort_by_length cmp l : length (sort_by cmp l) = length l.
Proof. by rewrite sort_by_perm. Qed.

(** ** The state on entry to the loop *)

Lemma init_eq bal :
  init bal = mkState bal (sort_by ascending (partition bal).1)
                     (sort_by descending (partition bal).2) [] 0 0.
Proof. unfold init. by destruct (partition bal). Qed.

Lemma init_debtors_length bal : length (debtors (init bal)) = debtorCount bal.
Proof. rewrite init_eq. simpl. apply sort_by_length. Qed.

Lemma init_creditors_length bal :
  length (creditors (init bal)) = creditorCount bal.
Proof. rewrite init_eq. simpl. apply sort_by_length. Qed.

Lemma elem_of_init_debtors bal e :
  e ∈ debtors (init bal) <->
  (person e, amount e) ∈ bal /\ is_debtor (amount e) = true.
Proof.
  rewrite init_eq. simpl. rewrite sort_by_perm.
  apply elem_of_partition_debtors.
Qed.

Lemma elem_of_init_creditors bal e :
  e ∈ creditors (init bal) <->
  (person e, amount e) ∈ bal /\ is_creditor (amount e) = true.
Proof.
  rewrite init_eq. simpl. rewrite sort_by_perm.
  apply elem_of_partition_creditors.
Qed.

(** ** One execution of the body *)

Lemma cond_true (st : State num) :
  cond st = true <->
  (i st < length (debtors st))%nat /\ (j st < length (creditors st))%nat.
Proof.
  unfold cond. rewrite andb_true_iff, !Nat.ltb_lt. done.
Qed.

(** Inside the loop both array reads are in range: the body cannot throw. *)
Lemma body_defined (st : State num) : cond st = true -> is_Some (body st).
Proof.
  rewrite cond_true. intros [Hi Hj].
  destruct (lookup_lt_is_Some_2 _ _ Hi) as [d Hd].
  destruct (lookup_lt_is_Some_2 _ _ Hj) as [c Hc].
  unfold body. rewrite Hd, Hc. simpl. by eexists.
Qed.

(** What the body does, spelled out. *)
Lemma body_Some (st st' : State num) :
  body st = Some st' ->
  exists d c,
    debtors st !! i st = Some d /\ creditors st !! j st = Some c /\
    let amt := transfer d c in
    let d' := mkEntry (person d) (num_add (amount d) amt) in
    let c' := mkEntry (person c) (num_sub (amount c) amt) in
    balances st' = balances st /\
    debtors st' = <[i st := d']> (debtors st) /\
    creditors st' = <[j st := c']> (creditors st) /\
    settlements st' =
      settlements st ++ [mkSettlement (person d) (person c) amt "USD"] /\
    i st' = (if within_cent (amount d') then S (i st) else i st) /\
    j st' = (if num_lt (amount c') num_cent then S (j st) else j st).
Proof.
  unfold body. destruct (debtors st !! i st) as [d|] eqn:Hd; [|done].
  destruct (creditors st !! j st) as [c|] eqn:Hc; [|done].
  simpl. intros [= <-]. exists d, c. simpl. done.
Qed.

Lemma body_balances (st st' : State num) : body st = Some st' -> balances st' = balances st.
Proof. intros (d & c & _ & _ & Hb & _)%body_Some. done. Qed.

Lemma body_lengths (st st' : State num) :
  body st = Some st' ->
  length (debtors st') = length (debtors st) /\
  length (creditors st') = length (creditors st).
Proof.
  intros (d & c & _ & _ & _ & -> & -> & _)%body_Some.
  by rewrite !length_insert.
Qed.

Lemma body_persons (st st' : State num) :
  body st = Some st' ->
  person <$> debtors st' = person <$> debtors st /\
  person <$> creditors st' = person <$> creditors st.
Proof.
  intros (d & c & Hd & Hc & _ & -> & -> & _)%body_Some.
  rewrite !list_fmap_insert. simpl. split; apply list_insert_id.
  - by rewrite list_lookup_fmap, Hd.
  - by rewrite list_lookup_fmap, Hc.
Qed.

Lemma body_cursors (st st' : State num) :
  body st = Some st' ->
  (i st <= i st' <= S (i st))%nat /\ (j st <= j st' <= S (j st))%nat.
Proof.
  intros (d & c & _ & _ & _ & _ & _ & _ & -> & ->)%body_Some.
  simpl. split.
  - destruct (within_cent _); lia.
  - destruct (num_lt _ num_cent); lia.
Qed.

Lemma body_settlements_length (st st' : State num) :
  body st = Some st' ->
  length (settlements st') = S (length (settlements st)).
Proof.
  intros (d & c & _ & _ & _ & _ & _ & -> & _)%body_Some.
  rewrite length_app. simpl. lia.
Qed.

(** ** The loop *)

Lemma while_unfold fuel (st : State num) :
  while fuel st =
  if cond st then
    match fuel with
    | O => OutOfFuel
    | S fuel' =>
        match body st with
        | Some st' => while fuel' st'
        | None => Threw
        end
    end
  else Returned st.
Proof. by destruct fuel. Qed.

(** The loop never throws. *)
Lemma while_not_Threw fuel (st : State num) : while fuel st <> Threw.
Proof.
  revert st. induction fuel as [|fuel IH]; intros st; simpl.
  - by destruct (cond st).
  - destruct (cond st) eqn:Hc; [|done].
    destruct (body_defined st Hc) as [st' ->]. apply IH.
Qed.

(** A property kept by every iteration holds when the loop returns, and
    the loop condition is false then. *)
Lemma while_invariant (P : State num -> Prop) :
  (forall st st', P st -> cond st = true -> body st = Some st' -> P st') ->
  forall fuel st st',
    P st -> while fuel st = Returned st' -> P st' /\ cond st' = false.
Proof.
  intros Hstep. induction fuel as [|fuel IH]; intros st st' HP; simpl.
  - destruct (cond st) eqn:Hc; [done|]. by intros [= <-].
  - destruct (cond st) eqn:Hc; [|by intros [= <-]].
    destruct (body st) as [st1|] eqn:Hb; [|done].
    apply IH. by eapply Hstep.
Qed.

Lemma while_reachable bal fuel (st st' : State num) :
  Reachable bal st -> while fuel st = Returned st' ->
  Reachable bal st' /\ cond st' = false.
Proof.
  apply (while_invariant (Reachable bal)).
  intros s s' Hr Hc Hb. by eapply reach_step.
Qed.

(** More fuel does not change a result. *)
Lemma while_more_fuel fuel k (st st' : State num) :
  while fuel st = Returned st' -> while (fuel + k) st = Returned st'.
Proof.
  revert st. induction fuel as [|fuel IH]; intros st; simpl.
  - destruct (cond st) eqn:Hc; [done|]. intros [= <-].
    by rewrite while_unfold, Hc.
  - destruct (cond st) eqn:Hc; [|done].
    destruct (body st) as [st1|]; [|done]. apply IH.
Qed.

(** Properties of every reachable state. *)
Lemma reachable_balances bal (st : State num) : Reachable bal st -> balances st = bal.
Proof.
  induction 1 as [|st st' _ IH _ Hb].
  - by rewrite init_eq.
  - by rewrite (body_balances _ _ Hb).
Qed.

Lemma reachable_lengths bal (st : State num) :
  Reachable bal st ->
  length (debtors st) = debtorCount bal /\
  length (creditors st) = creditorCount bal.
Proof.
  induction 1 as [|st st' _ IH _ Hb].
  - by rewrite init_debtors_length, init_creditors_length.
  - destruct (body_lengths _ _ Hb) as [-> ->]. done.
Qed.

Lemma reachable_persons bal (st : State num) :
  Reachable bal st ->
  person <$> debtors st = person <$> debtors (init bal) /\
  person <$> creditors st = person <$> creditors (init bal).
Proof.
  induction 1 as [|st st' _ IH _ Hb]; [done|].
  destruct (body_persons _ _ Hb) as [-> ->]. done.
Qed.

Lemma reachable_cursors bal (st : State num) :
  Reachable bal st ->
  (i st <= length (debtors st))%nat /\ (j st <= length (creditors st))%nat.
Proof.
  induction 1 as [|st st' _ IH Hc Hb].
  - rewrite init_eq. simpl. lia.
  - apply cond_true in Hc.
    destruct (body_lengths _ _ Hb) as [-> ->].
    pose proof (body_cursors _ _ Hb). lia.
Qed.

End Structure.

(** * Properties that need the laws of the comparisons *)

Section Lawful.
Context {num : Type} `{NumberLaws num}.

Implicit Types (bal : list (string * num)) (st : State num).

(** ** No participant is in both lists *)

Lemma assoc_functional bal p a b :
  NoDup bal.*1 -> (p, a) ∈ bal -> (p, b) ∈ bal -> a = b.
Proof.
  induction bal as [|[q c] bal IH]; simpl; [by intros _ ?%elem_of_nil|].
  intros [Hq Hnd]%NoDup_cons [Ha|Ha]%elem_of_cons [Hb|Hb]%elem_of_cons.
  - congruence.
  - simplify_eq. destruct Hq. apply list_elem_of_fmap. by exists (q, b).
  - simplify_eq. destruct Hq. apply list_elem_of_fmap. by exists (q, a).
  - by apply IH.
Qed.

Lemma omap_persons_sublist (f : string * num -> option (Entry num)) bal :
  (forall kv e, f kv = Some e -> person e = kv.1) ->
  person <$> omap f bal `sublist_of` bal.*1.
Proof.
  intros Hf. induction bal as [|kv bal IH]; simpl; [done|].
  destruct (f kv) as [e|] eqn:E; simpl.
  - rewrite (Hf _ _ E). by apply sublist_skip.
  - by apply sublist_cons.
Qed.

Lemma debtor_entry_person kv (e : Entry num) :
  debtor_entry kv = Some e -> person e = kv.1.
Proof.
  unfold debtor_entry. destruct (is_debtor kv.2); [|done]. by intros [= <-].
Qed.

Lemma creditor_entry_person kv (e : Entry num) :
  creditor_entry kv = Some e -> person e = kv.1.
Proof.
  unfold creditor_entry. destruct (is_creditor kv.2); [|done]. by intros [= <-].
Qed.

Lemma init_debtors_NoDup bal :
  NoDup bal.*1 -> NoDup (person <$> debtors (init bal)).
Proof.
  intros Hnd. rewrite init_eq. simpl. rewrite sort_by_perm, partition_eq.
  simpl. eapply sublist_NoDup; [done|].
  apply omap_persons_sublist, debtor_entry_person.
Qed.

Lemma init_creditors_NoDup bal :
  NoDup bal.*1 -> NoDup (person <$> creditors (init bal)).
Proof.
  intros Hnd. rewrite init_eq. simpl. rewrite sort_by_perm, partition_eq.
  simpl. eapply sublist_NoDup; [done|].
  apply omap_persons_sublist, creditor_entry_person.
Qed.

Lemma init_disjoint bal p :
  NoDup bal.*1 ->
  p ∈ person <$> debtors (init bal) ->
  p ∈ person <$> creditors (init bal) -> False.
Proof.
  intros Hnd (d & -> & Hd)%list_elem_of_fmap (c & Hp & Hc)%list_elem_of_fmap.
  apply elem_of_init_debtors in Hd as [Hd1 Hd2].
  apply elem_of_init_creditors in Hc as [Hc1 Hc2].
  rewrite <- Hp in Hc1.
  rewrite <- (assoc_functional _ _ _ _ Hnd Hd1 Hc1) in Hc2.
  by eapply debtor_not_creditor.
Qed.

(** ** The parties of every settlement *)

Lemma reachable_parties bal st s :
  Reachable bal st -> s ∈ settlements st ->
  s_from s ∈ person <$> debtors (init bal) /\
  s_to s ∈ person <$> creditors (init bal).
Proof.
  induction 1 as [|st st' Hr IH Hc Hb].
  - rewrite init_eq. simpl. by intros ?%elem_of_nil.
  - destruct (reachable_persons _ _ Hr) as [Hpd Hpc].
    destruct (body_Some _ _ Hb) as (d & c & Hd & Hcr & _ & _ & _ & -> & _).
    intros [Hs| ->%list_elem_of_singleton]%elem_of_app; [by apply IH|].
    rewrite <- Hpd, <- Hpc. simpl.
    split; apply list_elem_of_fmap; eexists; split; try done;
      by eapply list_elem_of_lookup_2.
Qed.

(** ** What the loop has moved past is settled *)

Lemma reachable_settled bal st :
  Reachable bal st ->
  (forall k e, (k < i st)%nat -> debtors st !! k = Some e ->
               within_cent (amount e) = true) /\
  (forall k e, (k < j st)%nat -> creditors st !! k = Some e ->
               num_lt (amount e) num_cent = true).
Proof.
  induction 1 as [|st st' Hr [IHd IHc] Hc Hb].
  - rewrite init_eq. simpl. split; intros; lia.
  - destruct (body_Some _ _ Hb)
      as (d & c & Hd & Hcr & _ & -> & -> & _ & -> & ->).
    simpl. split; intros k e Hk.
    + destruct (decide (k = i st)) as [->|Hne].
      * rewrite list_lookup_insert_eq by by eapply lookup_lt_Some.
        intros [= <-]. simpl.
        destruct (within_cent _) eqn:E; [done|lia].
      * rewrite list_lookup_insert_ne by done. apply IHd.
        destruct (within_cent _); lia.
    + destruct (decide (k = j st)) as [->|Hne].
      * rewrite list_lookup_insert_eq by by eapply lookup_lt_Some.
        intros [= <-]. simpl.
        destruct (num_lt _ num_cent) eqn:E; [done|lia].
      * rewrite list_lookup_insert_ne by done. apply IHc.
        destruct (num_lt _ num_cent); lia.
Qed.

End Lawful.

Section Simulation.
Context {num : Type} `{NumberLaws num}.

Implicit Types (bal : list (string * num)) (st : State num).

(** ** The settlements replay the working amounts *)

Lemma lookup_amount_None p (l : list (Entry num)) :
  p ∉ person <$> l -> lookup_amount p l = None.
Proof.
  induction l as [|e l IH]; simpl; [done|].
  intros [Hp Hl]%not_elem_of_cons. destruct (decide (person e = p)); [done|].
  by apply IH.
Qed.

Lemma lookup_amount_lookup (l : list (Entry num)) k e :
  NoDup (person <$> l) -> l !! k = Some e ->
  lookup_amount (person e) l = Some (amount e).
Proof.
  revert k. induction l as [|x l IH]; intros k; simpl; [done|].
  intros [Hx Hnd]%NoDup_cons. destruct k as [|k]; simpl.
  - intros [= ->]. by rewrite decide_True.
  - intros Hk. rewrite decide_False; [by eapply IH|].
    intros Heq. apply Hx. rewrite Heq. apply list_elem_of_fmap.
    exists e. split; [done|]. by eapply list_elem_of_lookup_2.
Qed.

Lemma lookup_amount_insert_eq (l : list (Entry num)) k e a :
  NoDup (person <$> l) -> l !! k = Some e ->
  lookup_amount (person e) (<[k := mkEntry (person e) a]> l) = Some a.
Proof.
  intros Hnd Hk.
  apply (lookup_amount_lookup _ k (mkEntry (person e) a)).
  - rewrite list_fmap_insert. simpl. rewrite list_insert_id; [done|].
    by rewrite list_lookup_fmap, Hk.
  - apply list_lookup_insert_eq. by eapply lookup_lt_Some.
Qed.

Lemma lookup_amount_insert_ne (l : list (Entry num)) k e a p :
  l !! k = Some e -> p <> person e ->
  lookup_amount p (<[k := mkEntry (person e) a]> l) = lookup_amount p l.
Proof.
  revert k. induction l as [|x l IH]; intros k; simpl; [done|].
  destruct k as [|k]; simpl.
  - intros [= ->] Hp. by rewrite !decide_False by done.
  - intros Hk Hp. destruct (decide (person x = p)); [done|]. by apply IH.
Qed.

Lemma apply_settlements_snoc l s bal :
  apply_settlements (l ++ [s]) bal
  = apply_settlement (apply_settlements l bal) s.
Proof. unfold apply_settlements. by rewrite fold_left_app. Qed.

(** On entry to the loop every participant's current balance is the input
    balance. *)
Lemma current_init bal kv :
  NoDup bal.*1 -> kv ∈ bal -> current (init bal) kv = kv.
Proof.
  intros Hnd Hin. destruct kv as [p a]. unfold current. simpl. f_equal.
  destruct (is_debtor a) eqn:Ed.
  - assert (He : mkEntry p a ∈ debtors (init bal))
      by by apply elem_of_init_debtors.
    apply list_elem_of_lookup in He as [k Hk].
    by rewrite (lookup_amount_lookup _ _ _ (init_debtors_NoDup _ Hnd) Hk
               : lookup_amount p _ = Some a).
  - rewrite (lookup_amount_None p (debtors (init bal))).
    2:{ intros (d & Hp & Hd)%list_elem_of_fmap.
        apply elem_of_init_debtors in Hd as [Hd1 Hd2]. rewrite <- Hp in Hd1.
        rewrite <- (assoc_functional _ _ _ _ Hnd Hin Hd1) in Hd2. congruence. }
    simpl. destruct (is_creditor a) eqn:Ec.
    + assert (He : mkEntry p a ∈ creditors (init bal))
        by by apply elem_of_init_creditors.
      apply list_elem_of_lookup in He as [k Hk].
      by rewrite (lookup_amount_lookup _ _ _ (init_creditors_NoDup _ Hnd) Hk
                 : lookup_amount p _ = Some a).
    + rewrite lookup_amount_None; [done|].
      intros (d & Hp & Hd)%list_elem_of_fmap.
      apply elem_of_init_creditors in Hd as [Hd1 Hd2]. rewrite <- Hp in Hd1.
      rewrite <- (assoc_functional _ _ _ _ Hnd Hin Hd1) in Hd2. congruence.
Qed.

(** Applying the settlements emitted so far to the input balances gives the
    working amounts. *)
Lemma reachable_simulation bal st :
  NoDup bal.*1 -> Reachable bal st ->
  apply_settlements (settlements st) bal = current st <$> bal.
Proof.
  intros Hnd. induction 1 as [|st st' Hr IH Hc Hb].
  - assert (settlements (init bal) = []) as -> by by rewrite init_eq.
    unfold apply_settlements. simpl. rewrite <- (list_fmap_id bal) at 1.
    apply list_fmap_ext. intros k kv Hin%list_elem_of_lookup_2. simpl.
    symmetry. by apply current_init.
  - destruct (reachable_persons _ _ Hr) as [Hpd Hpc].
    assert (Hnd1 : NoDup (person <$> debtors st))
      by (rewrite Hpd; by apply init_debtors_NoDup).
    assert (Hnd2 : NoDup (person <$> creditors st))
      by (rewrite Hpc; by apply init_creditors_NoDup).
    destruct (body_Some _ _ Hb)
      as (d & c & Hd & Hcr & _ & Hds & Hcs & -> & _).
    assert (Hdp : person d ∈ person <$> debtors st).
    { apply list_elem_of_fmap. exists d. split; [done|].
      by eapply list_elem_of_lookup_2. }
    assert (Hcp : person c ∈ person <$> creditors st).
    { apply list_elem_of_fmap. exists c. split; [done|].
      by eapply list_elem_of_lookup_2. }
    assert (Hne : person d <> person c).
    { intros Heq. apply (init_disjoint bal (person d) Hnd).
      - by rewrite <- Hpd.
      - rewrite <- Hpc. by rewrite Heq. }
    rewrite apply_settlements_snoc, IH. unfold apply_settlement.
    rewrite <- list_fmap_compose. apply list_fmap_ext. intros _ [p a] _.
    unfold current, compose. simpl. rewrite Hds, Hcs. f_equal.
    destruct (decide (p = person d)) as [->|Hpd'].
    + rewrite (decide_False (P := person d = person c)) by done.
      rewrite (lookup_amount_lookup _ _ _ Hnd1 Hd).
      by rewrite (lookup_amount_insert_eq _ _ _ _ Hnd1 Hd).
    + rewrite (lookup_amount_insert_ne _ _ _ _ _ Hd Hpd').
      destruct (decide (p = person c)) as [->|Hpc'].
      * rewrite (lookup_amount_insert_eq _ _ _ _ Hnd2 Hcr).
        rewrite (lookup_amount_lookup _ _ _ Hnd2 Hcr).
        rewrite (lookup_amount_None (person c) (debtors st)); [done|].
        rewrite Hpd. intros Hin. apply (init_disjoint bal (person c) Hnd Hin).
        by rewrite <- Hpc.
      * by rewrite (lookup_amount_insert_ne _ _ _ _ _ Hcr Hpc').
Qed.

End Simulation.

(** * Rounding on binary64

    Facts about [binary_round_aux], through which every primitive operation
    rounds its exact result: the shape of the result, a lower bound on its
    magnitude, and when it cannot overflow. *)

Section Binary64Rounding.
Import Binary64.
Local Open Scope Z_scope.

Lemma digits2_pos_size p : digits2_pos p = Pos.size p.
Proof. induction p; simpl; congruence. Qed.

Lemma Zdigits2_log2 p : Z.pos (digits2_pos p) = Z.log2 (Z.pos p) + 1.
Proof.
  rewrite digits2_pos_size. destruct p; simpl; try reflexivity; lia.
Qed.

Lemma iter_pos_nat {A} (f : A -> A) p x :
  SpecFloat.iter_pos f p x = Nat.iter (Pos.to_nat p) f x.
Proof.
  revert x. induction p as [p IH|p IH|]; intros x; cbn [SpecFloat.iter_pos].
  - rewrite !IH, Pos2Nat.inj_xI.
    replace (S (2 * Pos.to_nat p)) with (Pos.to_nat p + S (Pos.to_nat p))%nat by lia.
    rewrite Nat.iter_add. f_equal. now rewrite Nat.iter_succ_r.
  - rewrite !IH, Pos2Nat.inj_xO.
    replace (2 * Pos.to_nat p)%nat with (Pos.to_nat p + Pos.to_nat p)%nat by lia.
    now rewrite Nat.iter_add.
  - reflexivity.
Qed.

Lemma shr_1_m r : 0 <= shr_m r -> shr_m (shr_1 r) = Z.div2 (shr_m r).
Proof.
  destruct r as [m r s]. simpl. destruct m as [|[p|p|]|p]; simpl; try reflexivity; lia.
Qed.

Lemma shr_iter_m n r :
  0 <= shr_m r -> shr_m (Nat.iter n shr_1 r) = Z.shiftr (shr_m r) (Z.of_nat n).
Proof.
  intros Hr. induction n as [|n IH].
  - simpl. now rewrite Z.shiftr_0_r.
  - rewrite Nat2Z.inj_succ. simpl. rewrite shr_1_m.
    + rewrite IH, Z.div2_spec, Z.shiftr_shiftr by lia. reflexivity.
    + rewrite IH. now apply Z.shiftr_nonneg.
Qed.

Lemma shr_m_spec r e n :
  0 <= shr_m r ->
  shr_m (fst (shr r e n)) = Z.shiftr (shr_m r) (Z.max 0 n) /\
  snd (shr r e n) = e + Z.max 0 n.
Proof.
  intros Hr. unfold shr. destruct n as [|p|p]; simpl.
  - rewrite Z.shiftr_0_r. split; [reflexivity|lia].
  - rewrite iter_pos_nat, shr_iter_m, positive_nat_Z by assumption. 
    split; [reflexivity|lia].
  - rewrite Z.shiftr_0_r. split; [reflexivity|lia].
Qed.

Lemma shr_record_of_loc_m m l : shr_m (shr_record_of_loc m l) = m.
Proof. destruct l as [|[]]; reflexivity. Qed.

Lemma round_nearest_even_bounds m l :
  m <= round_nearest_even m l <= m + 1.
Proof.
  unfold round_nearest_even. destruct l as [|[]]; try lia.
  destruct (Z.even m); lia.
Qed.

Lemma Zdigits2_pos x : 0 < x -> Zdigits2 x = Z.log2 x + 1.
Proof. destruct x as [|p|p]; try lia. intros _. apply Zdigits2_log2. Qed.


Lemma binary_round_aux_spec s m e l :
  0 < m ->
  let k1 := Z.max 0 (fexp prec emax (Zdigits2 m + e) - e) in
  let x := Z.shiftr m k1 in
  let e1 := e + k1 in
  exists x', x <= x' <= x + 1 /\ (l = loc_Exact -> k1 = 0 -> x' = x) /\
    let k2 := Z.max 0 (fexp prec emax (Zdigits2 x' + e1) - e1) in
    binary_round_aux prec emax s m e l = bra_result s (Z.shiftr x' k2) (e1 + k2).
Proof.
  intros Hm k1 x e1. unfold binary_round_aux, shr_fexp.
  set (r0 := shr_record_of_loc m l).
  assert (Hr0 : 0 <= shr_m r0) by (unfold r0; rewrite shr_record_of_loc_m; lia).
  pose proof (shr_m_spec r0 e (fexp prec emax (Zdigits2 m + e) - e) Hr0) as [H1 H2].
  destruct (shr r0 e (fexp prec emax (Zdigits2 m + e) - e)) as [mrs' e'] eqn:E1.
  simpl in H1, H2. unfold r0 in H1. rewrite shr_record_of_loc_m in H1.
  fold k1 in H1, H2. fold x in H1. fold e1 in H2. subst e'.
  set (x' := round_nearest_even (shr_m mrs') (loc_of_shr_record mrs')).
  exists x'. split; [|split].
  - unfold x'. rewrite <- H1. apply round_nearest_even_bounds.
  - intros -> Hk. unfold x'. 
    assert (mrs' = r0) as ->.
    { revert E1. unfold shr. unfold k1 in Hk.
      destruct (fexp prec emax (Zdigits2 m + e) - e); try lia; now intros [= <- _]. }
    unfold r0. simpl. rewrite <- H1. unfold r0. reflexivity.
  - set (k2 := Z.max 0 (fexp prec emax (Zdigits2 x' + e1) - e1)).
    assert (Hx' : 0 <= x').
    { unfold x'. pose proof (round_nearest_even_bounds (shr_m mrs') (loc_of_shr_record mrs')).
      rewrite H1 in *. assert (0 <= x) by (apply Z.shiftr_nonneg; lia). lia. }
    set (r1 := shr_record_of_loc x' loc_Exact).
    assert (Hr1 : 0 <= shr_m r1) by (simpl; lia).
    pose proof (shr_m_spec r1 e1 (fexp prec emax (Zdigits2 x' + e1) - e1) Hr1) as [H3 H4].
    destruct (shr r1 e1 (fexp prec emax (Zdigits2 x' + e1) - e1)) as [mrs'' e''] eqn:E2.
    simpl in H3, H4. fold k2 in H3, H4. subst e''. rewrite H3. reflexivity.
Qed.

Lemma fexp64 z : fexp prec emax z = Z.max (z - 53) (-1074).
Proof. reflexivity. Qed.

Lemma shiftr_pos a n : 0 < a -> 0 <= n -> n <= Z.log2 a ->
  0 < Z.shiftr a n /\ Z.log2 (Z.shiftr a n) = Z.log2 a - n.
Proof.
  intros Ha Hn Hl. split.
  - assert (0 <= Z.shiftr a n) by (apply Z.shiftr_nonneg; lia).
    assert (Z.shiftr a n <> 0); [|lia].
    rewrite Z.shiftr_eq_0_iff by assumption. lia.
  - rewrite Z.log2_shiftr by assumption. lia.
Qed.


Lemma bra_result_cases s x e :
  0 <= x ->
  (x = 0 /\ bra_result s x e = S754_zero s) \/
  (exists p, x = Z.pos p /\
     (bra_result s x e = S754_infinity s /\ emax - prec < e \/
      bra_result s x e = S754_finite s p e /\ e <= emax - prec)).
Proof.
  intros Hx. destruct x as [|p|p]; [left; easy| |lia].
  right. exists p. split; [reflexivity|]. unfold bra_result.
  destruct (Z.leb_spec e (emax - prec)); [right|left]; easy.
Qed.

Lemma binary_round_aux_lower s m e l :
  0 < m -> -1074 < Z.log2 m + 1 + e ->
  binary_round_aux prec emax s m e l = S754_infinity s \/
  exists p e', binary_round_aux prec emax s m e l = S754_finite s p e' /\
               Z.log2 m + 1 + e <= mag p e'.
Proof.
  intros Hm Hmag.
  destruct (binary_round_aux_spec s m e l Hm) as (x' & Hx' & _ & Hres).
  cbv zeta in Hres. rewrite Hres. clear Hres.
  rewrite (Zdigits2_pos m Hm), !fexp64 in *.
  set (k1 := Z.max 0 (Z.max (Z.log2 m + 1 + e - 53) (-1074) - e)) in *.
  assert (Hk1 : 0 <= k1 <= Z.log2 m) by (unfold k1; pose proof (Z.log2_nonneg m); lia).
  destruct (shiftr_pos m k1 Hm (proj1 Hk1) (proj2 Hk1)) as [Hx Hlx].
  assert (Hx'pos : 0 < x') by lia.
  assert (Hlx' : Z.log2 (Z.shiftr m k1) <= Z.log2 x') by (apply Z.log2_le_mono; lia).
  rewrite (Zdigits2_pos x' Hx'pos).
  set (k2 := Z.max 0 (Z.max (Z.log2 x' + 1 + (e + k1) - 53) (-1074) - (e + k1))).
  assert (Hk2 : 0 <= k2 <= Z.log2 x') by (unfold k2, k1; pose proof (Z.log2_nonneg x'); lia).
  destruct (shiftr_pos x' k2 Hx'pos (proj1 Hk2) (proj2 Hk2)) as [Hx'' Hlx''].
  destruct (bra_result_cases s (Z.shiftr x' k2) (e + k1 + k2)) as [[H0 _]|(p & Hp & [[-> _]|[-> _]])];
    [lia|lia|now left|right].
  exists p, (e + k1 + k2). split; [reflexivity|]. unfold mag. rewrite <- Hp. lia.
Qed.

Lemma iter_xO_spec mx d : Z.pos (Pos.iter xO mx d) = Z.pos mx * 2 ^ Z.pos d.
Proof.
  induction d as [|d IH] using Pos.peano_ind.
  - simpl. lia.
  - rewrite Pos.iter_succ, Pos2Z.inj_xO, IH, Pos2Z.inj_succ, Z.pow_succ_r by lia. lia.
Qed.

Lemma shl_align_spec mx ex ex' :
  snd (shl_align mx ex ex') = Z.min ex ex' /\
  Z.pos (fst (shl_align mx ex ex')) = Z.pos mx * 2 ^ (ex - Z.min ex ex').
Proof.
  unfold shl_align. destruct (ex' - ex) as [|d|d] eqn:E; cbn [fst snd].
  - replace (Z.min ex ex') with ex by lia. rewrite Z.sub_diag, Z.pow_0_r. lia.
  - replace (Z.min ex ex') with ex by lia. rewrite Z.sub_diag, Z.pow_0_r. lia.
  - replace (Z.min ex ex') with ex' by lia. split; [reflexivity|].
    rewrite iter_xO_spec. f_equal. f_equal.
    rewrite <- (Pos2Z.opp_neg d), <- E. lia.
Qed.

Lemma log2_shl m k : 0 < m -> 0 <= k -> Z.log2 (m * 2 ^ k) = Z.log2 m + k.
Proof. intros. rewrite Z.log2_mul_pow2 by assumption. lia. Qed.

Lemma binary_round_lower s p e :
  -1074 < mag p e ->
  binary_round prec emax s p e = S754_infinity s \/
  exists p' e', binary_round prec emax s p e = S754_finite s p' e' /\
                mag p e <= mag p' e'.
Proof.
  intros Hmag. unfold binary_round.
  pose proof (shl_align_spec p e (fexp prec emax (Z.pos (digits2_pos p) + e))) as [H1 H2].
  destruct (shl_align p e (fexp prec emax (Z.pos (digits2_pos p) + e))) as [mz ez].
  cbn [fst snd] in H1, H2.
  assert (Hl : Z.log2 (Z.pos mz) + 1 + ez = mag p e).
  { rewrite H2, log2_shl by lia. unfold mag. lia. }
  destruct (binary_round_aux_lower s (Z.pos mz) ez loc_Exact) as [?|(p' & e' & ? & ?)];
    [lia|lia|now left|right].
  exists p', e'. split; [assumption|lia].
Qed.

Lemma binary_round_aux_shape s m e l :
  0 < m ->
  binary_round_aux prec emax s m e l = S754_zero s \/
  binary_round_aux prec emax s m e l = S754_infinity s \/
  exists p e', binary_round_aux prec emax s m e l = S754_finite s p e'.
Proof.
  intros Hm.
  destruct (binary_round_aux_spec s m e l Hm) as (x' & Hx' & _ & Hres).
  cbv zeta in Hres. rewrite Hres. clear Hres.
  set (k1 := Z.max 0 _) in *. set (k2 := Z.max 0 _).
  assert (0 <= Z.shiftr m k1) by (apply Z.shiftr_nonneg; lia).
  assert (Hx : 0 <= Z.shiftr x' k2) by (apply Z.shiftr_nonneg; lia).
  destruct (bra_result_cases s _ (e + k1 + k2) Hx) as [[_ ->]|(p & _ & [[-> _]|[-> _]])];
    [now left|right; now left|right; right; eauto].
Qed.

Lemma binary_round_shape s p e :
  binary_round prec emax s p e = S754_zero s \/
  binary_round prec emax s p e = S754_infinity s \/
  exists p' e', binary_round prec emax s p e = S754_finite s p' e'.
Proof.
  unfold binary_round.
  destruct (shl_align p e _) as [mz ez]. now apply binary_round_aux_shape.
Qed.

Lemma shiftr_lt_pow2 a n b : 0 < a -> 0 <= n -> 0 <= b ->
  Z.log2 a < n + b -> Z.shiftr a n < 2 ^ b.
Proof.
  intros Ha Hn Hb Hl. rewrite Z.shiftr_div_pow2 by assumption.
  apply Z.div_lt_upper_bound; [lia|].
  rewrite <- Z.pow_add_r by lia. apply Z.log2_lt_pow2; lia.
Qed.

Lemma bra_result_finite s x e :
  0 <= x -> e <= 971 ->
  bra_result s x e = S754_zero s \/ exists p e', bra_result s x e = S754_finite s p e'.
Proof.
  intros Hx He.
  destruct (bra_result_cases s x e Hx) as [[_ ->]|(p & _ & [[_ H]|[-> _]])];
    [now left| |right; eauto].
  change (emax - prec) with 971 in H. lia.
Qed.

Lemma binary_round_bounded s p e M k :
  Z.pos p < Z.pos M * 2 ^ k -> 0 <= k -> Z.pos M < 2 ^ 53 -> k + e <= 971 ->
  binary_round prec emax s p e = S754_zero s \/
  exists p' e', binary_round prec emax s p e = S754_finite s p' e'.
Proof.
  intros Hp Hk HM Hke. unfold binary_round.
  assert (Hd : Z.log2 (Z.pos p) < 53 + k).
  { apply Z.log2_lt_pow2; [lia|]. rewrite Z.pow_add_r by lia.
    assert (0 < 2 ^ k) by (apply Z.pow_pos_nonneg; lia). nia. }
  rewrite Zdigits2_log2, fexp64.
  set (t := Z.max (Z.log2 (Z.pos p) + 1 + e - 53) (-1074)).
  pose proof (shl_align_spec p e t) as [H1 H2].
  destruct (shl_align p e t) as [mz ez]. cbn [fst snd] in H1, H2.
  assert (Hlm : Z.log2 (Z.pos mz) = Z.log2 (Z.pos p) + (e - ez))
    by (rewrite H2, log2_shl by lia; lia).
  destruct (binary_round_aux_spec s (Z.pos mz) ez loc_Exact) as (x' & Hx' & Hex & Hres);
    [lia|].
  cbv zeta in Hres, Hx', Hex. rewrite Hres. clear Hres.
  rewrite (Zdigits2_pos (Z.pos mz)), !fexp64, Hlm in * by lia.
  set (k1 := Z.max 0 (Z.max (Z.log2 (Z.pos p) + (e - ez) + 1 + ez - 53) (-1074) - ez)) in *.
  assert (Hk1 : k1 = Z.max 0 (t - e)) by (unfold k1, t; lia).
  assert (Hx0 : 0 <= Z.shiftr (Z.pos mz) k1) by (apply Z.shiftr_nonneg; lia).
  destruct (Z_le_gt_dec t e) as [Hte|Hte].
  - (* aligned: nothing is shifted out *)
    assert (Hk0 : k1 = 0) by lia. specialize (Hex eq_refl Hk0).
    rewrite Hk0, Z.shiftr_0_r in Hex. subst x'.
    rewrite (Zdigits2_pos (Z.pos mz)), Hlm by lia.
    apply bra_result_finite; [apply Z.shiftr_nonneg; lia|].
    unfold t in *. lia.
  - assert (ez = e) by lia. subst ez.
    assert (Hmz : Z.pos mz = Z.pos p)
      by (rewrite H2; replace (Z.min e t) with e by lia; rewrite Z.sub_diag; lia).
    rewrite Hmz in *.
    destruct (Z.eq_dec x' 0) as [->|Hx'0].
    { change (Zdigits2 0) with 0. apply bra_result_finite; [now rewrite Z.shiftr_0_l|].
      unfold t in *. lia. }
    assert (Hx'pos : 0 < x') by lia.
    rewrite (Zdigits2_pos x' Hx'pos).
    set (k2 := Z.max 0 (Z.max (Z.log2 x' + 1 + (e + k1) - 53) (-1074) - (e + k1))).
    apply bra_result_finite; [apply Z.shiftr_nonneg; lia|].
    assert (Hxlt : Z.shiftr (Z.pos p) k1 < 2 ^ 53)
      by (apply shiftr_lt_pow2; unfold t in *; lia).
    assert (Hlx' : Z.log2 x' <= 53).
    { apply Z.lt_succ_r, Z.log2_lt_pow2; [lia|].
      change (2 ^ Z.succ 53) with (2 * 2 ^ 53). lia. }
    destruct (Z.eq_dec t 971) as [Ht|Ht].
    + assert (Hkk : k1 = k) by (unfold t in *; lia).
      assert (Hxm : Z.shiftr (Z.pos p) k1 < Z.pos M).
      { rewrite Z.shiftr_div_pow2, Hkk by lia.
        apply Z.div_lt_upper_bound; [apply Z.pow_pos_nonneg; lia|lia]. }
      assert (Z.log2 x' < 53) by (apply Z.log2_lt_pow2; lia).
      unfold k2. lia.
    + unfold k2. unfold t in *. lia.
Qed.

(** *** Numbers a binary64 value can be *)
Lemma valid_finite x s m e :
  Prim2SF x = S754_finite s m e ->
  -1074 <= e <= 971 /\ Z.log2 (Z.pos m) <= 52 /\
  (e = -1074 \/ Z.log2 (Z.pos m) = 52).
Proof.
  intros Hx. pose proof (Prim2SF_valid x) as Hv. rewrite Hx in Hv.
  simpl in Hv. unfold bounded, canonical_mantissa in Hv.
  apply andb_prop in Hv as [H1 H2].
  apply Z.eqb_eq in H1. apply Z.leb_le in H2.
  rewrite Zdigits2_log2, fexp64 in H1. change (emax - prec) with 971 in H2. lia.
Qed.

Lemma pos_lt_pow2 m : Z.log2 (Z.pos m) <= 52 -> Z.pos m < 2 ^ 53.
Proof. intros. apply Z.log2_lt_pow2; lia. Qed.





Lemma ge_cent x :
  Prim2SF x <> S754_nan -> SFltb (Prim2SF x) cent64 = false ->
  pos_ge (-6) (Prim2SF x).
Proof.
  intros Hn Hlt. destruct (Prim2SF x) as [s|s| |s m e] eqn:E; try easy.
  - destruct s; [discriminate|now left].
  - pose proof (valid_finite x s m e E) as (He & Hm & Hc).
    destruct s; [discriminate|]. right. exists m, e. split; [reflexivity|].
    unfold SFltb, SFcompare, cent64 in Hlt. unfold mag.
    destruct (Z.compare_spec e (-59)); try discriminate; lia.
Qed.

Lemma positive_gt_zero x k : pos_ge k x -> SFltb (S754_zero false) x = true.
Proof. intros [->|(m & e & -> & _)]; reflexivity. Qed.

(** *** The rounded transfer keeps the magnitude of its argument *)

Lemma pos_ge_weaken k k' x : k' <= k -> pos_ge k x -> pos_ge k' x.
Proof.
  intros Hk [->|(m & e & -> & Hm)]; [now left|right].
  exists m, e. split; [reflexivity|lia].
Qed.

Lemma mul_hundred_mag k x :
  -1080 < k -> pos_ge k x -> pos_ge (k + 6) (SFmul prec emax x hundred64).
Proof.
  intros Hk [->|(m & e & -> & Hmag)]; [now left|].
  unfold SFmul, hundred64. cbn [xorb].
  assert (Hl : Z.log2 (Z.pos m) + Z.log2 7036874417766400
               <= Z.log2 (Z.pos (m * 7036874417766400))).
  { rewrite Pos2Z.inj_mul. apply Z.log2_mul_below; lia. }
  change (Z.log2 7036874417766400) with 52 in Hl. unfold mag in Hmag.
  destruct (binary_round_aux_lower false (Z.pos (m * 7036874417766400)) (e + -46) loc_Exact)
    as [->|(p & e' & -> & Hp)]; [lia|lia|now left|].
  right. exists p, e'. split; [reflexivity|]. lia.
Qed.

Lemma round_half_up_bounds m e :
  e < 0 -> 0 <= mag m e -> 1 <= round_half_up false m e <= Z.pos m + 1.
Proof.
  intros He Hmag. unfold round_half_up, mag in *. cbn [cond_Zopp].
  rewrite Z.shiftl_1_l, Z.shiftr_div_pow2 by lia.
  replace (- e + 1) with (Z.succ (- e)) by lia. rewrite Z.pow_succ_r by lia.
  set (P := 2 ^ (- e)).
  assert (HP : 0 < P) by (apply Z.pow_pos_nonneg; lia).
  assert (Hm : P <= 2 * Z.pos m).
  { unfold P. replace (- e) with (Z.succ (- e - 1)) by lia.
    rewrite Z.pow_succ_r by lia.
    assert (2 ^ (- e - 1) <= Z.pos m) by (apply Z.log2_le_pow2; lia). lia. }
  split.
  - apply Z.div_le_lower_bound; lia.
  - apply Z.div_le_upper_bound; [lia|]. nia.
Qed.

Lemma round_half_up_lower m e :
  e < 0 -> Z.shiftr (Z.pos m) (- e) <= round_half_up false m e.
Proof.
  intros He. unfold round_half_up. cbn [cond_Zopp].
  rewrite Z.shiftl_1_l, !Z.shiftr_div_pow2 by lia.
  replace (- e + 1) with (Z.succ (- e)) by lia. rewrite Z.pow_succ_r by lia.
  set (P := 2 ^ (- e)).
  assert (HP : 0 < P) by (apply Z.pow_pos_nonneg; lia).
  apply Z.div_le_lower_bound; [lia|].
  pose proof (Z.mul_div_le (Z.pos m) P HP). nia.
Qed.

Lemma js_round_mag k a :
  0 <= k -> pos_ge k (Prim2SF a) -> pos_ge k (Prim2SF (js_round a)).
Proof.
  intros Hk Ha. unfold js_round.
  destruct (Prim2SF a) as [s|s| |s m e] eqn:E;
    try (destruct Ha as [Ha|(? & ? & Ha & _)]; discriminate).
  - rewrite E. left. destruct Ha as [Ha|(? & ? & Ha & _)]; [exact Ha|discriminate].
  - destruct Ha as [Ha|(m' & e' & [= -> <- <-] & Hmag)]; [discriminate|].
    pose proof (valid_finite a _ _ _ E) as (He & Hm & _).
    destruct (Z.leb_spec 0 e) as [H0|H0].
    + rewrite E. right. exists m, e. split; [reflexivity|exact Hmag].
    + pose proof (round_half_up_bounds m e H0 ltac:(lia)) as Hn.
      pose proof (round_half_up_lower m e H0) as Hlow.
      pose proof (pos_lt_pow2 m Hm) as Hm53.
      set (n := round_half_up false m e) in *.
      assert (Hkn : k <= Z.log2 n + 1).
      { pose proof (Z.log2_nonneg n).
        destruct (Z_le_gt_dec (mag m e) 0) as [Hle|Hgt]; [lia|].
        unfold mag in *.
        destruct (shiftr_pos (Z.pos m) (- e)) as [Hp Hl]; try lia.
        pose proof (Z.log2_le_mono _ _ Hlow). lia. }
      rewrite of_uint63_spec.
      assert (Hphi : Uint63Axioms.to_Z (Uint63.of_Z (Z.abs n)) = n).
      { change (Uint63Axioms.to_Z (Uint63.of_Z (Z.abs n)))
          with (Uint63.to_Z (Uint63.of_Z (Z.abs n))).
        rewrite Uint63.of_Z_spec, Z.abs_eq by lia. apply Z.mod_small.
        change Uint63.wB with (2 ^ 63).
        assert (2 ^ 53 < 2 ^ 63) by reflexivity. lia. }
      rewrite Hphi. destruct n as [|p|p]; try lia.
      unfold binary_normalize.
      destruct (binary_round_lower false p 0) as [->|(p' & e' & -> & Hp)].
      * unfold mag. pose proof (Z.log2_nonneg (Z.pos p)). lia.
      * now left.
      * right. exists p', e'. split; [reflexivity|].
        unfold mag in *. lia.
Qed.

Lemma div_hundred_mag y m e :
  y = S754_finite false m e -> Z.log2 (Z.pos m) <= 52 -> -1000 <= mag m e ->
  pos_ge (mag m e - 7) (SFdiv prec emax y hundred64).
Proof.
  intros -> Hm Hmag. unfold SFdiv, hundred64, SFdiv_core_binary.
  change (Zdigits2 7036874417766400) with 53.
  rewrite (Zdigits2_pos (Z.pos m)), fexp64 by lia. unfold mag in *.
  replace (Z.min (Z.max (Z.log2 (Z.pos m) + 1 + e - (53 + -46) - 53) (-1074)) (e - -46))
    with (Z.log2 (Z.pos m) + e - 59) by lia.
  replace (e - -46 - (Z.log2 (Z.pos m) + e - 59)) with (105 - Z.log2 (Z.pos m)) by lia.
  destruct (105 - Z.log2 (Z.pos m)) as [|s|s] eqn:Es; try lia.
  rewrite <- Es. clear Es.
  assert (Hm' : 2 ^ 105 <= Z.shiftl (Z.pos m) (105 - Z.log2 (Z.pos m))).
  { rewrite Z.shiftl_mul_pow2 by lia.
    pose proof (Z.log2_spec (Z.pos m) ltac:(lia)) as [Hl _].
    replace (2 ^ 105) with (2 ^ Z.log2 (Z.pos m) * 2 ^ (105 - Z.log2 (Z.pos m))).
    - apply Z.mul_le_mono_nonneg_r; [apply Z.pow_nonneg; lia|exact Hl].
    - rewrite <- Z.pow_add_r by (pose proof (Z.log2_nonneg (Z.pos m)); lia).
      f_equal. lia. }
  set (m' := Z.shiftl (Z.pos m) (105 - Z.log2 (Z.pos m))) in *.
  pose proof (Z.div_eucl_eq m' 7036874417766400 ltac:(lia)) as Hdiv.
  assert (Hq : 2 ^ 52 <= m' / 7036874417766400).
  { apply Z.div_le_lower_bound; [lia|].
    assert (7036874417766400 * 2 ^ 52 <= 2 ^ 105) by (vm_compute; discriminate). lia. }
  unfold Z.div in Hq. destruct (Z.div_eucl m' 7036874417766400) as [q r].
  cbn [fst xorb] in *.
  assert (Hlq : 52 <= Z.log2 q) by (apply Z.log2_le_pow2; lia).
  destruct (binary_round_aux_lower false q (Z.log2 (Z.pos m) + e - 59)
              (new_location 7036874417766400 r))
    as [->|(p & e' & -> & Hp)]; [lia|lia|now left|].
  right. exists p, e'. split; [reflexivity|]. unfold mag in *. lia.
Qed.

Lemma hundred_spec : Prim2SF 100%float = hundred64.
Proof. reflexivity. Qed.

(** [Math.round(x * 100) / 100] has at least the magnitude of [x] less
    one, for [x] from [2 ^ -7] on. *)
Lemma round2_mag (x : float) k :
  -6 <= k -> pos_ge k (Prim2SF x) -> pos_ge (k - 1) (Prim2SF (round2 x)).
Proof.
  intros Hk Hx. unfold round2. cbn [num_div num_round num_mul num_hundred number].
  rewrite FloatAxioms.div_spec, hundred_spec.
  assert (Hr : pos_ge (k + 6) (Prim2SF (js_round (x * 100)))).
  { apply js_round_mag; [lia|]. rewrite FloatAxioms.mul_spec, hundred_spec.
    apply mul_hundred_mag; [lia|exact Hx]. }
  destruct Hr as [Hr|(m & e & Hr & Hmag)].
  - rewrite Hr. now left.
  - pose proof (valid_finite _ _ _ _ Hr) as (_ & Hm & _).
    apply (pos_ge_weaken (mag m e - 7)); [lia|].
    apply (div_hundred_mag _ m e); [exact Hr|exact Hm|lia].
Qed.

Lemma shape_debtor_ok s x :
  (x = S754_zero s \/ x = S754_infinity false \/ exists p e, x = S754_finite s p e) ->
  debtor_ok x.
Proof. intros [->|[->|(p & e & ->)]]; split; discriminate. Qed.

Lemma shape_creditor_ok s x :
  (x = S754_zero s \/ x = S754_infinity true \/ exists p e, x = S754_finite s p e) ->
  creditor_ok x.
Proof. intros [->|[->|(p & e & ->)]]; split; discriminate. Qed.

Lemma aligned mx ex ey :
  Z.pos (fst (shl_align mx ex (Z.min ex ey))) = Z.pos mx * 2 ^ (ex - Z.min ex ey).
Proof.
  pose proof (shl_align_spec mx ex (Z.min ex ey)) as [_ H].
  replace (Z.min ex (Z.min ex ey)) with (Z.min ex ey) in H by lia. exact H.
Qed.

Lemma add_keeps_debtor (d a : float) k :
  debtor_ok (Prim2SF d) -> pos_ge k (Prim2SF a) -> debtor_ok (Prim2SF (d + a)).
Proof.
  intros [Hn Hi] Ha. rewrite FloatAxioms.add_spec. unfold SF64add, SFadd.
  destruct (Prim2SF d) as [sd|sd| |sd md ed] eqn:Ed; try easy.
  - destruct Ha as [->|(m & e & -> & _)]; split; cbn; discriminate.
  - destruct sd; [easy|].
    destruct Ha as [->|(m & e & -> & _)]; split; cbn; discriminate.
  - destruct Ha as [->|(ma & ea & -> & _)]; [split; cbn; discriminate|].
    pose proof (valid_finite d _ _ _ Ed) as (He & Hm & _).
    pose proof (aligned md ed ea) as Hd'.
    pose proof (aligned ma ea ed) as Ha'. rewrite (Z.min_comm ea ed) in Ha'.
    set (ez := Z.min ed ea) in *.
    set (d' := fst (shl_align md ed ez)) in *.
    set (a' := fst (shl_align ma ea ez)) in *.
    unfold binary_normalize, cond_Zopp.
    destruct sd.
    + destruct (- Z.pos d' + Z.pos a') as [|p|p] eqn:Es.
      * split; discriminate.
      * apply (shape_debtor_ok false).
        destruct (binary_round_shape false p ez) as [?|[?|?]]; auto.
      * apply (shape_debtor_ok true).
        destruct (binary_round_bounded true p ez md (ed - ez)) as [?|?]; auto.
        -- rewrite <- Hd'. lia.
        -- unfold ez. lia.
        -- now apply pos_lt_pow2.
        -- lia.
    + change (Z.pos d' + Z.pos a') with (Z.pos (d' + a')).
      apply (shape_debtor_ok false).
      destruct (binary_round_shape false (d' + a') ez) as [?|[?|?]]; auto.
Qed.

Lemma sub_keeps_creditor (c a : float) k :
  creditor_ok (Prim2SF c) -> pos_ge k (Prim2SF a) -> creditor_ok (Prim2SF (c - a)).
Proof.
  intros [Hn Hi] Ha. rewrite FloatAxioms.sub_spec. unfold SF64sub, SFsub.
  destruct (Prim2SF c) as [sc|sc| |sc mc ec] eqn:Ec; try easy.
  - destruct Ha as [->|(m & e & -> & _)]; split; cbn; discriminate.
  - destruct sc; [|easy].
    destruct Ha as [->|(m & e & -> & _)]; split; cbn; discriminate.
  - destruct Ha as [->|(ma & ea & -> & _)]; [split; cbn; discriminate|].
    pose proof (valid_finite c _ _ _ Ec) as (He & Hm & _).
    pose proof (aligned mc ec ea) as Hc'.
    pose proof (aligned ma ea ec) as Ha'. rewrite (Z.min_comm ea ec) in Ha'.
    set (ez := Z.min ec ea) in *.
    set (c' := fst (shl_align mc ec ez)) in *.
    set (a' := fst (shl_align ma ea ez)) in *.
    unfold binary_normalize, cond_Zopp.
    destruct sc.
    + change (- Z.pos c' - Z.pos a') with (Z.neg (c' + a')).
      apply (shape_creditor_ok true).
      destruct (binary_round_shape true (c' + a') ez) as [?|[?|?]]; auto.
    + destruct (Z.pos c' - Z.pos a') as [|p|p] eqn:Es.
      * split; discriminate.
      * apply (shape_creditor_ok false).
        destruct (binary_round_bounded false p ez mc (ec - ez)) as [?|?]; auto.
        -- rewrite <- Hc'. lia.
        -- unfold ez. lia.
        -- now apply pos_lt_pow2.
        -- lia.
      * apply (shape_creditor_ok true).
        destruct (binary_round_shape true p ez) as [?|[?|?]]; auto.
Qed.

End Binary64Rounding.

(** * The laws on binary64

    From the specification of the primitive comparison, negation and
    absolute value on [spec_float]. *)

Section Binary64Laws.
Import Binary64.

Variables (c : float) (m : positive) (e : Z).
Hypothesis c_positive : Prim2SF c = S754_finite false m e.

Lemma ltb_opp_exclusive (a : float) :
  PrimFloat.ltb a (PrimFloat.opp c) = true -> PrimFloat.ltb c a = true -> False.
Proof using c_positive.
  rewrite !ltb_spec, opp_spec, c_positive.
  destruct (Prim2SF a) as [s|s| |s m' e']; cbn; try discriminate;
    destruct s; discriminate.
Qed.

Lemma ltb_abs_not_below (a : float) :
  PrimFloat.ltb (PrimFloat.abs a) c = true ->
  PrimFloat.ltb a (PrimFloat.opp c) = false.
Proof using c_positive.
  rewrite !ltb_spec, opp_spec, abs_spec, c_positive.
  destruct (Prim2SF a) as [s|s| |s m' e']; cbn; try discriminate.
  - by destruct s.
  - unfold SFltb, SFcompare. cbn. destruct s; cbn; [|done].
    destruct (e' ?= e)%Z; cbn; try done.
    by destruct (Pos.compare_cont Eq m' m).
Qed.

Lemma ltb_abs_not_above (a : float) :
  PrimFloat.ltb (PrimFloat.abs a) c = true -> PrimFloat.ltb c a = false.
Proof using c_positive.
  rewrite !ltb_spec, abs_spec, c_positive.
  destruct (Prim2SF a) as [s|s| |s m' e']; cbn; try discriminate.
  - by destruct s.
  - unfold SFltb, SFcompare. cbn. destruct s; cbn; [done|].
    rewrite (Z.compare_antisym e' e).
    destruct (e' ?= e)%Z; cbn; try done.
    rewrite (ZC4 m m').
    by destruct (Pos.compare_cont Eq m' m).
Qed.

Lemma ltb_below_not_abs (a : float) :
  PrimFloat.ltb a (PrimFloat.opp c) = true ->
  PrimFloat.ltb (PrimFloat.abs a) c = false.
Proof using c_positive.
  rewrite !ltb_spec, opp_spec, abs_spec, c_positive.
  destruct (Prim2SF a) as [s|s| |s m' e']; cbn; try discriminate;
    try (by destruct s).
  destruct s; [|done].
  destruct (e' ?= e)%Z; cbn; try done.
  by destruct (Pos.compare_cont Eq m' m).
Qed.

Lemma ltb_above_not_below (a : float) :
  PrimFloat.ltb c a = true -> PrimFloat.ltb a c = false.
Proof using c_positive.
  rewrite !ltb_spec, c_positive.
  destruct (Prim2SF a) as [s|s| |s m' e']; cbn; try discriminate;
    try (by destruct s).
  destruct s; [done|].
  rewrite (Z.compare_antisym e' e).
  destruct (e' ?= e)%Z; cbn; try done.
  rewrite (ZC4 m m').
  by destruct (Pos.compare_cont Eq m' m).
Qed.

End Binary64Laws.

#[export] Instance binary64_laws : @NumberLaws float Binary64.number.
Proof.
  assert (Hc : Prim2SF (@num_cent float Binary64.number)
               = S754_finite false 5764607523034235 (-59)) by reflexivity.
  split; intros a; unfold is_debtor, is_creditor, within_cent, num_gt.
  - apply (ltb_opp_exclusive _ _ _ Hc).
  - apply (ltb_abs_not_below _ _ _ Hc).
  - apply (ltb_abs_not_above _ _ _ Hc).
Qed.

(** * The loop on binary64 *)

Section Binary64Loop.
Import Binary64.

Lemma SFeqb_refl x : x <> S754_nan -> SFeqb x x = true.
Proof.
  destruct x as [s|s| |s m e]; try easy; intros _; unfold SFeqb, SFcompare.
  - by destruct s.
  - rewrite Z.compare_refl, Pos.compare_cont_refl. by destruct s.
Qed.

Lemma is_nan_false x : PrimFloat.is_nan x = false <-> Prim2SF x <> S754_nan.
Proof.
  unfold PrimFloat.is_nan. rewrite FloatAxioms.eqb_spec. split.
  - intros H Hn. rewrite Hn in H. discriminate.
  - intros H. by rewrite SFeqb_refl.
Qed.

Lemma is_finite_spec x :
  PrimFloat.is_finite x = true ->
  Prim2SF x <> S754_nan /\ forall s, Prim2SF x <> S754_infinity s.
Proof.
  unfold PrimFloat.is_finite, PrimFloat.is_infinity.
  rewrite negb_true_iff, orb_false_iff, is_nan_false.
  rewrite FloatAxioms.eqb_spec, abs_spec. intros [Hn Hi]. split; [done|].
  intros s Hs. rewrite Hs in Hi. discriminate.
Qed.

Lemma cent_spec : Prim2SF (@num_cent float number) = cent64.
Proof. reflexivity. Qed.

Lemma js_min_cases a b :
  Prim2SF a <> S754_nan -> Prim2SF b <> S754_nan ->
  js_min a b = a \/ js_min a b = b.
Proof.
  intros Ha%is_nan_false Hb%is_nan_false. unfold js_min. rewrite Ha, Hb. simpl.
  destruct (PrimFloat.ltb a b); [by left|].
  destruct (PrimFloat.ltb b a); [by right|].
  destruct (PrimFloat.get_sign a); [by left|by right].
Qed.


Lemma debtor_not_within a :
  is_debtor a = true -> within_cent a = false.
Proof. apply (ltb_below_not_abs _ _ _ cent_spec). Qed.

Lemma creditor_not_below a :
  is_creditor a = true -> num_lt a num_cent = false.
Proof. apply (ltb_above_not_below _ _ _ cent_spec). Qed.


Lemma transfer_positive (d c : Entry float) :
  debtor_ok (Prim2SF (amount d)) -> within_cent (amount d) = false ->
  creditor_ok (Prim2SF (amount c)) -> num_lt (amount c) num_cent = false ->
  pos_ge (-7) (Prim2SF (transfer d c)).
Proof.
  intros [Hdn _] Hdw [Hcn _] Hcl. unfold transfer.
  cbn [num_min num_abs number]. apply (round2_mag _ (-6)); [done|].
  assert (Han : Prim2SF (PrimFloat.abs (amount d)) <> S754_nan).
  { rewrite abs_spec. by destruct (Prim2SF (amount d)). }
  unfold within_cent in Hdw. cbn [num_lt num_abs num_cent number] in Hdw, Hcl.
  rewrite ltb_spec in Hdw, Hcl. 
  change (Prim2SF 0x1.47ae147ae147bp-7) with cent64 in Hdw, Hcl.
  destruct (js_min_cases _ _ Han Hcn) as [-> | ->]; by apply ge_cent.
Qed.

Lemma binary64_step (st st' : State float) :
  binary64_invariant st -> body st = Some st' ->
  binary64_invariant st' /\
  (forall s, s ∈ settlements st' ->
             s ∈ settlements st \/ PrimFloat.ltb 0 (s_amount s) = true).
Proof.
  intros [Id Ic] Hb.
  destruct (body_Some _ _ Hb)
    as (d & c & Hd & Hc & _ & Hds & Hcs & Hss & Hi & Hj).
  destruct (Id _ _ (le_n _) Hd) as [Hdok Hdw].
  destruct (Ic _ _ (le_n _) Hc) as [Hcok Hcl].
  pose proof (transfer_positive d c Hdok Hdw Hcok Hcl) as Hamt.
  cbv zeta in Hi, Hj. cbn [amount] in Hi, Hj.
  set (amt := transfer d c) in *.
  cbn [num_add num_sub number] in Hi, Hj, Hds, Hcs.
  split; [split|].
  - intros k e Hk. rewrite Hds.
    destruct (decide (k = i st)) as [->|Hne].
    + rewrite list_lookup_insert_eq by by eapply lookup_lt_Some.
      intros [= <-]. cbn [amount]. rewrite Hi in Hk.
      split; [by eapply add_keeps_debtor|].
      destruct (within_cent (amount d + amt)%float); [lia|done].
    + rewrite list_lookup_insert_ne by done. apply Id. rewrite Hi in Hk.
      destruct (within_cent _); lia.
  - intros k e Hk. rewrite Hcs.
    destruct (decide (k = j st)) as [->|Hne].
    + rewrite list_lookup_insert_eq by by eapply lookup_lt_Some.
      intros [= <-]. cbn [amount]. rewrite Hj in Hk.
      split; [by eapply sub_keeps_creditor|].
      destruct (num_lt (amount c - amt)%float num_cent); [lia|done].
    + rewrite list_lookup_insert_ne by done. apply Ic. rewrite Hj in Hk.
      destruct (num_lt _ num_cent); lia.
  - intros s. rewrite Hss.
    intros [Hs| ->%list_elem_of_singleton]%elem_of_app; [by left|right].
    cbn [s_amount]. rewrite ltb_spec.
    change (Prim2SF 0) with (S754_zero false). by eapply positive_gt_zero.
Qed.

Lemma binary64_invariant_init (bal : list (string * float)) :
  Forall (fun kv => PrimFloat.is_finite kv.2 = true) bal ->
  binary64_invariant (init bal).
Proof.
  intros Hfin. rewrite Forall_forall in Hfin.
  split; intros k e _ He%list_elem_of_lookup_2.
  - apply elem_of_init_debtors in He as [Hin He].
    apply Hfin, is_finite_spec in Hin as [Hn Hi]. simpl in Hn, Hi.
    split; [by split|by apply debtor_not_within].
  - apply elem_of_init_creditors in He as [Hin He].
    apply Hfin, is_finite_spec in Hin as [Hn Hi]. simpl in Hn, Hi.
    split; [by split|by apply creditor_not_below].
Qed.

Lemma binary64_reachable (bal : list (string * float)) st :
  Forall (fun kv => PrimFloat.is_finite kv.2 = true) bal ->
  Reachable bal st ->
  binary64_invariant st /\
  (forall s, s ∈ settlements st -> PrimFloat.ltb 0 (s_amount s) = true).
Proof.
  intros Hfin. induction 1 as [|st st' Hr [IH1 IH2] Hc Hb].
  - split; [by apply binary64_invariant_init|].
    rewrite init_eq. simpl. by intros s ?%elem_of_nil.
  - destruct (binary64_step _ _ IH1 Hb) as (Hinv & Hs).
    split; [done|]. intros s [?|?]%Hs; [by apply IH2|done].
Qed.

End Binary64Loop.

(** * Termination on binary64

    Each iteration raises the debtor under the cursor or lowers the creditor
    under the cursor by at least one unit in the last place, unless it moves
    a cursor; as binary64 has finitely many values, the loop ends. *)

Section Binary64Termination.
Import Binary64.
Local Open Scope Z_scope.

(** *** Rounding an exact number loses nothing *)

(** The round and sticky bits after one shift to the right. *)
Lemma shr_1_bits r :
  0 <= shr_m r ->
  shr_r (shr_1 r) = Z.odd (shr_m r) /\ shr_s (shr_1 r) = (shr_r r || shr_s r)%bool.
Proof.
  destruct r as [m r s]. cbn [shr_m shr_r shr_s shr_1].
  destruct m as [|[p|p|]|p]; cbn; try lia; auto.
Qed.

(** Shifting out zeros only leaves both bits clear. *)
Lemma shr_iter_exact n m :
  0 <= m -> m mod 2 ^ Z.of_nat n = 0 ->
  let r := Nat.iter n shr_1 (Build_shr_record m false false) in
  shr_r r = false /\ shr_s r = false.
Proof.
  intros Hm. induction n as [|n IH]; intros Hmod; cbn zeta.
  - auto.
  - rewrite Nat2Z.inj_succ, Z.pow_succ_r in Hmod by lia.
    assert (H2n : 0 < 2 ^ Z.of_nat n) by (apply Z.pow_pos_nonneg; lia).
    apply Z.mod_divide in Hmod; [|lia]. destruct Hmod as [q Hq].
    assert (Hmodn : m mod 2 ^ Z.of_nat n = 0).
    { apply Z.mod_divide; [lia|]. exists (q * 2). lia. }
    specialize (IH Hmodn). cbn zeta in IH. destruct IH as [IHr IHs].
    rewrite Nat.iter_succ.
    set (rn := Nat.iter n shr_1 _) in *.
    assert (Hrn : shr_m rn = Z.shiftr m (Z.of_nat n)).
    { unfold rn. rewrite shr_iter_m by (cbn; lia). reflexivity. }
    destruct (shr_1_bits rn) as [Hr Hs].
    { rewrite Hrn. apply Z.shiftr_nonneg. lia. }
    rewrite Hr, Hs, IHr, IHs, Hrn. split; [|reflexivity].
    rewrite Z.shiftr_div_pow2 by lia.
    replace m with ((2 * q) * 2 ^ Z.of_nat n) by lia.
    rewrite Z.div_mul by lia. rewrite Z.odd_mul. reflexivity.
Qed.

(** When the bits that do not fit are all zero, rounding truncates. *)
Lemma binary_round_aux_exact s m e :
  0 < m ->
  let k1 := Z.max 0 (fexp prec emax (Zdigits2 m + e) - e) in
  m mod 2 ^ k1 = 0 ->
  let x := Z.shiftr m k1 in
  let e1 := e + k1 in
  let k2 := Z.max 0 (fexp prec emax (Zdigits2 x + e1) - e1) in
  binary_round_aux prec emax s m e loc_Exact = bra_result s (Z.shiftr x k2) (e1 + k2).
Proof.
  intros Hm k1 Hmod x e1 k2. unfold binary_round_aux, shr_fexp.
  cbn [shr_record_of_loc].
  set (r0 := Build_shr_record m false false).
  assert (Hr0 : 0 <= shr_m r0) by (cbn; lia).
  pose proof (shr_m_spec r0 e (fexp prec emax (Zdigits2 m + e) - e) Hr0) as [H1 H2].
  assert (Hbits : shr_r (fst (shr r0 e (fexp prec emax (Zdigits2 m + e) - e))) = false /\
                  shr_s (fst (shr r0 e (fexp prec emax (Zdigits2 m + e) - e))) = false).
  { unfold shr. unfold k1 in Hmod.
    destruct (fexp prec emax (Zdigits2 m + e) - e) as [|p|p] eqn:E; cbn [fst]; auto.
    rewrite iter_pos_nat. apply shr_iter_exact; [lia|].
    rewrite positive_nat_Z. replace (Z.max 0 (Z.pos p)) with (Z.pos p) in Hmod by lia.
    exact Hmod. }
  destruct (shr r0 e (fexp prec emax (Zdigits2 m + e) - e)) as [mrs' e'] eqn:E1.
  cbn [fst snd] in H1, H2, Hbits. cbn [shr_m r0] in H1.
  fold k1 in H1, H2. fold x in H1. fold e1 in H2. subst e'.
  destruct mrs' as [m' r' s']. cbn [shr_m shr_r shr_s] in *. destruct Hbits as [-> ->].
  cbn [loc_of_shr_record round_nearest_even]. subst m'.
  assert (Hx : 0 <= x) by (apply Z.shiftr_nonneg; lia).
  set (r1 := Build_shr_record x false false).
  assert (Hr1 : 0 <= shr_m r1) by (cbn; lia).
  pose proof (shr_m_spec r1 e1 (fexp prec emax (Zdigits2 x + e1) - e1) Hr1) as [H3 H4].
  destruct (shr r1 e1 (fexp prec emax (Zdigits2 x + e1) - e1)) as [mrs'' e''] eqn:E2.
  cbn [fst snd] in H3, H4. fold k2 in H3, H4. subst e''. rewrite H3. reflexivity.
Qed.

(** *** Powers of two *)

Lemma pow2_pos k : 0 <= k -> 0 < 2 ^ k.
Proof. intros. apply Z.pow_pos_nonneg; lia. Qed.

Lemma pow2_split a b : 0 <= a -> 0 <= b -> 2 ^ (a + b) = 2 ^ a * 2 ^ b.
Proof. intros. apply Z.pow_add_r; lia. Qed.

Lemma shiftr_sandwich p k :
  0 <= p -> 0 <= k ->
  Z.shiftr p k * 2 ^ k <= p < (Z.shiftr p k + 1) * 2 ^ k.
Proof.
  intros Hp Hk. rewrite Z.shiftr_div_pow2 by lia.
  pose proof (pow2_pos k Hk) as H2.
  pose proof (Z.div_mod p (2 ^ k) ltac:(lia)) as Hdm.
  pose proof (Z.mod_pos_bound p (2 ^ k) H2). nia.
Qed.

Lemma shiftr_exact_iff p k :
  0 <= p -> 0 <= k -> (p mod 2 ^ k = 0 <-> p = Z.shiftr p k * 2 ^ k).
Proof.
  intros Hp Hk. rewrite Z.shiftr_div_pow2 by lia.
  pose proof (pow2_pos k Hk) as H2.
  pose proof (Z.div_mod p (2 ^ k) ltac:(lia)) as Hdm. split; intros; nia.
Qed.

Lemma scaled_infinity_eq1 : scaled_infinity = 2 ^ 53 * 2 ^ 2045.
Proof. reflexivity. Qed.

Lemma scaled_infinity_eq2 : scaled_infinity = 2 ^ 52 * 2 ^ 2046.
Proof. reflexivity. Qed.

(** *** The value of a rounded number *)

(** The last normalisation step keeps the value, or overflows. *)
Lemma bra_result_value s a t x :
  -1074 <= t -> 0 <= x < 2 ^ 53 -> (t = -1074 \/ 2 ^ 52 <= x) ->
  (a = x \/ a = x + 1) ->
  let k2 := Z.max 0 (fexp prec emax (Zdigits2 a + t) - t) in
  let R := bra_result s (Z.shiftr a k2) (t + k2) in
  (R = S754_infinity s /\ scaled_infinity <= a * 2 ^ (t + 1074)) \/
  (R = S754_zero s /\ a = 0) \/
  (exists m e, R = S754_finite s m e /\
     Z.pos m * 2 ^ (e + 1074) = a * 2 ^ (t + 1074)).
Proof.
  intros Ht Hx Hn Ha. cbv zeta.
  destruct (Z.eq_dec a 0) as [->|Ha0].
  { right. left. split; [|reflexivity].
    change (Zdigits2 0) with 0. rewrite fexp64.
    replace (Z.max 0 (Z.max (0 + t - 53) (-1074) - t)) with 0 by lia.
    reflexivity. }
  assert (Hapos : 0 < a) by lia.
  rewrite (Zdigits2_pos a Hapos), fexp64.
  assert (Hl53 : Z.log2 a <= 53).
  { assert (Z.log2 a < 54); [|lia]. apply Z.log2_lt_pow2; [lia|].
    assert (2 ^ 53 < 2 ^ 54) by reflexivity. lia. }
  pose proof (pow2_pos (t + 1074) ltac:(lia)) as Hu.
  destruct (Z_le_gt_dec (Z.log2 a) 52) as [Hl|Hl].
  - replace (Z.max 0 (Z.max (Z.log2 a + 1 + t - 53) (-1074) - t)) with 0 by lia.
    rewrite Z.shiftr_0_r, Z.add_0_r.
    destruct a as [|q|q]; try lia. unfold bra_result.
    change (emax - prec) with 971.
    destruct (Z.leb_spec t 971) as [Hle|Hgt].
    + right. right. exists q, t. split; reflexivity.
    + left. split; [reflexivity|].
      destruct Hn as [Hn|Hn]; [lia|].
      assert (H2 : 2 ^ 2046 <= 2 ^ (t + 1074)) by (apply Z.pow_le_mono_r; lia).
      rewrite scaled_infinity_eq2.
      apply Z.mul_le_mono_nonneg; try lia.
  - assert (Ha53 : a = 2 ^ 53).
    { assert (2 ^ 53 <= a) by (apply Z.log2_le_pow2; lia). lia. }
    subst a. change (Z.log2 (2 ^ 53)) with 53.
    replace (Z.max 0 (Z.max (53 + 1 + t - 53) (-1074) - t)) with 1 by lia.
    change (Z.shiftr (2 ^ 53) 1) with (Z.pos 4503599627370496).
    unfold bra_result. change (emax - prec) with 971.
    destruct (Z.leb_spec (t + 1) 971) as [Hle|Hgt].
    + right. right. eexists _, _. split; [reflexivity|].
      replace (t + 1 + 1074) with (Z.succ (t + 1074)) by lia.
      rewrite Z.pow_succ_r by lia.
      change (2 ^ 53) with 9007199254740992. lia.
    + left. split; [reflexivity|].
      assert (H2 : 2 ^ 2045 <= 2 ^ (t + 1074)) by (apply Z.pow_le_mono_r; lia).
      rewrite scaled_infinity_eq1.
      apply Z.mul_le_mono_nonneg; try lia.
Qed.

(** The rounded value of [p * 2 ^ ez]: with [x] the mantissa truncated at
    the exponent [t] the format allows, it is [x] or [x + 1] at [t], and [x]
    when the truncation loses nothing. *)
Lemma binary_round_value s p ez :
  -1074 <= ez ->
  exists x t a,
    -1074 <= t /\ 0 <= x < 2 ^ 53 /\ (t = -1074 \/ 2 ^ 52 <= x) /\
    x * 2 ^ (t + 1074) <= Z.pos p * 2 ^ (ez + 1074) < (x + 1) * 2 ^ (t + 1074) /\
    (a = x \/ a = x + 1) /\
    (Z.pos p * 2 ^ (ez + 1074) = x * 2 ^ (t + 1074) -> a = x) /\
    ((binary_round prec emax s p ez = S754_infinity s /\ scaled_infinity <= a * 2 ^ (t + 1074)) \/
     (binary_round prec emax s p ez = S754_zero s /\ a = 0) \/
     (exists m e, binary_round prec emax s p ez = S754_finite s m e /\
        Z.pos m * 2 ^ (e + 1074) = a * 2 ^ (t + 1074))).
Proof.
  intros Hez. unfold binary_round.
  pose proof (shl_align_spec p ez (fexp prec emax (Z.pos (digits2_pos p) + ez))) as [H1 H2].
  destruct (shl_align p ez (fexp prec emax (Z.pos (digits2_pos p) + ez))) as [mz ez'].
  cbn [fst snd] in H1, H2. rewrite Zdigits2_log2, fexp64 in H1, H2.
  pose proof (Z.log2_nonneg (Z.pos p)) as HL.
  set (L := Z.log2 (Z.pos p)) in *.
  set (T0 := Z.max (L + 1 + ez - 53) (-1074)) in *.
  rewrite <- H1 in H2.
  assert (Hlz : Z.log2 (Z.pos mz) = L + (ez - ez')).
  { rewrite H2, log2_shl by lia. fold L. lia. }
  assert (Hez' : -1074 <= ez') by lia.
  set (k1 := T0 - ez').
  assert (Hk1 : 0 <= k1) by (unfold k1; lia).
  assert (Hk1e : Z.max 0 (fexp prec emax (Zdigits2 (Z.pos mz) + ez') - ez') = k1).
  { rewrite (Zdigits2_pos (Z.pos mz)), fexp64, Hlz by lia. unfold k1, T0. lia. }
  set (x := Z.shiftr (Z.pos mz) k1).
  pose proof (shiftr_sandwich (Z.pos mz) k1 ltac:(lia) Hk1) as Hsw. fold x in Hsw.
  assert (Hx0 : 0 <= x) by (apply Z.shiftr_nonneg; lia).
  assert (Hx53 : x < 2 ^ 53).
  { apply shiftr_lt_pow2; lia. }
  assert (Hnorm : T0 = -1074 \/ 2 ^ 52 <= x).
  { destruct (Z.eq_dec T0 (-1074)) as [?|Hne]; [now left|right].
    assert (Hkl : k1 <= Z.log2 (Z.pos mz)) by (rewrite Hlz; unfold k1, T0 in *; lia).
    destruct (shiftr_pos (Z.pos mz) k1 ltac:(lia) Hk1 Hkl) as [Hp Hl].
    fold x in Hp, Hl. apply Z.log2_le_pow2; [lia|].
    rewrite Hl, Hlz. unfold k1, T0 in *. lia. }
  pose proof (pow2_pos (ez' + 1074) ltac:(lia)) as Hc.
  pose proof (pow2_pos k1 Hk1) as Hpk.
  pose proof (pow2_pos (ez - ez') ltac:(lia)) as Hpe.
  assert (HP : Z.pos p * 2 ^ (ez + 1074) = Z.pos mz * 2 ^ (ez' + 1074)).
  { rewrite H2. replace (ez + 1074) with ((ez - ez') + (ez' + 1074)) by lia.
    rewrite (pow2_split (ez - ez') (ez' + 1074)) by lia. ring. }
  assert (HT : 2 ^ (T0 + 1074) = 2 ^ k1 * 2 ^ (ez' + 1074)).
  { rewrite <- pow2_split by lia. f_equal. unfold k1. lia. }
  assert (Hsand : x * 2 ^ (T0 + 1074) <= Z.pos p * 2 ^ (ez + 1074)
                  < (x + 1) * 2 ^ (T0 + 1074)).
  { rewrite HP, HT. set (c := 2 ^ (ez' + 1074)) in *. set (u := 2 ^ k1) in *.
    nia. }
  assert (Hmain : exists a, (a = x \/ a = x + 1) /\
            (Z.pos mz mod 2 ^ k1 = 0 -> a = x) /\
            binary_round_aux prec emax s (Z.pos mz) ez' loc_Exact =
            bra_result s (Z.shiftr a (Z.max 0 (fexp prec emax (Zdigits2 a + T0) - T0)))
                       (T0 + Z.max 0 (fexp prec emax (Zdigits2 a + T0) - T0))).
  { destruct (Z.eq_dec (Z.pos mz mod 2 ^ k1) 0) as [Hex|Hnex].
    - exists x. split; [now left|]. split; [reflexivity|].
      pose proof (binary_round_aux_exact s (Z.pos mz) ez' ltac:(lia)) as He.
      cbv zeta in He. rewrite Hk1e in He. specialize (He Hex).
      fold x in He. replace (ez' + k1) with T0 in He by (unfold k1; lia).
      exact He.
    - destruct (binary_round_aux_spec s (Z.pos mz) ez' loc_Exact ltac:(lia))
        as (x' & Hx' & _ & Hres).
      cbv zeta in Hres. rewrite Hk1e in Hres, Hx'. fold x in Hres, Hx'.
      replace (ez' + k1) with T0 in Hres by (unfold k1; lia).
      exists x'. split; [lia|]. split; [intros; contradiction|exact Hres]. }
  destruct Hmain as (a & Ha & Hexact & Hres).
  exists x, T0, a.
  split; [unfold T0; lia|]. split; [lia|]. split; [exact Hnorm|].
  split; [exact Hsand|]. split; [exact Ha|]. split.
  { intros Heq. apply Hexact.
    apply (shiftr_exact_iff (Z.pos mz) k1); try lia. fold x.
    rewrite HP, HT in Heq. set (c := 2 ^ (ez' + 1074)) in *. set (u := 2 ^ k1) in *.
    nia. }
  rewrite Hres.
  apply (bra_result_value s a T0 x); try assumption; lia.
Qed.

Lemma grid_le_infinity M E : 0 <= M <= 2 ^ 53 -> -1074 <= E <= 971 -> grid M E <= scaled_infinity.
Proof.
  intros HM HE. unfold grid. rewrite scaled_infinity_eq1.
  assert (0 < 2 ^ (E + 1074)) by (apply pow2_pos; lia).
  assert (2 ^ (E + 1074) <= 2 ^ 2045) by (apply Z.pow_le_mono_r; lia).
  apply Z.mul_le_mono_nonneg; lia.
Qed.

Lemma grid_lt_infinity M E : 0 <= M < 2 ^ 53 -> -1074 <= E <= 971 -> grid M E < scaled_infinity.
Proof.
  intros HM HE. unfold grid. rewrite scaled_infinity_eq1.
  assert (0 < 2 ^ (E + 1074)) by (apply pow2_pos; lia).
  assert (2 ^ (E + 1074) <= 2 ^ 2045) by (apply Z.pow_le_mono_r; lia).
  assert (0 < 2 ^ 2045) by (apply pow2_pos; lia).
  set (u := 2 ^ (E + 1074)) in *. set (v := 2 ^ 2045) in *. nia.
Qed.

(** Rounding is monotone with respect to the grid: a grid point below the
    exact value64 stays below the rounded one, and a grid point above stays
    above. *)
Lemma binary_round_scaled s p ez :
  -1074 <= ez ->
  exists Y, scaled (binary_round prec emax s p ez) = cond_Zopp s Y /\
    0 <= Y /\
    (forall M E, -1074 <= E <= 971 -> 0 <= M <= 2 ^ 53 ->
       grid M E <= grid (Z.pos p) ez -> grid M E <= Y) /\
    (forall M E, -1074 <= E <= 971 -> 0 <= M < 2 ^ 53 ->
       grid (Z.pos p) ez <= grid M E -> Y <= grid M E).
Proof.
  intros Hez.
  destruct (binary_round_value s p ez Hez)
    as (x & t & a & Ht & Hx & Hn & Hsand & Ha & Hexact & Hres).
  pose proof (pow2_pos (t + 1074) ltac:(lia)) as Hu.
  assert (Hlow : forall M E, -1074 <= E <= 971 -> 0 <= M <= 2 ^ 53 ->
            grid M E <= grid (Z.pos p) ez -> grid M E <= a * 2 ^ (t + 1074)).
  { intros M E HE HM Hle. unfold grid in *.
    destruct (Z_le_gt_dec t E) as [HtE|HtE].
    - replace (E + 1074) with ((E - t) + (t + 1074)) in * by lia.
      rewrite (pow2_split (E - t) (t + 1074)) in * by lia.
      pose proof (pow2_pos (E - t) ltac:(lia)) as Hv.
      set (u := 2 ^ (t + 1074)) in *. set (v := 2 ^ (E - t)) in *.
      assert (M * v <= x) by nia. nia.
    - destruct Hn as [Hn|Hn]; [lia|].
      replace (t + 1074) with ((t - E - 1) + 1 + (E + 1074)) in * by lia.
      rewrite (pow2_split (t - E - 1 + 1) (E + 1074)) in * by lia.
      rewrite (pow2_split (t - E - 1) 1) in * by lia.
      change (2 ^ 1) with 2 in *. change (2 ^ 53) with (2 ^ 52 * 2) in *.
      pose proof (pow2_pos (E + 1074) ltac:(lia)) as Hu'.
      pose proof (pow2_pos (t - E - 1) ltac:(lia)) as Hv.
      set (u := 2 ^ (E + 1074)) in *. set (v := 2 ^ (t - E - 1)) in *.
      set (h := 2 ^ 52) in *.
      assert (M * u <= h * 2 * u) by nia.
      assert (h * 2 * u <= a * (v * 2) * u); [|nia].
      assert (h <= a * v) by nia. nia. }
  assert (Hupp : forall M E, -1074 <= E <= 971 -> 0 <= M < 2 ^ 53 ->
            grid (Z.pos p) ez <= grid M E -> a * 2 ^ (t + 1074) <= grid M E).
  { intros M E HE HM Hle. unfold grid in *.
    destruct (Z_le_gt_dec t E) as [HtE|HtE].
    - replace (E + 1074) with ((E - t) + (t + 1074)) in * by lia.
      rewrite (pow2_split (E - t) (t + 1074)) in * by lia.
      pose proof (pow2_pos (E - t) ltac:(lia)) as Hv.
      set (u := 2 ^ (t + 1074)) in *. set (v := 2 ^ (E - t)) in *.
      assert (Hxm : x <= M * v) by nia.
      destruct (Z.eq_dec x (M * v)) as [Heq|Hne].
      + assert (a = x); [|nia]. apply Hexact. nia.
      + assert (a <= M * v) by lia. nia.
    - destruct Hn as [Hn|Hn]; [lia|]. exfalso.
      replace (t + 1074) with ((t - E - 1) + 1 + (E + 1074)) in * by lia.
      rewrite (pow2_split (t - E - 1 + 1) (E + 1074)) in * by lia.
      rewrite (pow2_split (t - E - 1) 1) in * by lia.
      change (2 ^ 1) with 2 in *. change (2 ^ 53) with (2 ^ 52 * 2) in *.
      pose proof (pow2_pos (E + 1074) ltac:(lia)) as Hu'.
      pose proof (pow2_pos (t - E - 1) ltac:(lia)) as Hv.
      set (u := 2 ^ (E + 1074)) in *. set (v := 2 ^ (t - E - 1)) in *.
      set (h := 2 ^ 52) in *.
      assert (x * (v * 2) <= M) by nia.
      assert (h <= x * v) by nia. nia. }
  assert (Ha0 : 0 <= a) by lia.
  destruct Hres as [[Hr Htop]|[[Hr Hz]|(m & e & Hr & Hv)]]; rewrite Hr; cbn [scaled].
  - exists scaled_infinity. split; [reflexivity|]. split; [unfold scaled_infinity; lia|]. split.
    + intros M E HE HM _. now apply grid_le_infinity.
    + intros M E HE HM Hle. exfalso.
      pose proof (Hupp M E HE HM Hle). pose proof (grid_lt_infinity M E HM HE). lia.
  - exists 0. split; [now destruct s|]. split; [lia|]. split.
    + intros M E HE HM Hle. specialize (Hlow M E HE HM Hle). subst a. lia.
    + intros M E HE HM Hle. unfold grid.
      pose proof (pow2_pos (E + 1074) ltac:(lia)). nia.
  - exists (a * 2 ^ (t + 1074)). split; [now rewrite Hv|]. split; [nia|].
    split; assumption.
Qed.

(** The same for a signed integer mantissa, from below ... *)
Lemma binary_normalize_ge z ez sgn M E :
  -1074 <= ez -> -1074 <= E <= 971 -> 0 <= M ->
  (if sgn : bool then M < 2 ^ 53 else M <= 2 ^ 53) ->
  cond_Zopp sgn (grid M E) <= grid z ez ->
  cond_Zopp sgn (grid M E) <= scaled (binary_normalize prec emax z ez false).
Proof.
  intros Hez HE HM Hs Hle.
  pose proof (pow2_pos (E + 1074) ltac:(lia)) as Hu.
  pose proof (pow2_pos (ez + 1074) ltac:(lia)) as Hv.
  assert (Hg : 0 <= grid M E) by (unfold grid; nia).
  destruct z as [|p|p]; cbn [binary_normalize].
  - unfold grid in Hle at 2. cbn [scaled]. lia.
  - destruct (binary_round_scaled false p ez Hez) as (Y & -> & HY & Hlow & _).
    cbn [cond_Zopp]. destruct sgn; cbn [cond_Zopp] in *; [lia|].
    apply Hlow; [lia|lia|exact Hle].
  - destruct (binary_round_scaled true p ez Hez) as (Y & -> & HY & _ & Hupp).
    cbn [cond_Zopp].
    assert (Hneg : grid (Z.neg p) ez = - grid (Z.pos p) ez).
    { unfold grid. rewrite <- Pos2Z.opp_pos. ring. }
    assert (0 < grid (Z.pos p) ez) by (unfold grid; nia).
    destruct sgn; cbn [cond_Zopp] in *; [|lia].
    assert (Y <= grid M E); [|lia]. apply Hupp; lia.
Qed.

(** ... and from above. *)
Lemma binary_normalize_le z ez sgn M E :
  -1074 <= ez -> -1074 <= E <= 971 -> 0 <= M ->
  (if sgn : bool then M <= 2 ^ 53 else M < 2 ^ 53) ->
  grid z ez <= cond_Zopp sgn (grid M E) ->
  scaled (binary_normalize prec emax z ez false) <= cond_Zopp sgn (grid M E).
Proof.
  intros Hez HE HM Hs Hle.
  pose proof (pow2_pos (E + 1074) ltac:(lia)) as Hu.
  pose proof (pow2_pos (ez + 1074) ltac:(lia)) as Hv.
  assert (Hg : 0 <= grid M E) by (unfold grid; nia).
  destruct z as [|p|p]; cbn [binary_normalize].
  - unfold grid in Hle at 1. cbn [scaled]. lia.
  - destruct (binary_round_scaled false p ez Hez) as (Y & -> & HY & _ & Hupp).
    cbn [cond_Zopp].
    assert (0 < grid (Z.pos p) ez) by (unfold grid; nia).
    destruct sgn; cbn [cond_Zopp] in *; [lia|].
    apply Hupp; lia.
  - destruct (binary_round_scaled true p ez Hez) as (Y & -> & HY & Hlow & _).
    cbn [cond_Zopp].
    assert (Hneg : grid (Z.neg p) ez = - grid (Z.pos p) ez).
    { unfold grid. rewrite <- Pos2Z.opp_pos. ring. }
    destruct sgn; cbn [cond_Zopp] in *; [|lia].
    assert (grid M E <= Y); [|lia]. apply Hlow; lia.
Qed.

Lemma scaled_aligned s mx ex ey :
  -1074 <= ex -> -1074 <= ey ->
  scaled (S754_finite s mx ex) =
  grid (cond_Zopp s (Z.pos (fst (shl_align mx ex (Z.min ex ey))))) (Z.min ex ey).
Proof.
  intros Hx Hy. rewrite aligned. unfold grid. cbn [scaled].
  replace (ex + 1074) with ((ex - Z.min ex ey) + (Z.min ex ey + 1074)) by lia.
  rewrite (pow2_split (ex - Z.min ex ey) (Z.min ex ey + 1074)) by lia.
  destruct s; cbn [cond_Zopp]; ring.
Qed.

(** A grid point below the exact sum is below the computed sum. *)
Lemma SFadd_ge sx mx ex sy my ey sgn M E :
  -1074 <= ex -> -1074 <= ey -> -1074 <= E <= 971 -> 0 <= M ->
  (if sgn : bool then M < 2 ^ 53 else M <= 2 ^ 53) ->
  cond_Zopp sgn (grid M E)
    <= scaled (S754_finite sx mx ex) + scaled (S754_finite sy my ey) ->
  cond_Zopp sgn (grid M E)
    <= scaled (SFadd prec emax (S754_finite sx mx ex) (S754_finite sy my ey)).
Proof.
  intros Hx Hy HE HM Hs Hle. cbn [SFadd].
  apply binary_normalize_ge; try assumption; [lia|].
  rewrite (scaled_aligned sx mx ex ey), (scaled_aligned sy my ey ex) in Hle by assumption.
  rewrite (Z.min_comm ey ex) in Hle. unfold grid in *. lia.
Qed.

(** A grid point above the exact difference is above the computed one. *)
Lemma SFsub_le sx mx ex sy my ey sgn M E :
  -1074 <= ex -> -1074 <= ey -> -1074 <= E <= 971 -> 0 <= M ->
  (if sgn : bool then M <= 2 ^ 53 else M < 2 ^ 53) ->
  scaled (S754_finite sx mx ex) - scaled (S754_finite sy my ey)
    <= cond_Zopp sgn (grid M E) ->
  scaled (SFsub prec emax (S754_finite sx mx ex) (S754_finite sy my ey))
    <= cond_Zopp sgn (grid M E).
Proof.
  intros Hx Hy HE HM Hs Hle. cbn [SFsub].
  apply binary_normalize_le; try assumption; [lia|].
  rewrite (scaled_aligned sx mx ex ey), (scaled_aligned sy my ey ex) in Hle by assumption.
  rewrite (Z.min_comm ey ex) in Hle. unfold grid in *. lia.
Qed.

Lemma value64_bound x : - scaled_infinity <= value64 x <= scaled_infinity.
Proof.
  unfold value64. assert (0 < scaled_infinity) by reflexivity.
  destruct (Prim2SF x) as [s|s| |s m e] eqn:E; cbn [scaled]; try lia.
  - destruct s; cbn [cond_Zopp]; lia.
  - pose proof (valid_finite x s m e E) as (He & Hm%pos_lt_pow2 & _).
    pose proof (grid_lt_infinity (Z.pos m) e ltac:(lia) He) as Hg. unfold grid in Hg.
    pose proof (pow2_pos (e + 1074) ltac:(lia)).
    assert (0 < Z.pos m * 2 ^ (e + 1074)) by (apply Z.mul_pos_pos; lia).
    set (P := Z.pos m * 2 ^ (e + 1074)) in *.
    destruct s; cbn [cond_Zopp]; lia.
Qed.

Lemma grid_ge_pow m e E :
  -1074 <= e -> -1074 <= E -> E <= Z.log2 (Z.pos m) + e ->
  grid 1 E <= grid (Z.pos m) e.
Proof.
  intros He HE Hle. unfold grid.
  pose proof (Z.log2_spec (Z.pos m) ltac:(lia)) as [Hl _].
  pose proof (Z.log2_nonneg (Z.pos m)) as Hn.
  pose proof (pow2_pos (e + 1074) ltac:(lia)) as Hu.
  assert (2 ^ (E + 1074) <= 2 ^ (Z.log2 (Z.pos m) + (e + 1074)))
    by (apply Z.pow_le_mono_r; lia).
  rewrite (pow2_split (Z.log2 (Z.pos m)) (e + 1074)) in H by lia.
  set (a := 2 ^ Z.log2 (Z.pos m)) in *. set (u := 2 ^ (e + 1074)) in *.
  assert (a * u <= Z.pos m * u) by (apply Z.mul_le_mono_nonneg_r; lia). lia.
Qed.

(** [Math.min(Infinity, b)] is [b]. *)
Lemma js_min_inf a b s m e :
  Prim2SF a = S754_infinity false -> Prim2SF b = S754_finite s m e ->
  js_min a b = b.
Proof.
  intros Ha Hb. unfold js_min.
  assert (Hna : PrimFloat.is_nan a = false) by (apply is_nan_false; rewrite Ha; discriminate).
  assert (Hnb : PrimFloat.is_nan b = false) by (apply is_nan_false; rewrite Hb; discriminate).
  rewrite Hna, Hnb. cbn [orb].
  rewrite !ltb_spec, Ha, Hb. unfold SFltb, SFcompare. now destruct s.
Qed.

(** *** One iteration moves the two working amounts apart *)

(** Adding a positive amount never lowers a number, and raises it when the
    amount is at least one unit in its last place. *)
Lemma add_grows sx mx ex a :
  -1074 <= ex <= 971 -> Z.pos mx < 2 ^ 53 ->
  (a = S754_infinity false \/
   exists ma ea, a = S754_finite false ma ea /\ -1074 <= ea) ->
  let x := S754_finite sx mx ex in
  scaled x <= scaled (SFadd prec emax x a) /\
  (a = S754_infinity false \/
   (exists ma ea, a = S754_finite false ma ea /\ grid 1 ex <= grid (Z.pos ma) ea) ->
   scaled x < scaled (SFadd prec emax x a)).
Proof.
  intros Hex Hmx Ha x.
  pose proof (grid_lt_infinity (Z.pos mx) ex ltac:(lia) Hex) as Hlt.
  pose proof (pow2_pos (ex + 1074) ltac:(lia)) as Hu.
  assert (Hxv : scaled x = cond_Zopp sx (grid (Z.pos mx) ex)) by reflexivity.
  assert (Hgx : 0 < grid (Z.pos mx) ex) by (unfold grid; nia).
  destruct Ha as [->|(ma & ea & -> & Hea)].
  { assert (Hs : scaled (SFadd prec emax x (S754_infinity false)) = scaled_infinity) by reflexivity.
    rewrite Hs, Hxv. destruct sx; cbn [cond_Zopp]; split; intros; lia. }
  pose proof (pow2_pos (ea + 1074) ltac:(lia)) as Hv.
  assert (Hga : 0 < scaled (S754_finite false ma ea)) by (cbn [scaled cond_Zopp]; nia).
  split.
  - rewrite Hxv at 1.
    apply SFadd_ge; try lia.
    + now destruct sx; lia.
    + fold x. rewrite Hxv. lia.
  - intros [Hinf|(ma' & ea' & [= <- <-] & Hg)]; [discriminate|].
    assert (Hav : scaled (S754_finite false ma ea) = grid (Z.pos ma) ea) by reflexivity.
    assert (Hg1 : grid 1 ex = 2 ^ (ex + 1074)) by (unfold grid; lia).
    destruct sx.
    + assert (Hge : cond_Zopp true (grid (Z.pos mx - 1) ex)
                    <= scaled (SFadd prec emax x (S754_finite false ma ea))).
      { apply SFadd_ge; try lia. fold x. rewrite Hxv, Hav.
        cbn [cond_Zopp]. unfold grid in *. nia. }
      rewrite Hxv. cbn [cond_Zopp] in *. unfold grid in *. nia.
    + assert (Hge : cond_Zopp false (grid (Z.pos mx + 1) ex)
                    <= scaled (SFadd prec emax x (S754_finite false ma ea))).
      { apply SFadd_ge; try lia. fold x. rewrite Hxv, Hav.
        cbn [cond_Zopp]. unfold grid in *. nia. }
      rewrite Hxv. cbn [cond_Zopp] in *. unfold grid in *. nia.
Qed.

(** Subtracting a positive amount never raises a positive number, and
    lowers it when the amount is at least one unit in its last place. *)
Lemma sub_shrinks mx ex a :
  -1074 <= ex <= 971 -> Z.pos mx < 2 ^ 53 ->
  (a = S754_infinity false \/
   exists ma ea, a = S754_finite false ma ea /\ -1074 <= ea) ->
  let x := S754_finite false mx ex in
  scaled (SFsub prec emax x a) <= scaled x /\
  (a = S754_infinity false \/
   (exists ma ea, a = S754_finite false ma ea /\ grid 1 ex <= grid (Z.pos ma) ea) ->
   scaled (SFsub prec emax x a) < scaled x).
Proof.
  intros Hex Hmx Ha x.
  pose proof (grid_lt_infinity (Z.pos mx) ex ltac:(lia) Hex) as Hlt.
  pose proof (pow2_pos (ex + 1074) ltac:(lia)) as Hu.
  assert (Hxv : scaled x = grid (Z.pos mx) ex) by reflexivity.
  assert (Hgx : 0 < grid (Z.pos mx) ex) by (unfold grid; nia).
  assert (Htop : 0 < scaled_infinity) by reflexivity.
  destruct Ha as [->|(ma & ea & -> & Hea)].
  { assert (Hs : scaled (SFsub prec emax x (S754_infinity false)) = - scaled_infinity) by reflexivity.
    rewrite Hs, Hxv. split; intros; lia. }
  pose proof (pow2_pos (ea + 1074) ltac:(lia)) as Hv.
  assert (Hav : scaled (S754_finite false ma ea) = grid (Z.pos ma) ea) by reflexivity.
  assert (Hga : 0 < grid (Z.pos ma) ea) by (unfold grid; nia).
  split.
  - rewrite Hxv.
    apply (SFsub_le false mx ex false ma ea false (Z.pos mx) ex); try lia.
    fold x. rewrite Hxv, Hav. cbn [cond_Zopp]. lia.
  - intros [Hinf|(ma' & ea' & [= <- <-] & Hg)]; [discriminate|].
    assert (Hg1 : grid 1 ex = 2 ^ (ex + 1074)) by (unfold grid; lia).
    assert (Hle : scaled (SFsub prec emax x (S754_finite false ma ea))
                  <= cond_Zopp false (grid (Z.pos mx - 1) ex)).
    { apply SFsub_le; try lia. fold x. rewrite Hxv, Hav.
      cbn [cond_Zopp]. unfold grid in *. nia. }
    rewrite Hxv. cbn [cond_Zopp] in *. unfold grid in *. nia.
Qed.

Lemma normal_of_mag x s m e :
  Prim2SF x = S754_finite s m e -> -6 <= mag m e ->
  -1074 <= e <= 971 /\ Z.pos m < 2 ^ 53 /\ Z.log2 (Z.pos m) = 52.
Proof.
  intros Hx Hmag. pose proof (valid_finite x s m e Hx) as (He & Hm & Hc).
  split; [exact He|]. split; [now apply pos_lt_pow2|].
  unfold mag in Hmag. lia.
Qed.

(** The transfer is at least a quarter of the smaller of the two amounts,
    so it moves that one; the other one does not move the wrong way. *)
Lemma transfer_progress (d c : float) :
  debtor_ok (Prim2SF d) -> within_cent d = false ->
  creditor_ok (Prim2SF c) -> num_lt c num_cent = false ->
  let amt := round2 (js_min (PrimFloat.abs d) c) in
  value64 d <= value64 (d + amt) /\ value64 (c - amt) <= value64 c /\
  (value64 d < value64 (d + amt) \/ value64 (c - amt) < value64 c).
Proof.
  intros [Hdn Hdi] Hdw [Hcn Hci] Hcl amt.
  assert (Han : Prim2SF (PrimFloat.abs d) <> S754_nan).
  { rewrite abs_spec. now destruct (Prim2SF d). }
  unfold within_cent in Hdw. cbn [num_lt num_abs num_cent number] in Hdw, Hcl.
  rewrite ltb_spec in Hdw, Hcl.
  change (Prim2SF 0x1.47ae147ae147bp-7) with cent64 in Hdw, Hcl.
  pose proof (ge_cent _ Han Hdw) as Hda.
  pose proof (ge_cent _ Hcn Hcl) as Hca.
  destruct Hca as [Hca|(mc & ec & Ec & Hmc)]; [contradiction|].
  destruct (normal_of_mag c _ _ _ Ec Hmc) as (Hec & Hmc53 & Hlc).
  (* the smaller of the two amounts *)
  assert (Hmin : exists mm em,
            Prim2SF (js_min (PrimFloat.abs d) c) = S754_finite false mm em /\
            -6 <= mag mm em /\ Z.log2 (Z.pos mm) = 52 /\
            ((exists sd, Prim2SF d = S754_finite sd mm em) \/
             (mm = mc /\ em = ec))).
  { destruct Hda as [Hinf|(md & ed & Ed & Hmd)].
    - rewrite (js_min_inf _ c false mc ec Hinf Ec).
      exists mc, ec. split; [exact Ec|]. split; [exact Hmc|]. split; [exact Hlc|].
      right. now split.
    - destruct (js_min_cases _ _ Han Hcn) as [-> | ->].
      + destruct (normal_of_mag _ _ _ _ Ed Hmd) as (_ & _ & Hld).
        exists md, ed. split; [exact Ed|]. split; [exact Hmd|]. split; [exact Hld|].
        left. rewrite abs_spec in Ed.
        destruct (Prim2SF d) as [s|s| |s m e]; try discriminate.
        exists s. cbn in Ed. congruence.
      + exists mc, ec. split; [exact Ec|]. split; [exact Hmc|]. split; [exact Hlc|].
        right. now split. }
  destruct Hmin as (mm & em & Em & Hmm & Hlm & Hwhich).
  assert (Hamt : pos_ge (mag mm em - 1) (Prim2SF amt)).
  { apply round2_mag; [exact Hmm|]. right. exists mm, em. split; [exact Em|lia]. }
  assert (Hshape : Prim2SF amt = S754_infinity false \/
            exists ma ea, Prim2SF amt = S754_finite false ma ea /\ -1074 <= ea).
  { destruct Hamt as [?|(ma & ea & Ea & _)]; [now left|right].
    exists ma, ea. split; [exact Ea|].
    pose proof (valid_finite amt _ _ _ Ea). lia. }
  assert (Hbig : Prim2SF amt = S754_infinity false \/
            exists ma ea, Prim2SF amt = S754_finite false ma ea /\
                          grid 1 em <= grid (Z.pos ma) ea).
  { destruct Hamt as [?|(ma & ea & Ea & Hma)]; [now left|right].
    exists ma, ea. split; [exact Ea|].
    pose proof (valid_finite amt _ _ _ Ea) as (Hea & _).
    destruct (valid_finite _ _ _ _ Em) as (Hem & _).
    apply grid_ge_pow; unfold mag in *; lia. }
  unfold value64. rewrite FloatAxioms.add_spec, FloatAxioms.sub_spec.
  unfold SF64add, SF64sub. rewrite Ec.
  destruct (sub_shrinks mc ec (Prim2SF amt) Hec Hmc53 Hshape) as [Hcm Hcs].
  cbv zeta in Hcm, Hcs.
  destruct (Prim2SF d) as [sd|sd| |sd md ed] eqn:Ed; try easy.
  - (* a debtor's amount is not zero *)
    exfalso. rewrite abs_spec, Ed in Hda.
    destruct Hda as [Hda|(? & ? & Hda & _)]; discriminate.
  - (* the debtor is at +infinity *)
    destruct sd; [easy|].
    assert (Hadd : SFadd prec emax (S754_infinity false) (Prim2SF amt)
                   = S754_infinity false).
    { destruct Hshape as [->|(ma & ea & -> & _)]; reflexivity. }
    rewrite Hadd. split; [lia|]. split; [exact Hcm|]. right.
    apply Hcs.
    destruct Hwhich as [[sd Hd]|[-> ->]]; [discriminate|exact Hbig].
  - pose proof (valid_finite d _ _ _ Ed) as (Hed & Hmd%pos_lt_pow2 & _).
    destruct (add_grows sd md ed (Prim2SF amt) Hed Hmd Hshape) as [Hdm Hds].
    cbv zeta in Hdm, Hds.
    split; [exact Hdm|]. split; [exact Hcm|].
    destruct Hwhich as [[sd' [= -> -> ->]]|[-> ->]].
    + left. apply Hds, Hbig.
    + right. apply Hcs, Hbig.
Qed.

(** *** The measure decreases *)

Lemma head_value_bound l k : - scaled_infinity <= head_value l k <= scaled_infinity.
Proof.
  unfold head_value. destruct (l !! k); [apply value64_bound|].
  assert (0 < scaled_infinity) by reflexivity. lia.
Qed.

Lemma loop_measure_nonneg st : 0 <= loop_measure st.
Proof.
  unfold loop_measure, gap.
  pose proof (head_value_bound (creditors st) (j st)).
  pose proof (head_value_bound (debtors st) (i st)).
  assert (0 < scaled_infinity) by reflexivity.
  assert (0 <= Z.of_nat (remaining st) * (4 * scaled_infinity + 1)) by nia. lia.
Qed.

(** Every iteration lowers the measure. *)
Lemma binary64_progress (st st' : State float) :
  binary64_invariant st -> cond st = true -> body st = Some st' ->
  loop_measure st' < loop_measure st.
Proof.
  intros [Id Ic] Hcond Hb.
  destruct (body_Some _ _ Hb) as (d & c & Hd & Hc & _ & Hds & Hcs & _ & Hi & Hj).
  destruct (Id _ _ (le_n _) Hd) as [Hdok Hdw].
  destruct (Ic _ _ (le_n _) Hc) as [Hcok Hcl].
  pose proof (transfer_progress (amount d) (amount c) Hdok Hdw Hcok Hcl)
    as (Hdm & Hcm & Hstrict).
  cbv zeta in Hdm, Hcm, Hstrict, Hds, Hcs, Hi, Hj. cbn [amount] in Hi, Hj.
  apply cond_true in Hcond as [Hci Hcj].
  destruct (body_lengths _ _ Hb) as [Hl1 Hl2].
  pose proof (head_value_bound (creditors st') (j st')) as Hb1.
  pose proof (head_value_bound (debtors st') (i st')) as Hb2.
  pose proof (head_value_bound (creditors st) (j st)) as Hb3.
  pose proof (head_value_bound (debtors st) (i st)) as Hb4.
  assert (Htop : 0 < scaled_infinity) by reflexivity.
  unfold loop_measure, remaining, gap in *. rewrite Hl1, Hl2.
  set (B := 4 * scaled_infinity + 1).
  destruct (decide (i st' = i st /\ j st' = j st)) as [[Ei Ej]|Hne].
  - rewrite Ei, Ej.
    assert (Hvd : head_value (debtors st) (i st) = value64 (amount d))
      by (unfold head_value; now rewrite Hd).
    assert (Hvc : head_value (creditors st) (j st) = value64 (amount c))
      by (unfold head_value; now rewrite Hc).
    assert (Hvd' : head_value (debtors st') (i st)
                   = value64 (amount d + transfer d c)).
    { unfold head_value. rewrite Hds, list_lookup_insert_eq by assumption.
      reflexivity. }
    assert (Hvc' : head_value (creditors st') (j st)
                   = value64 (amount c - transfer d c)).
    { unfold head_value. rewrite Hcs, list_lookup_insert_eq by assumption.
      reflexivity. }
    rewrite Hvd, Hvc, Hvd', Hvc'. unfold transfer. cbn [num_min num_abs number].
    lia.
  - assert (Hrem : (Z.of_nat (length (debtors st) - i st' + (length (creditors st) - j st')) + 1
                    <= Z.of_nat (length (debtors st) - i st + (length (creditors st) - j st)))%Z).
    { destruct (within_cent _); destruct (num_lt _ num_cent); lia. }
    set (R' := Z.of_nat (length (debtors st) - i st' + (length (creditors st) - j st'))) in *.
    set (R := Z.of_nat (length (debtors st) - i st + (length (creditors st) - j st))) in *.
    assert (HB : B = 4 * scaled_infinity + 1) by reflexivity. clearbody B.
    assert ((R' + 1) * B <= R * B) by (apply Z.mul_le_mono_nonneg_r; lia).
    lia.
Qed.

(** From every state that satisfies the invariant the loop returns. *)
Lemma binary64_terminates_from (st : State float) :
  binary64_invariant st -> exists fuel st', while fuel st = Returned st'.
Proof.
  assert (H : forall n st, (Z.to_nat (loop_measure st) < n)%nat -> binary64_invariant st ->
            exists fuel st', while fuel st = Returned st').
  { induction n as [|n IH]; intros st0 Hn Hinv; [lia|].
    destruct (cond st0) eqn:Hc.
    - destruct (body_defined st0 Hc) as [st1 Hb].
      destruct (binary64_step _ _ Hinv Hb) as [Hinv1 _].
      pose proof (binary64_progress _ _ Hinv Hc Hb) as Hlt.
      pose proof (loop_measure_nonneg st1).
      destruct (IH st1 ltac:(lia) Hinv1) as (fuel & st' & Hw).
      exists (S fuel), st'. rewrite while_unfold, Hc, Hb. exact Hw.
    - exists O, st0. rewrite while_unfold, Hc. reflexivity. }
  intros Hinv. apply (H (S (Z.to_nat (loop_measure st)))); [lia|exact Hinv].
Qed.

(** On every mapping of finite amounts the loop returns, with any fuel from
    some point on. *)
Lemma binary64_terminates (bal : list (string * float)) :
  Forall (fun kv => PrimFloat.is_finite kv.2 = true) bal ->
  exists fuel st, forall k, while (fuel + k) (init bal) = Returned st.
Proof.
  intros Hfin.
  destruct (binary64_terminates_from (init bal)) as (fuel & st & Hw).
  { now apply binary64_invariant_init. }
  exists fuel, st. intros k. now apply while_more_fuel.
Qed.

End Binary64Termination.

(** * What a run that returns guarantees, for every lawful number system *)

Section Results.
Context {num : Type} `{NumberLaws num}.

Implicit Types (bal : list (string * num)) (st : State num).

(** The result does not depend on the fuel. *)
Lemma while_fuel_irrelevant f1 f2 st a b :
  while f1 st = Returned a -> while f2 st = Returned b -> a = b.
Proof.
  intros Ha%(while_more_fuel _ f2) Hb%(while_more_fuel _ f1).
  rewrite (Nat.add_comm f2 f1) in Hb. congruence.
Qed.

Lemma simplifyDebts_Returned fuel bal l :
  simplifyDebts fuel bal = Returned l ->
  exists st, while fuel (init bal) = Returned st /\ settlements st = l
             /\ Reachable bal st /\ cond st = false.
Proof.
  unfold simplifyDebts. destruct (while fuel (init bal)) as [st| |] eqn:Hw;
    [|done..].
  intros [= <-]. exists st. repeat split; try done;
    by eapply (while_reachable bal fuel (init bal)); [apply reach_init|].
Qed.

Lemma simplifyDebts_fuel_irrelevant f1 f2 bal l1 l2 :
  simplifyDebts f1 bal = Returned l1 -> simplifyDebts f2 bal = Returned l2 ->
  l1 = l2.
Proof.
  intros (s1 & H1 & <- & _)%simplifyDebts_Returned
         (s2 & H2 & <- & _)%simplifyDebts_Returned.
  by rewrite (while_fuel_irrelevant _ _ _ _ _ H1 H2).
Qed.

Lemma simplifyDebts_not_Threw fuel bal : simplifyDebts fuel bal <> Threw.
Proof.
  unfold simplifyDebts. pose proof (while_not_Threw fuel (init bal)).
  by destruct (while fuel (init bal)).
Qed.

End Results.

(** * The caller: the handler of [GET /api/trips/:id/settle] *)

(** ** Objects *)

Section ObjectFacts.
Context {V : Type}.

Implicit Types (o : list (string * V)) (k : string) (v : V).

Lemma obj_get_set_eq o k v : obj_get (obj_set o k v) k = Some v.
Proof.
  induction o as [|[k' v'] o IH]; simpl.
  - by rewrite decide_True.
  - destruct (decide (k = k')) as [->|Hne]; simpl.
    + by rewrite decide_True.
    + by rewrite decide_False.
Qed.

Lemma obj_get_set_ne o k k' v :
  k <> k' -> obj_get (obj_set o k v) k' = obj_get o k'.
Proof.
  intros Hne. induction o as [|[k0 v0] o IH]; simpl.
  - by rewrite decide_False.
  - destruct (decide (k = k0)) as [->|Hk]; simpl.
    + by rewrite !decide_False.
    + by rewrite IH.
Qed.

Lemma obj_get_Some o k v : obj_get o k = Some v -> (k, v) ∈ o.
Proof.
  induction o as [|[k' v'] o IH]; simpl; [done|].
  destruct (decide (k = k')) as [->|Hne].
  - intros [= ->]. by left.
  - intros Hg. right. by apply IH.
Qed.

Lemma obj_get_None o k : obj_get o k = None <-> k ∉ o.*1.
Proof.
  induction o as [|[k' v'] o IH]; simpl.
  - split; [intros _ ?%elem_of_nil|]; done.
  - rewrite not_elem_of_cons. destruct (decide (k = k')) as [->|Hne].
    + split; [done|]. by intros [? _].
    + rewrite IH. split; [done|]. by intros [_ ?].
Qed.

Lemma obj_get_is_Some o k : is_Some (obj_get o k) <-> k ∈ o.*1.
Proof.
  rewrite <- not_eq_None_Some, obj_get_None.
  destruct (decide (k ∈ o.*1)) as [Hin|Hnin]; split; tauto.
Qed.

(** Writing a property adds its name when it is new, and nothing else. *)
Lemma obj_set_keys o k v :
  (obj_set o k v).*1 = if decide (k ∈ o.*1) then o.*1 else o.*1 ++ [k].
Proof.
  induction o as [|[k' v'] o IH].
  - cbn [obj_set fmap list_fmap]. destruct (decide (k ∈ [])) as [Hin|_]; [|done].
    by apply elem_of_nil in Hin.
  - cbn [obj_set]. destruct (decide (k = k')) as [->|Hne].
    + cbn [fmap list_fmap fst]. destruct (decide (k' ∈ k' :: o.*1)) as [_|Hn]; [done|].
      destruct Hn. by left.
    + rewrite fmap_cons, IH. cbn [fst].
      destruct (decide (k ∈ o.*1)) as [Hin|Hnin].
      * rewrite decide_True; [done|]. by right.
      * rewrite decide_False; [done|]. by apply not_elem_of_cons.
Qed.

Lemma obj_set_elem_of_keys o k v k' :
  k' ∈ (obj_set o k v).*1 <-> k' = k \/ k' ∈ o.*1.
Proof.
  rewrite obj_set_keys. destruct (decide (k ∈ o.*1)).
  - split; [by right|]. by intros [->|?].
  - rewrite elem_of_app, list_elem_of_singleton. split; intros [?|?]; auto.
Qed.

Lemma obj_set_NoDup o k v : NoDup o.*1 -> NoDup (obj_set o k v).*1.
Proof.
  intros Hnd. rewrite obj_set_keys. destruct (decide (k ∈ o.*1)); [done|].
  apply NoDup_app. split; [done|]. split; [|apply NoDup_singleton].
  intros x Hx ->%list_elem_of_singleton. done.
Qed.

Lemma obj_set_values o k v (P : V -> Prop) :
  P v -> Forall (fun kv => P kv.2) o -> Forall (fun kv => P kv.2) (obj_set o k v).
Proof.
  intros Hv. induction 1 as [|[k' v'] o Hkv Ho IH]; simpl.
  - by constructor.
  - destruct (decide (k = k')); constructor; done.
Qed.

Lemma insert_index_perm (x : N * (string * V)) l : insert_index x l ≡ₚ x :: l.
Proof.
  induction l as [|y l IH]; simpl; [done|].
  destruct (x.1 <=? y.1)%N; [done|]. by rewrite IH, Permutation_swap.
Qed.

(** [Object.entries] lists every own property once. *)
Lemma Object_entries_perm o : Object_entries o ≡ₚ o.
Proof.
  unfold Object_entries.
  assert (Hs : foldr insert_index []
                 (omap (fun kv : string * V => i ← array_index kv.1; Some (i, kv)) o)
               ≡ₚ omap (fun kv : string * V => i ← array_index kv.1; Some (i, kv)) o).
  { generalize (omap (fun kv : string * V => i ← array_index kv.1; Some (i, kv)) o).
    intros l. induction l as [|x l IH]; simpl; [done|].
    by rewrite insert_index_perm, IH. }
  rewrite Hs. clear Hs.
  induction o as [|kv o IH]; [done|].
  destruct (array_index kv.1) as [i|] eqn:E.
  - rewrite filter_cons_False by (by rewrite E). simpl. rewrite E. simpl.
    by rewrite IH.
  - rewrite filter_cons_True by done. simpl. rewrite E. simpl.
    rewrite <- Permutation_middle. by rewrite IH.
Qed.

(** When no name is an array index, it lists them as they were created. *)
Lemma Object_entries_plain o :
  Forall (fun kv => array_index kv.1 = None) o -> Object_entries o = o.
Proof.
  intros Ho. unfold Object_entries.
  assert (Hi : omap (fun kv : string * V => i ← array_index kv.1; Some (i, kv)) o = []).
  { induction Ho as [|kv o Hkv Ho IH]; [done|]. simpl. by rewrite Hkv. }
  assert (Hf : filter (fun kv : string * V => array_index kv.1 = None) o = o).
  { clear Hi. induction Ho as [|kv o Hkv Ho IH]; [done|].
    rewrite filter_cons_True by done. by rewrite IH. }
  by rewrite Hi, Hf.
Qed.

Lemma Object_entries_keys o k : k ∈ (Object_entries o).*1 <-> k ∈ o.*1.
Proof. by rewrite Object_entries_perm. Qed.

Lemma Object_entries_NoDup o : NoDup o.*1 -> NoDup (Object_entries o).*1.
Proof. by rewrite Object_entries_perm. Qed.

End ObjectFacts.

(** ** The balances object: which properties it has *)

Section HandlerKeys.
Context {num : Type} `{Number num} `{Conversions num}.

Implicit Types (o : list (string * num)) (t : Trip).

Lemma zero_balances_fold ps o :
  let o' := fold_left (fun o p => obj_set o p num_zero) ps o in
  (NoDup o.*1 -> NoDup o'.*1) /\
  (forall k, k ∈ o'.*1 <-> k ∈ o.*1 \/ k ∈ ps) /\
  (forall P : num -> Prop, P num_zero ->
     Forall (fun kv => P kv.2) o -> Forall (fun kv => P kv.2) o').
Proof.
  revert o. induction ps as [|p ps IH]; intros o; simpl.
  - split; [done|]. split; [|done]. intros k. rewrite elem_of_nil. tauto.
  - destruct (IH (obj_set o p num_zero)) as (IH1 & IH2 & IH3).
    split; [|split].
    + intros Hnd. by apply IH1, obj_set_NoDup.
    + intros k. rewrite IH2, obj_set_elem_of_keys, elem_of_cons. tauto.
    + intros P HP Ho. apply IH3; [done|]. by apply obj_set_values.
Qed.

(** After the first loop there is one property per participant, each 0. *)
Lemma zero_balances_spec ps :
  NoDup (zero_balances ps).*1 /\
  (forall k, k ∈ (zero_balances ps).*1 <-> k ∈ ps) /\
  Forall (fun kv => kv.2 = num_zero) (zero_balances ps).
Proof.
  destruct (zero_balances_fold ps []) as (H1 & H2 & H3). cbv zeta in *.
  split; [apply H1; constructor|]. split.
  - intros k. rewrite (H2 k). simpl. rewrite elem_of_nil. tauto.
  - apply (H3 (fun v => v = num_zero)); [done|constructor].
Qed.

(** The inner loop reads only balances that exist, and leaves the property
    names as they are. *)
Lemma charge_others_keys ps pay s o :
  Forall (fun p => p ∈ o.*1) ps ->
  exists o', charge_others ps pay s o = Some o' /\ o'.*1 = o.*1.
Proof.
  revert o. induction ps as [|p ps IH]; intros o Hps; simpl; [by exists o|].
  apply Forall_cons in Hps as [Hp Hps].
  destruct (decide (p <> pay)) as [Hne|_]; [|by apply IH].
  apply obj_get_is_Some in Hp as Hg. destruct Hg as [b Hb]. rewrite Hb. simpl.
  assert (Hk : (obj_set o p (num_sub b s)).*1 = o.*1).
  { rewrite obj_set_keys. by rewrite decide_True. }
  destruct (IH (obj_set o p (num_sub b s))) as (o' & Ho' & Hk').
  { by rewrite Hk. }
  exists o'. by rewrite Ho', Hk', Hk.
Qed.

(** One expense adds the payer's name, if it is new, and nothing else. *)
Lemma add_expense_keys t o exp :
  Forall (fun p => p ∈ o.*1) (participants t) ->
  exists o', add_expense t o exp = Some o' /\
    (NoDup o.*1 -> NoDup o'.*1) /\
    (forall k, k ∈ o'.*1 <-> k = payer exp \/ k ∈ o.*1).
Proof.
  intros Hps. unfold add_expense.
  set (s := num_div _ _).
  set (o1 := match obj_get o (payer exp) with
             | Some b => if num_falsy b then obj_set o (payer exp) num_zero else o
             | None => obj_set o (payer exp) num_zero
             end).
  assert (H1 : (NoDup o.*1 -> NoDup o1.*1) /\
               (forall k, k ∈ o1.*1 <-> k = payer exp \/ k ∈ o.*1)).
  { unfold o1. destruct (obj_get o (payer exp)) as [b|] eqn:Hg.
    - assert (Hin : payer exp ∈ o.*1) by (apply obj_get_is_Some; eauto).
      destruct (num_falsy b).
      + split; [apply obj_set_NoDup|]. intros k. apply obj_set_elem_of_keys.
      + split; [done|]. intros k. split; [by right|]. by intros [->|?].
    - split; [apply obj_set_NoDup|]. intros k. apply obj_set_elem_of_keys. }
  destruct H1 as [Hnd1 Hk1].
  assert (Hin1 : payer exp ∈ o1.*1) by (apply Hk1; by left).
  apply obj_get_is_Some in Hin1 as Hg1. destruct Hg1 as [b Hb]. rewrite Hb. simpl.
  set (o2 := obj_set o1 (payer exp) _).
  assert (Hk2 : o2.*1 = o1.*1).
  { unfold o2. rewrite obj_set_keys. by rewrite decide_True. }
  destruct (charge_others_keys (participants t) (payer exp) s o2) as (o' & Ho' & Hk').
  { rewrite Hk2. eapply Forall_impl; [exact Hps|]. intros p Hp. simpl.
    apply Hk1. by right. }
  exists o'. split; [done|]. rewrite Hk', Hk2. done.
Qed.

Lemma add_expenses_keys t o expenses :
  Forall (fun p => p ∈ o.*1) (participants t) ->
  exists o', add_expenses t o expenses = Some o' /\
    (NoDup o.*1 -> NoDup o'.*1) /\
    (forall k, k ∈ o'.*1 <-> k ∈ o.*1 \/ k ∈ payer <$> expenses).
Proof.
  revert o. induction expenses as [|exp rest IH]; intros o Hps; simpl.
  - exists o. split; [done|]. split; [done|]. intros k. rewrite elem_of_nil. tauto.
  - destruct (add_expense_keys t o exp Hps) as (o1 & -> & Hnd1 & Hk1). simpl.
    destruct (IH o1) as (o' & Ho' & Hnd' & Hk').
    { eapply Forall_impl; [exact Hps|]. intros p Hp. simpl. apply Hk1. by right. }
    exists o'. split; [done|]. split; [tauto|].
    intros k. rewrite Hk', Hk1, elem_of_cons. tauto.
Qed.

(** The balances object exists, and its properties are the participants and
    the payers, each once. *)
Lemma net_balances_keys t expenses :
  exists o, net_balances t expenses = Some o /\
    NoDup o.*1 /\
    (forall k, k ∈ o.*1 <-> k ∈ participants t \/ k ∈ payer <$> expenses).
Proof.
  destruct (zero_balances_spec (participants t)) as (Hnd & Hk & _).
  destruct (add_expenses_keys t (zero_balances (participants t)) expenses)
    as (o & Ho & Hnd' & Hk').
  { apply Forall_forall. intros p Hp. by apply Hk. }
  exists o. split; [done|]. split; [by apply Hnd'|].
  intros k. rewrite Hk', Hk. done.
Qed.

End HandlerKeys.

(** * Further properties of [simplifyDebts] *)

Section Settlements.
Context {num : Type} `{NumberLaws num}.

Implicit Types (bal : list (string * num)) (st : State num).

(** Every settlement is pushed with the literal ["USD"]. *)
Lemma reachable_currency bal st s :
  Reachable bal st -> s ∈ settlements st -> s_currency s = "USD".
Proof.
  induction 1 as [|st st' Hr IH Hc Hb].
  - rewrite init_eq. simpl. by intros ?%elem_of_nil.
  - destruct (body_Some _ _ Hb) as (d & c & _ & _ & _ & _ & _ & -> & _).
    by intros [Hs| ->%list_elem_of_singleton]%elem_of_app; [apply IH|].
Qed.

(** The payer of a settlement is an entry of the input below -0.01, the
    payee an entry above 0.01. *)
Lemma reachable_parties_in bal st s :
  Reachable bal st -> s ∈ settlements st ->
  exists a b,
    (s_from s, a) ∈ bal /\ is_debtor a = true /\
    (s_to s, b) ∈ bal /\ is_creditor b = true.
Proof.
  intros Hr Hs.
  destruct (reachable_parties _ _ _ Hr Hs)
    as [(d & Hd & Hdin)%list_elem_of_fmap (c & Hc & Hcin)%list_elem_of_fmap].
  apply elem_of_init_debtors in Hdin as [Hd1 Hd2].
  apply elem_of_init_creditors in Hcin as [Hc1 Hc2].
  exists (amount d), (amount c). by rewrite Hd, Hc.
Qed.

End Settlements.

(** ** Amounts that are not finite *)

Section SortHead.
Context {num : Type} `{Number num}.
Variable cmp : Entry num -> Entry num -> num.
Variables first ok : Entry num -> Prop.
Hypothesis first_stays :
  forall x y, first x -> ok y -> num_gt (cmp x y) num_zero = false.
Hypothesis first_passes :
  forall x y, first y -> ok x -> num_gt (cmp x y) num_zero = false -> first x.

Lemma insert_by_head x l :
  ok x -> Forall ok l -> first x \/ (exists y l', l = y :: l' /\ first y) ->
  exists y l', insert_by cmp x l = y :: l' /\ first y.
Proof.
  intros Hx Hl Hf. destruct l as [|y l]; simpl.
  - destruct Hf as [Hf|(y & l' & ? & _)]; [|done]. by exists x, [].
  - apply Forall_cons in Hl as [Hy Hl].
    destruct (num_gt (cmp x y) num_zero) eqn:E.
    + destruct Hf as [Hf|(y' & l' & [= <- <-] & Hf)].
      * by rewrite (first_stays x y Hf Hy) in E.
      * eexists _, _. done.
    + destruct Hf as [Hf|(y' & l' & [= <- <-] & Hf)].
      * eexists _, _. done.
      * eexists _, _. split; [done|]. by eapply first_passes.
Qed.

(** An entry the comparator never moves back comes out first. *)
Lemma sort_by_head l :
  Forall ok l -> Exists first l ->
  exists y l', sort_by cmp l = y :: l' /\ first y.
Proof.
  intros Hok. induction Hok as [|x l Hx Hl IH]; [by intros ?%Exists_nil|].
  intros Hex. simpl.
  assert (Hs : Forall ok (sort_by cmp l)).
  { apply Forall_forall. intros y Hy. rewrite sort_by_perm in Hy.
    revert y Hy. by apply Forall_forall. }
  apply insert_by_head; [done|done|].
  apply Exists_cons in Hex as [Hf|Hex]; [by left|right]. by apply IH.
Qed.

End SortHead.

Section NotFinite.
Import Binary64.

Implicit Types (bal : list (string * float)) (st : State float).

Lemma is_nan_true x : Prim2SF x = S754_nan -> PrimFloat.is_nan x = true.
Proof.
  intros Hx. destruct (PrimFloat.is_nan x) eqn:E; [done|].
  by apply is_nan_false in E.
Qed.

Lemma js_min_nan a b :
  Prim2SF a = S754_nan \/ Prim2SF b = S754_nan ->
  Prim2SF (js_min a b) = S754_nan.
Proof.
  intros Hn. unfold js_min.
  assert (Ho : (PrimFloat.is_nan a || PrimFloat.is_nan b)%bool = true).
  { apply orb_true_iff. destruct Hn as [?|?]; [left|right]; by apply is_nan_true. }
  by rewrite Ho.
Qed.

Lemma round2_nan (x : float) :
  Prim2SF x = S754_nan -> Prim2SF (round2 x) = S754_nan.
Proof.
  intros Hx. unfold round2. cbn [num_div num_round num_mul num_hundred number].
  assert (Hm : Prim2SF (x * 100) = S754_nan) by by rewrite FloatAxioms.mul_spec, Hx.
  assert (Hr : js_round (x * 100) = (x * 100)%float) by (unfold js_round; by rewrite Hm).
  by rewrite FloatAxioms.div_spec, Hr, Hm.
Qed.

Lemma round2_infinity (x : float) :
  Prim2SF x = S754_infinity false -> Prim2SF (round2 x) = S754_infinity false.
Proof.
  intros Hx. unfold round2. cbn [num_div num_round num_mul num_hundred number].
  assert (Hm : Prim2SF (x * 100) = S754_infinity false)
    by by rewrite FloatAxioms.mul_spec, Hx.
  assert (Hr : js_round (x * 100) = (x * 100)%float) by (unfold js_round; by rewrite Hm).
  by rewrite FloatAxioms.div_spec, Hr, Hm.
Qed.

Lemma nan_not_below x y : Prim2SF x = S754_nan -> PrimFloat.ltb x y = false.
Proof. intros Hx. by rewrite ltb_spec, Hx. Qed.

Lemma poisoned_step st :
  poisoned_state st -> exists st', body st = Some st' /\ poisoned_state st'.
Proof.
  intros (d & c & Hd & Hc & Hn).
  unfold body. rewrite Hd, Hc. simpl. eexists. split; [done|].
  set (amt := transfer d c).
  assert (Hamt : Prim2SF amt = S754_nan).
  { unfold amt, transfer. cbn [num_min num_abs number]. apply round2_nan, js_min_nan.
    destruct Hn as [Hn|Hn]; [left|by right]. by rewrite abs_spec, Hn. }
  assert (Hd' : Prim2SF (amount d + amt) = S754_nan).
  { rewrite FloatAxioms.add_spec, Hamt. by destruct (Prim2SF (amount d)). }
  assert (Hc' : Prim2SF (amount c - amt) = S754_nan).
  { rewrite FloatAxioms.sub_spec, Hamt. by destruct (Prim2SF (amount c)). }
  unfold poisoned_state. cbn [debtors creditors i j amount num_lt num_abs num_add num_sub number].
  rewrite (nan_not_below (PrimFloat.abs (amount d + amt))) by by rewrite abs_spec, Hd'.
  rewrite (nan_not_below (amount c - amt)) by done.
  eexists _, _. split; [|split].
  - apply list_lookup_insert_eq. by eapply lookup_lt_Some.
  - apply list_lookup_insert_eq. by eapply lookup_lt_Some.
  - by left.
Qed.

(** Once an amount under a cursor is [NaN], the loop does not end. *)
Lemma poisoned_forever st fuel :
  poisoned_state st -> while fuel st = OutOfFuel.
Proof.
  revert st. induction fuel as [|fuel IH]; intros st Hp.
  - destruct Hp as (d & c & Hd & Hc & _). simpl.
    assert (Hcond : cond st = true).
    { apply cond_true. split; by eapply lookup_lt_Some. }
    by rewrite Hcond.
  - destruct (poisoned_step st Hp) as (st' & Hb & Hp').
    destruct Hp as (d & c & Hd & Hc & _).
    assert (Hcond : cond st = true).
    { apply cond_true. split; by eapply lookup_lt_Some. }
    simpl. rewrite Hcond, Hb. by apply IH.
Qed.

(** A debtor at -infinity meets a creditor at +infinity: both become
    [NaN]. *)
Lemma opposite_infinities_step st d c :
  debtors st !! i st = Some d -> creditors st !! j st = Some c ->
  Prim2SF (amount d) = S754_infinity true ->
  Prim2SF (amount c) = S754_infinity false ->
  exists st', body st = Some st' /\ poisoned_state st'.
Proof.
  intros Hd Hc Ed Ec.
  unfold body. rewrite Hd, Hc. simpl. eexists. split; [done|].
  set (amt := transfer d c).
  assert (Hamt : Prim2SF amt = S754_infinity false).
  { unfold amt, transfer. cbn [num_min num_abs number]. apply round2_infinity.
    assert (Ha : Prim2SF (PrimFloat.abs (amount d)) = S754_infinity false)
      by by rewrite abs_spec, Ed.
    destruct (js_min_cases (PrimFloat.abs (amount d)) (amount c)) as [-> | ->];
      [by rewrite Ha|by rewrite Ec|done|done]. }
  assert (Hd' : Prim2SF (amount d + amt) = S754_nan)
    by by rewrite FloatAxioms.add_spec, Hamt, Ed.
  assert (Hc' : Prim2SF (amount c - amt) = S754_nan)
    by by rewrite FloatAxioms.sub_spec, Hamt, Ec.
  unfold poisoned_state. cbn [debtors creditors i j amount num_lt num_abs num_add num_sub number].
  rewrite (nan_not_below (PrimFloat.abs (amount d + amt))) by by rewrite abs_spec, Hd'.
  rewrite (nan_not_below (amount c - amt)) by done.
  eexists _, _. split; [|split].
  - apply list_lookup_insert_eq. by eapply lookup_lt_Some.
  - apply list_lookup_insert_eq. by eapply lookup_lt_Some.
  - by left.
Qed.

End NotFinite.

Section OppositeInfinities.
Import Binary64.

Implicit Types (bal : list (string * float)) (st : State float).

Lemma debtor_not_nan (a : float) :
  is_debtor a = true -> Prim2SF a <> S754_nan.
Proof.
  unfold is_debtor. cbn [num_lt number]. rewrite ltb_spec. intros Hlt Hn.
  by rewrite Hn in Hlt.
Qed.

Lemma creditor_not_nan (a : float) :
  is_creditor a = true -> Prim2SF a <> S754_nan.
Proof.
  unfold is_creditor, num_gt. cbn [num_lt number]. rewrite ltb_spec. intros Hlt Hn.
  rewrite Hn in Hlt. by destruct (Prim2SF num_cent).
Qed.

Lemma neg_infinity_is_debtor (a : float) :
  Prim2SF a = S754_infinity true -> is_debtor a = true.
Proof.
  intros Ha. unfold is_debtor. cbn [num_lt num_neg num_cent number].
  rewrite ltb_spec, Ha. by vm_compute.
Qed.

Lemma infinity_is_creditor (a : float) :
  Prim2SF a = S754_infinity false -> is_creditor a = true.
Proof.
  intros Ha. unfold is_creditor, num_gt. cbn [num_lt num_cent number].
  rewrite ltb_spec, Ha. by vm_compute.
Qed.

(** -infinity is the first debtor. *)
Lemma init_first_debtor bal p a :
  (p, a) ∈ bal -> Prim2SF a = S754_infinity true ->
  exists d, debtors (init bal) !! 0%nat = Some d /\
            Prim2SF (amount d) = S754_infinity true.
Proof.
  intros Hin Ha. rewrite init_eq. cbn [debtors].
  destruct (sort_by_head ascending
              (fun e => Prim2SF (amount e) = S754_infinity true)
              (fun e => Prim2SF (amount e) <> S754_nan)) with (l := (partition bal).1)
    as (d & l' & -> & Hd).
  - intros x y Hx Hy. unfold num_gt, ascending. cbn [num_lt num_sub num_zero number].
    rewrite ltb_spec, FloatAxioms.sub_spec, Hx.
    change (Prim2SF 0) with (S754_zero false).
    destruct (Prim2SF (amount y)) as [s|s| |s m e]; try done; by destruct s.
  - intros x y Hy Hx. unfold num_gt, ascending. cbn [num_lt num_sub num_zero number].
    rewrite ltb_spec, FloatAxioms.sub_spec, Hy.
    change (Prim2SF 0) with (S754_zero false).
    destruct (Prim2SF (amount x)) as [s|s| |s m e]; try done; by destruct s.
  - apply Forall_forall. intros e He.
    apply elem_of_partition_debtors in He as [_ He]. by apply debtor_not_nan.
  - apply Exists_exists. exists (mkEntry p a). split; [|done].
    apply elem_of_partition_debtors. split; [done|]. by apply neg_infinity_is_debtor.
  - by exists d.
Qed.

(** +infinity is the first creditor. *)
Lemma init_first_creditor bal q b :
  (q, b) ∈ bal -> Prim2SF b = S754_infinity false ->
  exists c, creditors (init bal) !! 0%nat = Some c /\
            Prim2SF (amount c) = S754_infinity false.
Proof.
  intros Hin Hb. rewrite init_eq. cbn [creditors].
  destruct (sort_by_head descending
              (fun e => Prim2SF (amount e) = S754_infinity false)
              (fun e => Prim2SF (amount e) <> S754_nan)) with (l := (partition bal).2)
    as (c & l' & -> & Hc).
  - intros x y Hx Hy. unfold num_gt, descending. cbn [num_lt num_sub num_zero number].
    rewrite ltb_spec, FloatAxioms.sub_spec, Hx.
    change (Prim2SF 0) with (S754_zero false).
    destruct (Prim2SF (amount y)) as [s|s| |s m e]; try done; by destruct s.
  - intros x y Hy Hx. unfold num_gt, descending. cbn [num_lt num_sub num_zero number].
    rewrite ltb_spec, FloatAxioms.sub_spec, Hy.
    change (Prim2SF 0) with (S754_zero false).
    destruct (Prim2SF (amount x)) as [s|s| |s m e]; try done; by destruct s.
  - apply Forall_forall. intros e He.
    apply elem_of_partition_creditors in He as [_ He]. by apply creditor_not_nan.
  - apply Exists_exists. exists (mkEntry q b). split; [|done].
    apply elem_of_partition_creditors. split; [done|]. by apply infinity_is_creditor.
  - by exists c.
Qed.

(** With -infinity and +infinity among the balances the call does not
    return. *)
Lemma opposite_infinities_forever bal p a q b fuel :
  (p, a) ∈ bal -> Prim2SF a = S754_infinity true ->
  (q, b) ∈ bal -> Prim2SF b = S754_infinity false ->
  simplifyDebts fuel bal = OutOfFuel.
Proof.
  intros Hp Ha Hq Hb.
  destruct (init_first_debtor bal p a Hp Ha) as (d & Hd & Ed).
  destruct (init_first_creditor bal q b Hq Hb) as (c & Hc & Ec).
  assert (Hi : i (init bal) = 0%nat) by by rewrite init_eq.
  assert (Hj : j (init bal) = 0%nat) by by rewrite init_eq.
  destruct (opposite_infinities_step (init bal) d c) as (st' & Hb' & Hp'); try done;
    [by rewrite Hi|by rewrite Hj|].
  assert (Hcond : cond (init bal) = true).
  { apply cond_true. rewrite Hi, Hj. split; by eapply lookup_lt_Some. }
  unfold simplifyDebts. destruct fuel as [|fuel]; simpl; rewrite Hcond; [done|].
  rewrite Hb'. by rewrite (poisoned_forever st' fuel Hp').
Qed.

End OppositeInfinities.

(** ** The handler on binary64 *)

Section SettledBalances.
Context {num : Type} `{NumberLaws num}.

(** Balances that are all within a cent of zero give no settlement. *)
Lemma settled_balances_return_nothing (bal : list (string * num)) fuel :
  Forall (fun kv => within_cent kv.2 = true) bal ->
  simplifyDebts fuel bal = Returned [].
Proof.
  intros Hall.
  assert (omap debtor_entry bal = [] /\ omap creditor_entry bal = [])
    as [Hd Hc].
  { induction Hall as [|kv bal Hkv _ [IH1 IH2]]; [done|]. simpl.
    unfold debtor_entry at 1, creditor_entry at 1.
    by rewrite (within_cent_not_debtor _ Hkv), (within_cent_not_creditor _ Hkv). }
  unfold simplifyDebts. rewrite init_eq, partition_eq, Hd, Hc. simpl.
  by rewrite while_unfold.
Qed.

End SettledBalances.

Section HandlerBinary64.
Import Binary64.

Implicit Types (o : list (string * float)) (t : Trip).

Lemma positive_finite (a : float) :
  PrimFloat.ltb 0 a = true -> PrimFloat.is_finite a = true ->
  signed_finite false a.
Proof.
  rewrite ltb_spec. change (Prim2SF 0) with (S754_zero false).
  intros Hlt [Hn Hi]%is_finite_spec.
  destruct (Prim2SF a) as [s|s| |s m e] eqn:E.
  - by destruct s.
  - by destruct (Hi s).
  - done.
  - destruct s; [done|]. by exists m, e.
Qed.

Lemma negative_finite (a : float) :
  PrimFloat.ltb a 0 = true -> PrimFloat.is_finite a = true ->
  signed_finite true a.
Proof.
  rewrite ltb_spec. change (Prim2SF 0) with (S754_zero false).
  intros Hlt [Hn Hi]%is_finite_spec.
  destruct (Prim2SF a) as [s|s| |s m e] eqn:E.
  - by destruct s.
  - by destruct (Hi s).
  - done.
  - destruct s; [|done]. by exists m, e.
Qed.

(** Without participants the share is [amount / 0]: the payer's balance
    goes to the infinity opposite to the sign of the amount. *)
Lemma share_of_nobody s (a b : float) :
  signed_finite s a ->
  Prim2SF b = S754_zero false \/ Prim2SF b = S754_infinity (negb s) ->
  Prim2SF (b + (a - a / num_of_length 0)) = S754_infinity (negb s).
Proof.
  intros (m & e & Ha) Hb.
  assert (Hz : Prim2SF (num_of_length (num:=float) 0) = S754_zero false)
    by by vm_compute.
  rewrite FloatAxioms.add_spec, FloatAxioms.sub_spec, FloatAxioms.div_spec, Ha, Hz.
  destruct Hb as [-> | ->]; by destruct s.
Qed.

Lemma add_expense_other t o exp o' k :
  participants t = [] -> payer exp <> k ->
  add_expense t o exp = Some o' -> obj_get o' k = obj_get o k.
Proof.
  intros Hps Hne. unfold add_expense. rewrite Hps. cbn [charge_others length].
  set (o1 := match obj_get o (payer exp) with
             | Some b => if num_falsy b then obj_set o (payer exp) num_zero else o
             | None => obj_set o (payer exp) num_zero
             end).
  assert (H1 : obj_get o1 k = obj_get o k).
  { unfold o1. destruct (obj_get o (payer exp)) as [b|];
      [destruct (num_falsy b); [|done]|]; by apply obj_get_set_ne. }
  destruct (obj_get o1 (payer exp)) as [b|]; [|done]. simpl.
  intros [= <-]. by rewrite obj_get_set_ne.
Qed.

Lemma add_expense_payer t o exp o' s :
  participants t = [] ->
  (forall v, obj_get o (payer exp) = Some v ->
             Prim2SF v = S754_infinity (negb s)) ->
  signed_finite s (exp_amount exp) ->
  add_expense t o exp = Some o' ->
  exists v, obj_get o' (payer exp) = Some v /\
            Prim2SF v = S754_infinity (negb s).
Proof.
  intros Hps Hinv Ha. unfold add_expense. rewrite Hps. cbn [charge_others length].
  set (o1 := match obj_get o (payer exp) with
             | Some b => if num_falsy b then obj_set o (payer exp) num_zero else o
             | None => obj_set o (payer exp) num_zero
             end).
  assert (H1 : exists b, obj_get o1 (payer exp) = Some b /\
                 (Prim2SF b = S754_zero false \/
                  Prim2SF b = S754_infinity (negb s))).
  { unfold o1. destruct (obj_get o (payer exp)) as [b|] eqn:Hg.
    - destruct (num_falsy b).
      + exists num_zero. split; [apply obj_get_set_eq|by left].
      + exists b. split; [done|]. right. by apply Hinv.
    - exists num_zero. split; [apply obj_get_set_eq|by left]. }
  destruct H1 as (b & -> & Hb). simpl. intros [= <-].
  eexists. split; [apply obj_get_set_eq|].
  cbn [num_add num_sub num_div number]. by apply share_of_nobody.
Qed.

Lemma add_expenses_payer t o expenses o' p s :
  participants t = [] ->
  (forall v, obj_get o p = Some v -> Prim2SF v = S754_infinity (negb s)) ->
  Forall (fun exp => payer exp = p -> signed_finite s (exp_amount exp)) expenses ->
  add_expenses t o expenses = Some o' ->
  (forall v, obj_get o' p = Some v -> Prim2SF v = S754_infinity (negb s)) /\
  (p ∈ payer <$> expenses -> is_Some (obj_get o' p)).
Proof.
  intros Hps Hinv Hall. revert o Hinv.
  induction Hall as [|exp rest Hexp _ IH]; intros o Hinv; simpl.
  - intros [= <-]. split; [done|]. by intros ?%elem_of_nil.
  - destruct (add_expense t o exp) as [o1|] eqn:H1; [|done]. simpl. intros Hr.
    destruct (decide (payer exp = p)) as [Hp|Hp].
    + destruct (add_expense_payer t o exp o1 s Hps) as (v & Hv & Ev); try done.
      { by rewrite Hp. } { by apply Hexp. }
      rewrite Hp in Hv.
      destruct (IH o1) as [IH1 IH2]; [|done|].
      { intros v' Hv'. congruence. }
      split; [done|]. intros _.
      destruct (add_expenses_keys t o1 rest) as (o2 & Ho2 & _ & Hk).
      { by rewrite Hps. }
      rewrite Hr in Ho2. injection Ho2 as <-.
      apply obj_get_is_Some, Hk. left. apply obj_get_is_Some. by rewrite Hv.
    + destruct (IH o1) as [IH1 IH2]; [|done|].
      { intros v' Hv'. apply Hinv. by rewrite <- (add_expense_other t o exp o1 p). }
      split; [done|].
      intros [Heq|Hin]%elem_of_cons; [by destruct Hp|by apply IH2].
Qed.

(** Without participants, a payer whose expenses all have finite amounts of
    one sign ends at the infinity of the other sign. *)
Lemma net_balances_nobody t expenses o p s :
  participants t = [] ->
  Forall (fun exp => payer exp = p -> signed_finite s (exp_amount exp)) expenses ->
  p ∈ payer <$> expenses ->
  net_balances t expenses = Some o ->
  exists v, (p, v) ∈ Object_entries o /\ Prim2SF v = S754_infinity (negb s).
Proof.
  intros Hps Hall Hp Ho. unfold net_balances in Ho. rewrite Hps in Ho.
  destruct (add_expenses_payer t (zero_balances []) expenses o p s Hps)
    as [H1 H2]; try done.
  destruct (H2 Hp) as [v Hv]. exists v. split; [|by apply H1].
  rewrite Object_entries_perm. by apply obj_get_Some.
Qed.

End HandlerBinary64.

(** ** The order of the two working lists *)

Section Ordering.
Import Binary64.
Local Open Scope Z_scope.

(** The scaled magnitude of a finite number is positive and below that of
    the infinities. *)
Lemma grid_valid x s m e :
  Prim2SF x = S754_finite s m e ->
  0 < grid (Z.pos m) e < scaled_infinity.
Proof.
  intros Hx. pose proof (valid_finite x s m e Hx) as (He & Hm%pos_lt_pow2 & _).
  pose proof (grid_lt_infinity (Z.pos m) e ltac:(lia) He).
  pose proof (pow2_pos (e + 1074) ltac:(lia)).
  assert (0 < Z.pos m * 2 ^ (e + 1074)) by (apply Z.mul_pos_pos; lia).
  unfold grid in *. lia.
Qed.

(** Finite magnitudes compare by exponent, then by mantissa. *)
Lemma grid_compare x y sx mx ex sy my ey :
  Prim2SF x = S754_finite sx mx ex -> Prim2SF y = S754_finite sy my ey ->
  (grid (Z.pos mx) ex ?= grid (Z.pos my) ey) =
  match ex ?= ey with Lt => Lt | Gt => Gt | Eq => Pos.compare mx my end.
Proof.
  intros Hx Hy.
  pose proof (valid_finite x _ _ _ Hx) as (Hex & Hmx & Hnx).
  pose proof (valid_finite y _ _ _ Hy) as (Hey & Hmy & Hny).
  assert (Hlt : forall m1 e1 m2 e2,
            -1074 <= e1 -> e1 < e2 -> Z.log2 (Z.pos m1) <= 52 ->
            Z.log2 (Z.pos m2) = 52 ->
            grid (Z.pos m1) e1 < grid (Z.pos m2) e2).
  { intros m1 e1 m2 e2 H1 H12 Hm1 Hm2. unfold grid.
    apply pos_lt_pow2 in Hm1.
    assert (Hm2' : 2 ^ 52 <= Z.pos m2) by (apply Z.log2_le_pow2; lia).
    replace (e2 + 1074) with ((e2 - e1 - 1) + 1 + (e1 + 1074)) by lia.
    rewrite (pow2_split (e2 - e1 - 1 + 1) (e1 + 1074)) by lia.
    rewrite (pow2_split (e2 - e1 - 1) 1) by lia.
    change (2 ^ 1) with 2. change (2 ^ 53) with (2 ^ 52 * 2) in Hm1.
    pose proof (pow2_pos (e1 + 1074) ltac:(lia)) as Hu.
    pose proof (pow2_pos (e2 - e1 - 1) ltac:(lia)) as Hv.
    set (u := 2 ^ (e1 + 1074)) in *. set (v := 2 ^ (e2 - e1 - 1)) in *.
    set (h := 2 ^ 52) in *.
    assert (Z.pos m1 * u < h * 2 * u) by nia.
    assert (h * 2 * u <= Z.pos m2 * (v * 2) * u); [|lia].
    assert (h <= Z.pos m2 * v) by nia. nia. }
  destruct (Z.compare_spec ex ey) as [->|Hl|Hg].
  - unfold grid. rewrite <- Zmult_compare_compat_r; [done|].
    pose proof (pow2_pos (ey + 1074) ltac:(lia)). lia.
  - apply Z.compare_lt_iff, Hlt; lia.
  - apply Z.compare_gt_iff, Hlt; lia.
Qed.

(** The comparison of two numbers is the comparison of their scaled
    values. *)
Lemma SFcompare_value (x y : float) :
  Prim2SF x <> S754_nan -> Prim2SF y <> S754_nan ->
  SFcompare (Prim2SF x) (Prim2SF y) = Some (value64 x ?= value64 y).
Proof.
  intros Hx Hy. unfold value64.
  assert (Htop : 0 < scaled_infinity) by reflexivity.
  destruct (Prim2SF x) as [sx|sx| |sx mx ex] eqn:Ex;
    destruct (Prim2SF y) as [sy|sy| |sy my ey] eqn:Ey; try done;
    try pose proof (grid_valid x _ _ _ Ex) as Hgx;
    try pose proof (grid_valid y _ _ _ Ey) as Hgy;
    try pose proof (grid_compare x y _ _ _ _ _ _ Ex Ey) as Hc;
    unfold grid in *; cbn [SFcompare scaled]; f_equal; symmetry.
  all: try (repeat match goal with s : bool |- _ => destruct s end;
            cbn [cond_Zopp];
            first [apply Z.compare_eq_iff|apply Z.compare_lt_iff
                  |apply Z.compare_gt_iff]; lia).
  destruct sx, sy; cbn [cond_Zopp].
  - rewrite Z.compare_opp.
    rewrite (Z.compare_antisym (Z.pos mx * 2 ^ (ex + 1074)) (Z.pos my * 2 ^ (ey + 1074))).
    rewrite Hc, Pos.compare_cont_spec. cbn [Pos.switch_Eq].
    destruct (ex ?= ey); [by destruct (mx ?= my)%positive|done|done].
  - apply Z.compare_lt_iff. lia.
  - apply Z.compare_gt_iff. lia.
  - rewrite Hc, Pos.compare_cont_spec. cbn [Pos.switch_Eq].
    destruct (ex ?= ey); [by destruct (mx ?= my)%positive|done|done].
Qed.

Lemma ltb_value (x y : float) :
  Prim2SF x <> S754_nan -> Prim2SF y <> S754_nan ->
  PrimFloat.ltb x y = true <-> value64 x < value64 y.
Proof.
  intros Hx Hy. rewrite ltb_spec. unfold SFltb.
  rewrite (SFcompare_value x y Hx Hy), <- Z.compare_lt_iff.
  destruct (value64 x ?= value64 y); split; done.
Qed.

Lemma leb_value (x y : float) :
  Prim2SF x <> S754_nan -> Prim2SF y <> S754_nan ->
  PrimFloat.leb x y = true <-> value64 x <= value64 y.
Proof.
  intros Hx Hy. rewrite leb_spec. unfold SFleb.
  rewrite (SFcompare_value x y Hx Hy), <- Z.compare_le_iff.
  destruct (value64 x ?= value64 y); split; done.
Qed.

End Ordering.

Section SortedBy.
Context {num : Type} `{Number num}.
Variable cmp : Entry num -> Entry num -> num.
Variable before : Entry num -> Entry num -> Prop.
Variable ok : Entry num -> Prop.
Hypothesis before_trans : forall x y z, before x y -> before y z -> before x z.
Hypothesis moved_back :
  forall x y, ok x -> ok y -> num_gt (cmp x y) num_zero = true -> before y x.
Hypothesis kept_ahead :
  forall x y, ok x -> ok y -> num_gt (cmp x y) num_zero = false -> before x y.

Lemma insert_by_sorted x l :
  ok x -> Forall ok l -> StronglySorted before l ->
  StronglySorted before (insert_by cmp x l).
Proof.
  intros Hx Hl Hs. induction Hs as [|y l Hs IH Hy]; simpl.
  - repeat constructor.
  - apply Forall_cons in Hl as [Hoky Hl].
    destruct (num_gt (cmp x y) num_zero) eqn:E.
    + constructor; [by apply IH|].
      rewrite (insert_by_perm cmp x l). constructor; [|done].
      by apply moved_back.
    + assert (Hxy : before x y) by by apply kept_ahead.
      constructor; [by constructor|]. constructor; [done|].
      eapply Forall_impl; [exact Hy|]. intros z Hz. simpl. by eapply before_trans.
Qed.

(** The sorted list is in the order of the comparator. *)
Lemma sort_by_sorted l : Forall ok l -> StronglySorted before (sort_by cmp l).
Proof.
  induction 1 as [|x l Hx Hl IH]; simpl; [constructor|].
  apply insert_by_sorted; [done| |done].
  apply Forall_forall. intros y Hy. rewrite sort_by_perm in Hy.
  revert y Hy. by apply Forall_forall.
Qed.

End SortedBy.

Lemma StronglySorted_lookup {A} (R : A -> A -> Prop) l k1 k2 x y :
  StronglySorted R l -> (k1 < k2)%nat ->
  l !! k1 = Some x -> l !! k2 = Some y -> R x y.
Proof.
  intros Hs. revert k1 k2. induction Hs as [|z l Hs IH Hz]; intros k1 k2 Hk.
  - by rewrite lookup_nil.
  - destruct k2 as [|k2]; [lia|]. destruct k1 as [|k1]; simpl.
    + intros [= ->] Hy. rewrite Forall_forall in Hz.
      apply Hz. by eapply list_elem_of_lookup_2.
    + apply IH. lia.
Qed.

Section SortedAmounts.
Import Binary64.
Local Open Scope Z_scope.

Lemma SFsub_ge sx mx ex sy my ey sgn M E :
  -1074 <= ex -> -1074 <= ey -> -1074 <= E <= 971 -> 0 <= M ->
  (if sgn : bool then M < 2 ^ 53 else M <= 2 ^ 53) ->
  cond_Zopp sgn (grid M E)
    <= scaled (S754_finite sx mx ex) - scaled (S754_finite sy my ey) ->
  cond_Zopp sgn (grid M E)
    <= scaled (SFsub prec emax (S754_finite sx mx ex) (S754_finite sy my ey)).
Proof.
  intros Hx Hy HE HM Hs Hle. cbn [SFsub].
  apply binary_normalize_ge; try assumption; [lia|].
  rewrite (scaled_aligned sx mx ex ey), (scaled_aligned sy my ey ex) in Hle by assumption.
  rewrite (Z.min_comm ey ex) in Hle. unfold grid in *. lia.
Qed.

Lemma ltb_zero_value (x : float) :
  PrimFloat.ltb 0 x = true <-> 0 < value64 x.
Proof.
  rewrite ltb_spec. change (Prim2SF 0) with (S754_zero false). unfold value64.
  assert (Htop : 0 < scaled_infinity) by reflexivity.
  destruct (Prim2SF x) as [s|s| |s m e] eqn:E; cbn [scaled].
  - destruct s; split; (done || lia).
  - destruct s; cbn [cond_Zopp]; split; (done || lia).
  - split; (done || lia).
  - pose proof (grid_valid x s m e E) as Hg. unfold grid in Hg.
    destruct s; cbn [cond_Zopp]; split; (done || lia).
Qed.

(** The difference of two finite numbers other than zero has the sign of
    the exact difference. *)
Lemma sub_positive (a b : float) sa ma ea sb mb eb :
  Prim2SF a = S754_finite sa ma ea -> Prim2SF b = S754_finite sb mb eb ->
  PrimFloat.ltb 0 (a - b) = true <-> value64 b < value64 a.
Proof.
  intros Ha Hb.
  pose proof (valid_finite a _ _ _ Ha) as (Hea & _).
  pose proof (valid_finite b _ _ _ Hb) as (Heb & _).
  rewrite ltb_zero_value. unfold value64.
  rewrite FloatAxioms.sub_spec, Ha, Hb. unfold SF64sub. split.
  - intros Hpos. apply Z.nle_gt. intros Hle.
    assert (scaled (SFsub prec emax (S754_finite sa ma ea) (S754_finite sb mb eb))
            <= cond_Zopp false (grid 0 0)); [|unfold grid in *; cbn [cond_Zopp] in *; lia].
    apply SFsub_le; try lia. unfold grid. cbn [cond_Zopp]. lia.
  - intros Hlt.
    assert (cond_Zopp false (grid 1 (-1074))
            <= scaled (SFsub prec emax (S754_finite sa ma ea) (S754_finite sb mb eb)));
      [|unfold grid in *; cbn [cond_Zopp] in *; change (2 ^ (-1074 + 1074)) with 1 in *; lia].
    apply SFsub_ge; try lia.
    unfold grid. cbn [cond_Zopp]. change (2 ^ (-1074 + 1074)) with 1. lia.
Qed.

Lemma proper_not_nan e : proper_amount e -> Prim2SF (amount e) <> S754_nan.
Proof. intros (s & m & x & ->). done. Qed.

Lemma debtors_proper (bal : list (string * float)) :
  Forall (fun kv => PrimFloat.is_finite kv.2 = true) bal ->
  Forall proper_amount (partition bal).1.
Proof.
  intros Hfin. rewrite Forall_forall in Hfin. apply Forall_forall.
  intros e [Hin He]%elem_of_partition_debtors.
  apply Hfin, is_finite_spec in Hin as [Hn Hi]. cbn [snd] in Hn, Hi.
  unfold is_debtor in He. cbn [num_lt num_neg num_cent number] in He.
  rewrite ltb_spec, opp_spec in He.
  change (Prim2SF 0x1.47ae147ae147bp-7) with cent64 in He. unfold proper_amount.
  destruct (Prim2SF (amount e)) as [s|s| |s m x] eqn:E.
  - by destruct s.
  - by destruct (Hi s).
  - done.
  - by exists s, m, x.
Qed.

Lemma creditors_proper (bal : list (string * float)) :
  Forall (fun kv => PrimFloat.is_finite kv.2 = true) bal ->
  Forall proper_amount (partition bal).2.
Proof.
  intros Hfin. rewrite Forall_forall in Hfin. apply Forall_forall.
  intros e [Hin He]%elem_of_partition_creditors.
  apply Hfin, is_finite_spec in Hin as [Hn Hi]. cbn [snd] in Hn, Hi.
  unfold is_creditor, num_gt in He. cbn [num_lt num_cent number] in He.
  rewrite ltb_spec in He. change (Prim2SF 0x1.47ae147ae147bp-7) with cent64 in He.
  unfold proper_amount.
  destruct (Prim2SF (amount e)) as [s|s| |s m x] eqn:E.
  - by destruct s.
  - by destruct (Hi s).
  - done.
  - by exists s, m, x.
Qed.

(** On finite balances the debtors come out by ascending amount. *)
Lemma init_debtors_sorted (bal : list (string * float)) :
  Forall (fun kv => PrimFloat.is_finite kv.2 = true) bal ->
  StronglySorted (fun x y => value64 (amount x) <= value64 (amount y))
                 (debtors (init bal)).
Proof.
  intros Hfin. rewrite init_eq. cbn [debtors].
  apply (sort_by_sorted ascending _ proper_amount).
  - intros x y z. lia.
  - intros x y (sx & mx & ex & Hx) (sy & my & ey & Hy). unfold num_gt, ascending.
    cbn [num_lt num_sub num_zero number].
    rewrite (sub_positive _ _ _ _ _ _ _ _ Hx Hy). lia.
  - intros x y (sx & mx & ex & Hx) (sy & my & ey & Hy) Hgt.
    unfold num_gt, ascending in Hgt. cbn [num_lt num_sub num_zero number] in Hgt.
    apply Z.nlt_ge. intros Hlt.
    apply (sub_positive _ _ _ _ _ _ _ _ Hx Hy) in Hlt. congruence.
  - by apply debtors_proper.
Qed.

(** On finite balances the creditors come out by descending amount. *)
Lemma init_creditors_sorted (bal : list (string * float)) :
  Forall (fun kv => PrimFloat.is_finite kv.2 = true) bal ->
  StronglySorted (fun x y => value64 (amount y) <= value64 (amount x))
                 (creditors (init bal)).
Proof.
  intros Hfin. rewrite init_eq. cbn [creditors].
  apply (sort_by_sorted descending _ proper_amount).
  - intros x y z. lia.
  - intros x y (sx & mx & ex & Hx) (sy & my & ey & Hy). unfold num_gt, descending.
    cbn [num_lt num_sub num_zero number].
    rewrite (sub_positive _ _ _ _ _ _ _ _ Hy Hx). lia.
  - intros x y (sx & mx & ex & Hx) (sy & my & ey & Hy) Hgt.
    unfold num_gt, descending in Hgt. cbn [num_lt num_sub num_zero number] in Hgt.
    apply Z.nlt_ge. intros Hlt.
    apply (sub_positive _ _ _ _ _ _ _ _ Hy Hx) in Hlt. congruence.
  - by apply creditors_proper.
Qed.

End SortedAmounts.

(** ** The reply *)

Section Reply.
Context {num : Type} `{NumberLaws num} `{Conversions num}.

(** A reply of status 200 carries the trip's currency, the entries of the
    balances object and what [simplifyDebts] returned on them. *)
Lemma settle_Settled fuel t (expenses : list (Expense num)) cur bal sts :
  settle fuel (Some t) expenses = Some (Returned (Settled cur bal sts)) ->
  exists o, net_balances t expenses = Some o /\ cur = currency t /\
            bal = Object_entries o /\
            simplifyDebts fuel (Object_entries o) = Returned sts.
Proof.
  unfold settle. destruct (net_balances t expenses) as [o|]; [|done]. simpl.
  destruct (simplifyDebts fuel (Object_entries o)) as [l| |] eqn:E; [|done..].
  intros [= <- <- <-]. by exists o.
Qed.

End Reply.

(** * Accuracy of the rounded transfer on binary64 *)

Section Binary64Accuracy.
Import Binary64.
Local Open Scope Z_scope.

(** The value of a rounded number whose mantissa has the full width:
    truncated to 53 bits, or one more in the last place. *)
Lemma binary_round_aux_value s m e l :
  0 < m -> 52 <= Z.log2 m -> -1074 <= e ->
  exists x t a,
    t = e + (Z.log2 m - 52) /\ 2 ^ 52 <= x < 2 ^ 53 /\
    x * 2 ^ (t + 1074) <= m * 2 ^ (e + 1074) /\
    (m + 1) * 2 ^ (e + 1074) <= (x + 1) * 2 ^ (t + 1074) /\
    (a = x \/ a = x + 1) /\
    ((binary_round_aux prec emax s m e l = S754_infinity s /\
      scaled_infinity <= a * 2 ^ (t + 1074)) \/
     (exists m' e', binary_round_aux prec emax s m e l = S754_finite s m' e' /\
        Z.pos m' * 2 ^ (e' + 1074) = a * 2 ^ (t + 1074))).
Proof.
  intros Hm Hl He.
  destruct (binary_round_aux_spec s m e l Hm) as (x' & Hx' & _ & Hres).
  cbv zeta in Hres, Hx'.
  assert (Hk : Z.max 0 (fexp prec emax (Zdigits2 m + e) - e) = Z.log2 m - 52).
  { rewrite (Zdigits2_pos m Hm), fexp64. lia. }
  rewrite !Hk in Hres, Hx'. clear Hk.
  set (k1 := Z.log2 m - 52) in *.
  set (x := Z.shiftr m k1) in *.
  assert (Hk1 : 0 <= k1) by (unfold k1; lia).
  pose proof (shiftr_sandwich m k1 ltac:(lia) Hk1) as Hsw. fold x in Hsw.
  destruct (shiftr_pos m k1 Hm Hk1 ltac:(unfold k1; lia)) as [Hxp Hxl].
  fold x in Hxp, Hxl.
  assert (Hx52 : 2 ^ 52 <= x < 2 ^ 53).
  { split.
    - apply Z.log2_le_pow2; [lia|]. unfold k1 in Hxl. lia.
    - change 53 with (Z.succ 52). apply Z.log2_lt_pow2; [lia|]. unfold k1 in Hxl. lia. }
  pose proof (pow2_pos (e + 1074) ltac:(lia)) as Hu.
  pose proof (pow2_pos k1 Hk1) as Hv.
  assert (HT : 2 ^ (e + k1 + 1074) = 2 ^ k1 * 2 ^ (e + 1074)).
  { rewrite <- pow2_split by lia. f_equal. lia. }
  exists x, (e + k1), x'.
  split; [reflexivity|]. split; [exact Hx52|].
  set (U := 2 ^ (e + 1074)) in *. set (V := 2 ^ k1) in *.
  split.
  { rewrite HT. pose proof (Z.mul_le_mono_nonneg_r (x * V) m U ltac:(lia) ltac:(lia)). lia. }
  split.
  { rewrite HT. pose proof (Z.mul_le_mono_nonneg_r (m + 1) ((x + 1) * V) U ltac:(lia) ltac:(lia)). lia. }
  split; [lia|].
  rewrite Hres.
  destruct (bra_result_value s x' (e + k1) x) as [H1|[[_ H0]|H3]]; try lia.
  - by left.
  - by right.
Qed.


(** The last place of a full-width mantissa is at most [2 ^ -52] of the
    number. *)
Lemma ulp_le x T P B :
  0 < T -> 2 ^ 52 <= x -> x * T <= P -> P <= 2 ^ 52 * B -> T <= B.
Proof.
  intros HT Hx HP HB.
  assert (2 ^ 52 * T <= x * T) by (apply Z.mul_le_mono_nonneg_r; lia). lia.
Qed.

(** [m * 100]: off by at most one unit in the last place. *)
Lemma mul_hundred_error m e :
  Z.log2 (Z.pos m) = 52 -> -1028 <= e ->
  Z.pos m * 2 ^ (e + 1074) <= 2 ^ 1114 ->
  exists p e',
    SFmul prec emax (S754_finite false m e) hundred64 = S754_finite false p e' /\
    Z.abs (Z.pos p * 2 ^ (e' + 1074) - 100 * (Z.pos m * 2 ^ (e + 1074)))
    <= 2 ^ 1069.
Proof.
  intros Hl He Hv. unfold SFmul, hundred64. cbn [xorb].
  assert (Hlp : 52 <= Z.log2 (Z.pos (m * 7036874417766400))).
  { rewrite Pos2Z.inj_mul.
    pose proof (Z.log2_mul_below (Z.pos m) 7036874417766400 ltac:(lia) ltac:(lia)) as Hb.
    change (Z.log2 7036874417766400) with 52 in Hb. lia. }
  destruct (binary_round_aux_value false (Z.pos (m * 7036874417766400)) (e + -46)
              loc_Exact ltac:(lia) Hlp ltac:(lia))
    as (x & t & a & Ht & Hx & Hlo & Hhi & Ha & Hres).
  assert (Ht0 : -1074 <= t) by lia.
  pose proof (pow2_pos (t + 1074) ltac:(lia)) as HT.
  pose proof (pow2_pos (e + -46 + 1074) ltac:(lia)) as HU.
  assert (HP : Z.pos (m * 7036874417766400) * 2 ^ (e + -46 + 1074)
               = 100 * (Z.pos m * 2 ^ (e + 1074))).
  { rewrite Pos2Z.inj_mul.
    replace (e + 1074) with (46 + (e + -46 + 1074)) by lia.
    rewrite (pow2_split 46 (e + -46 + 1074)) by lia.
    change (2 ^ 46) with 70368744177664. lia. }
  set (T := 2 ^ (t + 1074)) in *. set (U := 2 ^ (e + -46 + 1074)) in *.
  set (P := Z.pos m * 2 ^ (e + 1074)) in *.
  assert (Hhi' : 100 * P < (x + 1) * T).
  { rewrite <- HP. 
    assert (Z.pos (m * 7036874417766400) * U < (Z.pos (m * 7036874417766400) + 1) * U)
      by lia. lia. }
  rewrite HP in Hlo.
  assert (HTb : T <= 2 ^ 1069).
  { assert (T <= 100 * 2 ^ 1062); [|lia].
    apply (ulp_le x T (100 * P)); lia. }
  assert (HxT : x * T + T = (x + 1) * T) by ring.
  destruct Hres as [[_ Hinf]|(p & e' & -> & Hval)].
  - exfalso. unfold scaled_infinity in Hinf.
    assert (a * T <= (x + 1) * T) by (destruct Ha as [->| ->]; lia). lia.
  - exists p, e'. split; [reflexivity|]. rewrite Hval.
    destruct Ha as [->| ->]; lia.
Qed.

(** [Math.round(y)] for [y] from one half on: an integral number off by at
    most one half. *)
Lemma js_round_error (y : float) m e :
  Prim2SF y = S754_finite false m e -> 0 <= mag m e ->
  Z.pos m * 2 ^ (e + 1074) < 2 ^ 52 * 2 ^ 1074 ->
  exists p e',
    Prim2SF (js_round y) = S754_finite false p e' /\
    Z.abs (2 * (Z.pos p * 2 ^ (e' + 1074)) - 2 * (Z.pos m * 2 ^ (e + 1074)))
    <= 2 ^ 1074.
Proof.
  intros Hy Hmag Hv. unfold js_round. rewrite Hy.
  pose proof (valid_finite y _ _ _ Hy) as (He & Hm & _).
  destruct (Z.leb_spec 0 e) as [H0|H0].
  { exists m, e. split; [exact Hy|].
    replace (2 * (Z.pos m * 2 ^ (e + 1074)) - 2 * (Z.pos m * 2 ^ (e + 1074)))
      with 0 by ring. cbn. lia. }
  pose proof (round_half_up_bounds m e H0 Hmag) as Hn.
  assert (Hdiv : 2 * 2 ^ (- e) * round_half_up false m e <= 2 * Z.pos m + 2 ^ (- e)
                 < 2 * 2 ^ (- e) * (round_half_up false m e + 1)).
  { unfold round_half_up. cbn [cond_Zopp].
    rewrite Z.shiftl_1_l, Z.shiftr_div_pow2 by lia.
    replace (- e + 1) with (Z.succ (- e)) by lia. rewrite Z.pow_succ_r by lia.
    pose proof (pow2_pos (- e) ltac:(lia)) as HP.
    set (P := 2 ^ (- e)) in *.
    pose proof (Z.div_mod (2 * Z.pos m + P) (2 * P) ltac:(lia)) as Hdm.
    pose proof (Z.mod_pos_bound (2 * Z.pos m + P) (2 * P) ltac:(lia)) as Hmb.
    lia. }
  set (n := round_half_up false m e) in *.
  pose proof (pow2_pos (- e) ltac:(lia)) as HP.
  pose proof (pow2_pos (e + 1074) ltac:(lia)) as HU.
  assert (HPU : 2 ^ (- e) * 2 ^ (e + 1074) = 2 ^ 1074).
  { rewrite <- pow2_split by lia. f_equal. lia. }
  set (P := 2 ^ (- e)) in *. set (U := 2 ^ (e + 1074)) in *.
  assert (Hmlt : Z.pos m < 2 ^ 52 * P).
  { apply (Z.mul_lt_mono_pos_r U); [lia|].
    replace (2 ^ 52 * P * U) with (2 ^ 52 * (P * U)) by ring. rewrite HPU. lia. }
  assert (Hn52 : n <= 2 ^ 52).
  { assert (2 * P * n < 2 * P * (2 ^ 52 + 1)) by lia.
    assert (n < 2 ^ 52 + 1); [|lia].
    apply (Z.mul_lt_mono_pos_l (2 * P)); lia. }
  rewrite of_uint63_spec.
  assert (Hphi : Uint63Axioms.to_Z (Uint63.of_Z (Z.abs n)) = n).
  { change (Uint63Axioms.to_Z (Uint63.of_Z (Z.abs n)))
      with (Uint63.to_Z (Uint63.of_Z (Z.abs n))).
    rewrite Uint63.of_Z_spec, Z.abs_eq by lia. apply Z.mod_small.
    change Uint63.wB with (2 ^ 63). lia. }
  rewrite Hphi. destruct n as [|p|p] eqn:En; try lia.
  unfold binary_normalize.
  destruct (binary_round_scaled false p 0 ltac:(lia)) as (Y & HY & HY0 & Hlow & Hupp).
  cbn [cond_Zopp] in HY.
  assert (HYv : Y = grid (Z.pos p) 0).
  { apply Z.le_antisymm.
    - apply Hupp; [lia|lia|lia].
    - apply Hlow; [lia|lia|lia]. }
  unfold grid in HYv. change (0 + 1074) with 1074 in HYv.
  assert (Hpos : 0 < Z.pos p * 2 ^ 1074) by lia.
  assert (Hlt : Z.pos p * 2 ^ 1074 < scaled_infinity).
  { unfold scaled_infinity.
    assert (Z.pos p * 2 ^ 1074 <= 2 ^ 52 * 2 ^ 1074)
      by (apply Z.mul_le_mono_nonneg_r; lia). lia. }
  destruct (binary_round_shape false p 0) as [Hr|[Hr|(p' & e' & Hr)]];
    rewrite Hr in HY; cbn [scaled cond_Zopp] in HY.
  - lia.
  - lia.
  - exists p', e'. split; [exact Hr|]. rewrite HY, HYv, <- HPU.
    replace (2 * (Z.pos p * (P * U)) - 2 * (Z.pos m * U))
      with ((2 * P * Z.pos p - 2 * Z.pos m) * U) by ring.
    assert (- P <= 2 * P * Z.pos p - 2 * Z.pos m <= P) by lia.
    assert (- (P * U) <= (2 * P * Z.pos p - 2 * Z.pos m) * U <= P * U).
    { split.
      - replace (- (P * U)) with ((- P) * U) by ring.
        apply Z.mul_le_mono_nonneg_r; lia.
      - apply Z.mul_le_mono_nonneg_r; lia. }
    lia.
Qed.

(** [n / 100]: off by at most one unit in the last place. *)
Lemma div_hundred_error m e :
  Z.log2 (Z.pos m) <= 52 -> 0 <= mag m e ->
  Z.pos m * 2 ^ (e + 1074) <= 2 ^ 1121 ->
  exists p e',
    SFdiv prec emax (S754_finite false m e) hundred64 = S754_finite false p e' /\
    Z.abs (100 * (Z.pos p * 2 ^ (e' + 1074)) - Z.pos m * 2 ^ (e + 1074))
    <= 2 ^ 1069.
Proof.
  intros Hm Hmag Hv. unfold SFdiv, hundred64, SFdiv_core_binary.
  change (Zdigits2 7036874417766400) with 53.
  rewrite (Zdigits2_pos (Z.pos m)), fexp64 by lia. unfold mag in *.
  pose proof (Z.log2_nonneg (Z.pos m)) as HL0.
  set (L := Z.log2 (Z.pos m)) in *.
  replace (Z.min (Z.max (L + 1 + e - (53 + -46) - 53) (-1074)) (e - -46))
    with (L + e - 59) by lia.
  replace (e - -46 - (L + e - 59)) with (105 - L) by lia.
  destruct (105 - L) as [|s|s] eqn:Es; try lia.
  rewrite <- Es. clear Es.
  assert (Hm' : 2 ^ 105 <= Z.shiftl (Z.pos m) (105 - L)).
  { rewrite Z.shiftl_mul_pow2 by lia.
    pose proof (Z.log2_spec (Z.pos m) ltac:(lia)) as [Hl _]. fold L in Hl.
    replace (2 ^ 105) with (2 ^ L * 2 ^ (105 - L)).
    - apply Z.mul_le_mono_nonneg_r; [apply Z.pow_nonneg; lia|exact Hl].
    - rewrite <- Z.pow_add_r by lia. f_equal. lia. }
  assert (Hsh : Z.shiftl (Z.pos m) (105 - L) = Z.pos m * 2 ^ (105 - L))
    by (rewrite Z.shiftl_mul_pow2 by lia; reflexivity).
  set (m' := Z.shiftl (Z.pos m) (105 - L)) in *.
  pose proof (Z.div_eucl_eq m' 7036874417766400 ltac:(lia)) as Hdiv.
  pose proof (Z.mod_pos_bound m' 7036874417766400 ltac:(lia)) as Hrb.
  assert (Hq : 2 ^ 52 <= m' / 7036874417766400).
  { apply Z.div_le_lower_bound; [lia|]. lia. }
  unfold Z.div in Hq. unfold Z.modulo in Hrb.
  destruct (Z.div_eucl m' 7036874417766400) as [q r].
  cbn [fst snd xorb] in *.
  assert (Hlq : 52 <= Z.log2 q) by (apply Z.log2_le_pow2; lia).
  destruct (binary_round_aux_value false q (L + e - 59)
              (new_location 7036874417766400 r) ltac:(lia) Hlq ltac:(lia))
    as (x & t & a & Ht & Hx & Hlo & Hhi & Ha & Hres).
  assert (Ht0 : -1074 <= t) by lia.
  pose proof (pow2_pos (t + 1074) ltac:(lia)) as HT.
  pose proof (pow2_pos (L + e - 59 + 1074) ltac:(lia)) as HU.
  assert (HP : m' * 2 ^ (L + e - 59 + 1074)
               = 70368744177664 * (Z.pos m * 2 ^ (e + 1074))).
  { rewrite Hsh.
    replace (Z.pos m * 2 ^ (105 - L) * 2 ^ (L + e - 59 + 1074))
      with (Z.pos m * (2 ^ (105 - L) * 2 ^ (L + e - 59 + 1074))) by ring.
    rewrite <- pow2_split by lia.
    replace (105 - L + (L + e - 59 + 1074)) with (46 + (e + 1074)) by lia.
    rewrite (pow2_split 46 (e + 1074)) by lia.
    change (2 ^ 46) with 70368744177664. ring. }
  set (T := 2 ^ (t + 1074)) in *. set (U := 2 ^ (L + e - 59 + 1074)) in *.
  set (P := Z.pos m * 2 ^ (e + 1074)) in *.
  assert (HrU : 0 <= r * U < 7036874417766400 * U).
  { split; [apply Z.mul_nonneg_nonneg; lia|].
    apply Z.mul_lt_mono_pos_r; lia. }
  assert (Hex : 100 * (q * U) <= P < 100 * ((q + 1) * U)).
  { rewrite Hdiv in HP.
    replace ((7036874417766400 * q + r) * U)
      with (7036874417766400 * (q * U) + r * U) in HP by ring.
    lia. }
  assert (HTb : 100 * T <= 2 ^ 1069).
  { assert (2 ^ 52 * T <= x * T) by (apply Z.mul_le_mono_nonneg_r; lia). lia. }
  assert (HxT : x * T + T = (x + 1) * T) by ring.
  destruct Hres as [[_ Hinf]|(p & e' & -> & Hval)].
  - exfalso. unfold scaled_infinity in Hinf.
    assert (a * T <= (x + 1) * T) by (destruct Ha as [->| ->]; lia). lia.
  - exists p, e'. split; [reflexivity|]. rewrite Hval.
    destruct Ha as [->| ->]; lia.
Qed.

End Binary64Accuracy.

(** * Working amounts of bounded magnitude on binary64

    Amounts up to [2 ^ 40] in magnitude: the rounded transfer is within
    [2 ^ -7] of the smaller of the two amounts, and an addition or
    subtraction is off by at most [2 ^ -11]. *)

Section Binary64Values.
Import Binary64.
Local Open Scope Z_scope.

Lemma value64_finite x s m e :
  Prim2SF x = S754_finite s m e ->
  value64 x = cond_Zopp s (Z.pos m * 2 ^ (e + 1074)).
Proof. intros Hx. unfold value64. by rewrite Hx. Qed.

Lemma positive_value_finite x :
  0 < value64 x < scaled_infinity ->
  exists m e, Prim2SF x = S754_finite false m e.
Proof.
  unfold value64. destruct (Prim2SF x) as [s|s| |s m e] eqn:E; cbn [scaled]; try lia.
  - destruct s; cbn [cond_Zopp]; unfold scaled_infinity; lia.
  - pose proof (grid_valid x s m e E) as Hg. unfold grid in Hg.
    destruct s; cbn [cond_Zopp]; [lia|]. intros _. by exists m, e.
Qed.

Lemma negative_value_finite x :
  - scaled_infinity < value64 x < 0 ->
  exists m e, Prim2SF x = S754_finite true m e.
Proof.
  unfold value64. destruct (Prim2SF x) as [s|s| |s m e] eqn:E; cbn [scaled]; try lia.
  - destruct s; cbn [cond_Zopp]; unfold scaled_infinity; lia.
  - pose proof (grid_valid x s m e E) as Hg. unfold grid in Hg.
    destruct s; cbn [cond_Zopp]; [|lia]. intros _. by exists m, e.
Qed.

Lemma nonzero_not_nan x : value64 x <> 0 -> Prim2SF x <> S754_nan.
Proof. unfold value64. intros Hv Hx. rewrite Hx in Hv. by apply Hv. Qed.

Lemma abs_value x : value64 (PrimFloat.abs x) = Z.abs (value64 x).
Proof.
  unfold value64. rewrite abs_spec.
  destruct (Prim2SF x) as [s|s| |s m e] eqn:E; cbn [SFabs scaled]; try done.
  - destruct s; cbn [cond_Zopp]; unfold scaled_infinity; lia.
  - pose proof (grid_valid x s m e E) as Hg. unfold grid in Hg.
    destruct s; cbn [cond_Zopp]; lia.
Qed.

Lemma abs_not_nan x : Prim2SF x <> S754_nan -> Prim2SF (PrimFloat.abs x) <> S754_nan.
Proof. rewrite abs_spec. by destruct (Prim2SF x). Qed.

Lemma opp_value x : value64 (- x)%float = - value64 x.
Proof.
  unfold value64. rewrite opp_spec.
  destruct (Prim2SF x) as [s|s| |s m e]; cbn [SFopp scaled]; try done;
    destruct s; cbn [cond_Zopp negb]; lia.
Qed.

Lemma opp_not_nan x : Prim2SF x <> S754_nan -> Prim2SF (- x)%float <> S754_nan.
Proof. rewrite opp_spec. by destruct (Prim2SF x). Qed.

Lemma js_min_value a b :
  Prim2SF a <> S754_nan -> Prim2SF b <> S754_nan ->
  value64 (js_min a b) = Z.min (value64 a) (value64 b) /\
  Prim2SF (js_min a b) <> S754_nan.
Proof.
  intros Ha Hb. pose proof (ltb_value a b Ha Hb) as Hab.
  pose proof (ltb_value b a Hb Ha) as Hba.
  unfold js_min. rewrite (proj2 (is_nan_false a) Ha), (proj2 (is_nan_false b) Hb).
  cbn [orb].
  destruct (PrimFloat.ltb a b) eqn:E1.
  { split; [|done]. apply proj1 in Hab. specialize (Hab eq_refl). lia. }
  destruct (PrimFloat.ltb b a) eqn:E2.
  { split; [|done]. apply proj1 in Hba. specialize (Hba eq_refl). lia. }
  assert (value64 a = value64 b).
  { destruct (Z.lt_trichotomy (value64 a) (value64 b)) as [H|[H|H]]; [|done|].
    - apply Hab in H. congruence.
    - apply Hba in H. congruence. }
  destruct (PrimFloat.get_sign a); (split; [lia|done]).
Qed.

Lemma cent_value_eq : cent_value = 5764607523034235 * 2 ^ 1015.
Proof. reflexivity. Qed.

(** *** The rounded transfer *)

(** [Math.round(m * 100) / 100] is within [2 ^ -7] of [m], for [m] between
    [0.01] and [2 ^ 40]. *)
Lemma round2_error (m : float) :
  cent_value <= value64 m <= 2 ^ 1114 ->
  exists p e, Prim2SF (round2 m) = S754_finite false p e /\
    Z.abs (value64 (round2 m) - value64 m) < 2 ^ 1067.
Proof.
  rewrite cent_value_eq. intros Hv.
  destruct (positive_value_finite m) as (mm & em & Hm); [unfold scaled_infinity; lia|].
  rewrite (value64_finite _ _ _ _ Hm) in *. cbn [cond_Zopp] in *.
  pose proof (valid_finite m _ _ _ Hm) as (He & Hl & Hc).
  pose proof (pos_lt_pow2 mm Hl) as Hmm.
  assert (Hem : -59 <= em).
  { destruct (Z_le_gt_dec (-59) em) as [|Hgt]; [done|]. exfalso.
    assert (2 ^ (em + 1074) <= 2 ^ 1014) by (apply Z.pow_le_mono_r; lia).
    pose proof (pow2_pos (em + 1074) ltac:(lia)).
    assert (Z.pos mm * 2 ^ (em + 1074) <= 2 ^ 53 * 2 ^ 1014)
      by (apply Z.mul_le_mono_nonneg; lia).
    lia. }
  assert (Hl52 : Z.log2 (Z.pos mm) = 52) by lia.
  destruct (mul_hundred_error mm em Hl52 ltac:(lia) ltac:(lia))
    as (p1 & e1 & Hy & Hey).
  assert (Hy' : Prim2SF (m * 100) = S754_finite false p1 e1).
  { rewrite FloatAxioms.mul_spec, Hm, hundred_spec. exact Hy. }
  assert (Hp0 : pos_ge 0 (Prim2SF (m * 100))).
  { rewrite FloatAxioms.mul_spec, Hm, hundred_spec.
    apply (mul_hundred_mag (-6)); [lia|]. right. exists mm, em.
    split; [done|]. unfold mag. lia. }
  assert (Hmag1 : 0 <= mag p1 e1).
  { destruct Hp0 as [H|(m' & e' & H & Hmag)]; rewrite Hy' in H; [done|].
    injection H as <- <-. exact Hmag. }
  destruct (js_round_error (m * 100) p1 e1 Hy' Hmag1 ltac:(lia))
    as (p2 & e2 & Hn & Hen).
  pose proof (valid_finite _ _ _ _ Hn) as (_ & Hl2 & _).
  assert (Hmag2 : 0 <= mag p2 e2).
  { destruct (js_round_mag 0 (m * 100) ltac:(lia) Hp0) as [H|(m' & e' & H & Hmag)];
      rewrite Hn in H; [done|].
    injection H as <- <-. exact Hmag. }
  destruct (div_hundred_error p2 e2 Hl2 Hmag2 ltac:(lia)) as (p3 & e3 & Ha & Hea).
  assert (Ha' : Prim2SF (round2 m) = S754_finite false p3 e3).
  { unfold round2. cbn [num_div num_round num_mul num_hundred number].
    rewrite FloatAxioms.div_spec, hundred_spec, Hn. exact Ha. }
  exists p3, e3. split; [exact Ha'|].
  rewrite (value64_finite _ _ _ _ Ha'). cbn [cond_Zopp]. lia.
Qed.

(** *** Additions and subtractions *)

Lemma binary_normalize_not_nan z ez :
  binary_normalize prec emax z ez false <> S754_nan.
Proof.
  destruct z as [|p|p]; cbn [binary_normalize]; [done| |].
  - by destruct (binary_round_shape false p ez) as [->|[->|(? & ? & ->)]].
  - by destruct (binary_round_shape true p ez) as [->|[->|(? & ? & ->)]].
Qed.

(** Rounding a number up to [2 ^ 41] moves it by at most [2 ^ -11]. *)
Lemma binary_round_error s p ez :
  -1074 <= ez -> Z.pos p * 2 ^ (ez + 1074) <= 2 ^ 1115 ->
  exists Y, scaled (binary_round prec emax s p ez) = cond_Zopp s Y /\
    Z.abs (Y - Z.pos p * 2 ^ (ez + 1074)) <= 2 ^ 1063.
Proof.
  intros Hez Hv.
  destruct (binary_round_value s p ez Hez)
    as (x & t & a & Ht & Hx & Hn & Hsw & Ha & Hex & Hres).
  pose proof (pow2_pos (t + 1074) ltac:(lia)) as HT.
  set (T := 2 ^ (t + 1074)) in *. set (P := Z.pos p * 2 ^ (ez + 1074)) in *.
  assert (HxT : x * T + T = (x + 1) * T) by ring.
  assert (Herr : Z.abs (a * T - P) <= 2 ^ 1063).
  { destruct Hn as [->|H52].
    - change (2 ^ (-1074 + 1074)) with 1 in T. unfold T in *.
      assert (a = x) as -> by (apply Hex; lia). lia.
    - assert (T <= 2 ^ 1063) by (apply (ulp_le x T P); lia).
      destruct Ha as [->| ->]; lia. }
  destruct Hres as [[Hr Hinf]|[[Hr Hz]|(m & e & Hr & Hval)]]; rewrite Hr; cbn [scaled].
  - exfalso. unfold scaled_infinity in Hinf. lia.
  - exists 0. split; [by destruct s|]. subst a. lia.
  - exists (a * T). split; [by rewrite Hval|exact Herr].
Qed.

Lemma binary_normalize_error z ez :
  -1074 <= ez -> Z.abs (grid z ez) <= 2 ^ 1115 ->
  Z.abs (scaled (binary_normalize prec emax z ez false) - grid z ez) <= 2 ^ 1063.
Proof.
  intros Hez Hv. pose proof (pow2_pos (ez + 1074) ltac:(lia)) as HU.
  unfold grid in *. destruct z as [|p|p]; cbn [binary_normalize].
  - cbn. lia.
  - destruct (binary_round_error false p ez Hez ltac:(lia)) as (Y & -> & HY).
    cbn [cond_Zopp]. lia.
  - assert (Hneg : Z.neg p * 2 ^ (ez + 1074) = - (Z.pos p * 2 ^ (ez + 1074))).
    { rewrite <- Pos2Z.opp_pos. ring. }
    rewrite Hneg in *.
    destruct (binary_round_error true p ez Hez ltac:(lia)) as (Y & -> & HY).
    cbn [cond_Zopp]. lia.
Qed.

Lemma SFadd_error sx mx ex sy my ey :
  -1074 <= ex -> -1074 <= ey ->
  Z.abs (scaled (S754_finite sx mx ex) + scaled (S754_finite sy my ey)) <= 2 ^ 1115 ->
  Z.abs (scaled (SFadd prec emax (S754_finite sx mx ex) (S754_finite sy my ey))
         - (scaled (S754_finite sx mx ex) + scaled (S754_finite sy my ey)))
  <= 2 ^ 1063.
Proof.
  intros Hx Hy. 
  rewrite (scaled_aligned sx mx ex ey), (scaled_aligned sy my ey ex) by assumption.
  rewrite (Z.min_comm ey ex). cbn [SFadd].
  set (z := cond_Zopp sx _ + cond_Zopp sy _).
  match goal with |- Z.abs (grid ?a ?k + grid ?b ?k) <= _ -> _ =>
    replace (grid a k + grid b k) with (grid z k) by (unfold grid, z; ring) end.
  intros Hle. by apply binary_normalize_error; [lia|].
Qed.

Lemma SFsub_error sx mx ex sy my ey :
  -1074 <= ex -> -1074 <= ey ->
  Z.abs (scaled (S754_finite sx mx ex) - scaled (S754_finite sy my ey)) <= 2 ^ 1115 ->
  Z.abs (scaled (SFsub prec emax (S754_finite sx mx ex) (S754_finite sy my ey))
         - (scaled (S754_finite sx mx ex) - scaled (S754_finite sy my ey)))
  <= 2 ^ 1063.
Proof.
  intros Hx Hy. 
  rewrite (scaled_aligned sx mx ex ey), (scaled_aligned sy my ey ex) by assumption.
  rewrite (Z.min_comm ey ex). cbn [SFsub].
  set (z := cond_Zopp sx _ - cond_Zopp sy _).
  match goal with |- Z.abs (grid ?a ?k - grid ?b ?k) <= _ -> _ =>
    replace (grid a k - grid b k) with (grid z k) by (unfold grid, z; ring) end.
  intros Hle. by apply binary_normalize_error; [lia|].
Qed.

(** A grid point above the exact sum is above the computed sum. *)
Lemma SFadd_le sx mx ex sy my ey sgn M E :
  -1074 <= ex -> -1074 <= ey -> -1074 <= E <= 971 -> 0 <= M ->
  (if sgn : bool then M <= 2 ^ 53 else M < 2 ^ 53) ->
  scaled (S754_finite sx mx ex) + scaled (S754_finite sy my ey)
    <= cond_Zopp sgn (grid M E) ->
  scaled (SFadd prec emax (S754_finite sx mx ex) (S754_finite sy my ey))
    <= cond_Zopp sgn (grid M E).
Proof.
  intros Hx Hy HE HM Hs Hle. cbn [SFadd].
  apply binary_normalize_le; try assumption; [lia|].
  rewrite (scaled_aligned sx mx ex ey), (scaled_aligned sy my ey ex) in Hle by assumption.
  rewrite (Z.min_comm ey ex) in Hle. unfold grid in *. lia.
Qed.

End Binary64Values.

Section Binary64Bounded.
Import Binary64.
Local Open Scope Z_scope.

(** *** The tests of the loop, on scaled values *)

Lemma cent_not_nan : Prim2SF (@num_cent float Binary64.number) <> S754_nan.
Proof. done. Qed.

Lemma within_cent_value (x : float) :
  Prim2SF x <> S754_nan ->
  within_cent x = true <-> Z.abs (value64 x) < cent_value.
Proof.
  intros Hx. unfold within_cent. cbn [num_lt num_abs number].
  rewrite (ltb_value _ _ (abs_not_nan x Hx) cent_not_nan), abs_value. done.
Qed.

Lemma below_cent_value (x : float) :
  Prim2SF x <> S754_nan ->
  num_lt x num_cent = true <-> value64 x < cent_value.
Proof. intros Hx. cbn [num_lt number]. by apply ltb_value. Qed.

Lemma is_debtor_value (x : float) :
  Prim2SF x <> S754_nan ->
  is_debtor x = true <-> value64 x < - cent_value.
Proof.
  intros Hx. unfold is_debtor. cbn [num_lt num_neg number].
  rewrite (ltb_value _ _ Hx (opp_not_nan _ cent_not_nan)), opp_value. done.
Qed.

Lemma is_creditor_value (x : float) :
  Prim2SF x <> S754_nan ->
  is_creditor x = true <-> cent_value < value64 x.
Proof.
  intros Hx. unfold is_creditor, num_gt. cbn [num_lt number].
  by apply ltb_value.
Qed.

Lemma small_value (x : float) :
  small x = true <-> Prim2SF x <> S754_nan /\ Z.abs (value64 x) <= 2 ^ 1114.
Proof.
  unfold small. split.
  - intros H. assert (Hx : Prim2SF x <> S754_nan).
    { intros Hn. rewrite leb_spec, abs_spec, Hn in H. done. }
    split; [done|].
    apply (leb_value _ _ (abs_not_nan x Hx)) in H; [|done].
    by rewrite abs_value in H.
  - intros [Hx Hv]. apply (leb_value _ _ (abs_not_nan x Hx)); [done|].
    by rewrite abs_value.
Qed.

(** *** One transfer *)

(** [debtor.amount += amount]. *)
Lemma add_transfer (d a : float) :
  - 2 ^ 1114 <= value64 d < 0 -> 0 < value64 a <= 2 ^ 1115 ->
  Prim2SF (d + a) <> S754_nan /\
  value64 d <= value64 (d + a) /\
  Z.abs (value64 (d + a) - (value64 d + value64 a)) <= 2 ^ 1063 /\
  (value64 d + value64 a <= 2 ^ 1067 -> value64 (d + a) <= 2 ^ 1067) /\
  (- 2 ^ 1067 <= value64 d + value64 a -> - 2 ^ 1067 <= value64 (d + a)).
Proof.
  intros Hd Ha.
  destruct (negative_value_finite d) as (md & ed & Ed); [unfold scaled_infinity; lia|].
  destruct (positive_value_finite a) as (ma & ea & Ea); [unfold scaled_infinity; lia|].
  pose proof (valid_finite d _ _ _ Ed) as (Hed & Hmd%pos_lt_pow2 & _).
  pose proof (valid_finite a _ _ _ Ea) as (Hea & _ & _).
  unfold value64 in *. rewrite FloatAxioms.add_spec. unfold SF64add.
  rewrite Ed, Ea in *.
  split; [apply binary_normalize_not_nan|]. split; [|split; [|split]].
  - assert (Hg : scaled (S754_finite true md ed) = cond_Zopp true (grid (Z.pos md) ed))
      by reflexivity.
    rewrite Hg at 1. apply SFadd_ge; try lia.
  - apply SFadd_error; lia.
  - intros Hle. change (2 ^ 1067) with (cond_Zopp false (grid 1 (-7))).
    apply SFadd_le; try lia. exact Hle.
  - intros Hle. change (- 2 ^ 1067) with (cond_Zopp true (grid 1 (-7))).
    apply SFadd_ge; try lia. exact Hle.
Qed.

(** [creditor.amount -= amount]. *)
Lemma sub_transfer (c a : float) :
  0 < value64 c <= 2 ^ 1114 -> 0 < value64 a <= 2 ^ 1115 ->
  Prim2SF (c - a) <> S754_nan /\
  value64 (c - a) <= value64 c /\
  Z.abs (value64 (c - a) - (value64 c - value64 a)) <= 2 ^ 1063 /\
  (value64 c - value64 a <= 2 ^ 1067 -> value64 (c - a) <= 2 ^ 1067) /\
  (- 2 ^ 1067 <= value64 c - value64 a -> - 2 ^ 1067 <= value64 (c - a)).
Proof.
  intros Hc Ha.
  destruct (positive_value_finite c) as (mc & ec & Ec); [unfold scaled_infinity; lia|].
  destruct (positive_value_finite a) as (ma & ea & Ea); [unfold scaled_infinity; lia|].
  pose proof (valid_finite c _ _ _ Ec) as (Hec & Hmc%pos_lt_pow2 & _).
  pose proof (valid_finite a _ _ _ Ea) as (Hea & _ & _).
  unfold value64 in *. rewrite FloatAxioms.sub_spec. unfold SF64sub.
  rewrite Ec, Ea in *.
  split; [apply binary_normalize_not_nan|]. split; [|split; [|split]].
  - assert (Hg : scaled (S754_finite false mc ec) = cond_Zopp false (grid (Z.pos mc) ec))
      by reflexivity.
    rewrite Hg. apply SFsub_le; try lia.
  - apply SFsub_error; lia.
  - intros Hle. change (2 ^ 1067) with (cond_Zopp false (grid 1 (-7))).
    apply SFsub_le; try lia. exact Hle.
  - intros Hle. change (- 2 ^ 1067) with (cond_Zopp true (grid 1 (-7))).
    apply SFsub_ge; try lia. exact Hle.
Qed.

(** What one iteration does to the two amounts under the cursors. *)
Lemma bounded_transfer (d c : float) :
  - 2 ^ 1114 <= value64 d <= - cent_value ->
  cent_value <= value64 c <= 2 ^ 1114 ->
  let amt := round2 (js_min (PrimFloat.abs d) c) in
  let d' := (d + amt)%float in
  let c' := (c - amt)%float in
  Prim2SF d' <> S754_nan /\ Prim2SF c' <> S754_nan /\
  (if within_cent d' then Z.abs (value64 d') < cent_value
   else - 2 ^ 1114 <= value64 d' <= - cent_value) /\
  (if num_lt c' num_cent then Z.abs (value64 c') < cent_value
   else cent_value <= value64 c' <= 2 ^ 1114) /\
  (within_cent d' = true \/ num_lt c' num_cent = true) /\
  Z.abs ((value64 d' + value64 c') - (value64 d + value64 c)) <= 2 ^ 1064.
Proof.
  intros Hd Hc. cbv zeta.
  assert (HVc : 2 ^ 1067 < cent_value) by (rewrite cent_value_eq; lia).
  assert (HK : 0 < 2 ^ 1067) by lia.
  assert (HB : 2 ^ 1114 + 2 ^ 1067 <= 2 ^ 1115) by lia.
  assert (HE : 2 ^ 1063 + 2 ^ 1063 = 2 ^ 1064) by lia.
  assert (Hdn : Prim2SF d <> S754_nan) by (apply nonzero_not_nan; lia).
  assert (Hcn : Prim2SF c <> S754_nan) by (apply nonzero_not_nan; lia).
  destruct (js_min_value _ _ (abs_not_nan d Hdn) Hcn) as [Hmv Hmn].
  rewrite abs_value in Hmv.
  set (m := js_min (PrimFloat.abs d) c) in *.
  destruct (round2_error m) as (p & e & Hamt & Herr); [lia|].
  set (amt := round2 m) in *.
  pose proof (add_transfer d amt) as Hadd.
  pose proof (sub_transfer c amt) as Hsub.
  pose proof (within_cent_value (d + amt)%float) as Hw.
  pose proof (below_cent_value (c - amt)%float) as Hb.
  set (Vc := cent_value) in *. set (K := 2 ^ 1067) in *.
  set (B := 2 ^ 1114) in *. set (B2 := 2 ^ 1115) in *.
  set (E := 2 ^ 1063) in *. set (E2 := 2 ^ 1064) in *.
  clearbody Vc K B B2 E E2.
  assert (Ha : 0 < value64 amt <= B2) by lia.
  destruct Hadd as (Hn1 & Hmono1 & Herr1 & Hup1 & Hlow1); [lia|done|].
  destruct Hsub as (Hn2 & Hmono2 & Herr2 & Hup2 & Hlow2); [lia|done|].
  specialize (Hw Hn1). specialize (Hb Hn2).
  split; [done|]. split; [done|]. split; [|split; [|split]].
  - destruct (within_cent (d + amt)%float) eqn:Ew.
    + by apply Hw.
    + assert (~ Z.abs (value64 (d + amt)%float) < Vc) by (intros H; apply Hw in H; congruence).
      lia.
  - destruct (num_lt (c - amt)%float num_cent) eqn:Eb.
    + assert (value64 (c - amt)%float < Vc) by by apply Hb.
      lia.
    + assert (~ value64 (c - amt)%float < Vc) by (intros H; apply Hb in H; congruence).
      lia.
  - destruct (Z_le_gt_dec (- value64 d) (value64 c)).
    + left. apply Hw. lia.
    + right. apply Hb. lia.
  - lia.
Qed.

End Binary64Bounded.

(** * A loop whose every iteration moves a cursor *)

Section Advancing.
Context {num : Type} `{Number num}.
Variable Inv : State num -> Prop.
Hypothesis Inv_step : forall st st',
  Inv st -> cond st = true -> body st = Some st' -> Inv st' /\ advances st st'.

(** With one unit of fuel less than there are entries ahead of the cursors,
    the loop returns, and it adds fewer settlements than there are entries
    ahead. *)
Lemma advancing_terminates fuel (st : State num) :
  Inv st -> (remaining st <= S fuel)%nat ->
  exists st', while fuel st = Returned st' /\ Inv st' /\
    (length (settlements st')
     <= length (settlements st) + (remaining st - 1))%nat.
Proof using Inv_step.
  revert st. induction fuel as [|fuel IH]; intros st HI Hm.
  - rewrite while_unfold. destruct (cond st) eqn:Hc.
    + apply cond_true in Hc. unfold remaining in Hm. lia.
    + exists st. split; [done|]. split; [done|lia].
  - rewrite while_unfold.
    destruct (cond st) eqn:Hc; [|exists st; split; [done|split; [done|lia]]].
    destruct (body_defined st Hc) as [st1 Hb]. rewrite Hb.
    destruct (Inv_step _ _ HI Hc Hb) as [HI1 Hadv].
    destruct (body_lengths _ _ Hb) as [Hl1 Hl2].
    pose proof (body_cursors _ _ Hb) as [Hi Hj].
    pose proof (body_settlements_length _ _ Hb) as Hsl.
    apply cond_true in Hc as [Hci Hcj]. unfold advances in Hadv.
    assert (Hm1 : (remaining st1 < remaining st)%nat)
      by (unfold remaining; lia).
    destruct (IH st1 HI1) as (st' & Hw & HI' & Hlen); [lia|].
    exists st'. split; [done|]. split; [done|]. unfold remaining in *. lia.
Qed.

End Advancing.

(** * The loop on amounts of bounded magnitude *)

Section Binary64BoundedLoop.
Import Binary64.

Implicit Types (bal : list (string * float)) (st : State float).

Lemma bounded_step st st' :
  bounded_invariant st -> cond st = true -> body st = Some st' ->
  bounded_invariant st' /\ advances st st'.
Proof.
  intros [Id Ic] _ Hb.
  destruct (body_Some _ _ Hb)
    as (d & c & Hd & Hc & _ & Hds & Hcs & _ & Hi & Hj).
  destruct (Id _ _ Hd) as [_ Hdo]. rewrite decide_False in Hdo by lia.
  destruct (Ic _ _ Hc) as [_ Hco]. rewrite decide_False in Hco by lia.
  destruct (bounded_transfer (amount d) (amount c) Hdo Hco)
    as (Hn1 & Hn2 & Hd' & Hc' & Hadv & _).
  cbv zeta in Hi, Hj, Hds, Hcs. cbn [amount] in Hi, Hj.
  unfold transfer in *. cbn [num_add num_sub num_min num_abs number] in *.
  set (amt := round2 (js_min (PrimFloat.abs (amount d)) (amount c))) in *.
  split; [split|].
  - intros k e. rewrite Hds, Hi.
    destruct (decide (k = i st)) as [->|Hne].
    + rewrite list_lookup_insert_eq by by eapply lookup_lt_Some.
      intros [= <-]. cbn [amount]. split; [done|].
      destruct (within_cent (amount d + amt)%float).
      * by rewrite decide_True by lia.
      * by rewrite decide_False by lia.
    + rewrite list_lookup_insert_ne by done. intros He.
      destruct (Id _ _ He) as [Hn Hv]. split; [done|].
      destruct (decide (k < i st)%nat).
      * rewrite decide_True; [done|]. destruct (within_cent _); lia.
      * rewrite decide_False; [done|]. destruct (within_cent _); lia.
  - intros k e. rewrite Hcs, Hj.
    destruct (decide (k = j st)) as [->|Hne].
    + rewrite list_lookup_insert_eq by by eapply lookup_lt_Some.
      intros [= <-]. cbn [amount]. split; [done|].
      destruct (num_lt (amount c - amt)%float num_cent).
      * by rewrite decide_True by lia.
      * by rewrite decide_False by lia.
    + rewrite list_lookup_insert_ne by done. intros He.
      destruct (Ic _ _ He) as [Hn Hv]. split; [done|].
      destruct (decide (k < j st)%nat).
      * rewrite decide_True; [done|]. destruct (num_lt _ num_cent); lia.
      * rewrite decide_False; [done|]. destruct (num_lt _ num_cent); lia.
  - unfold advances. rewrite Hi, Hj. destruct Hadv as [-> | ->].
    + destruct (num_lt _ num_cent); lia.
    + destruct (within_cent _); lia.
Qed.

Lemma bounded_invariant_init bal :
  Forall (fun kv => small kv.2 = true) bal -> bounded_invariant (init bal).
Proof.
  intros Hs. rewrite Forall_forall in Hs.
  assert (Hi : i (init bal) = 0%nat) by by rewrite init_eq.
  assert (Hj : j (init bal) = 0%nat) by by rewrite init_eq.
  split; intros k e He%list_elem_of_lookup_2.
  - rewrite Hi, decide_False by lia.
    apply elem_of_init_debtors in He as [Hin He].
    apply Hs, small_value in Hin as [Hn Hv]. simpl in Hn, Hv.
    split; [done|]. apply (is_debtor_value _ Hn) in He. lia.
  - rewrite Hj, decide_False by lia.
    apply elem_of_init_creditors in He as [Hin He].
    apply Hs, small_value in Hin as [Hn Hv]. simpl in Hn, Hv.
    split; [done|]. apply (is_creditor_value _ Hn) in He. lia.
Qed.

Lemma bounded_reachable bal st :
  Forall (fun kv => small kv.2 = true) bal -> Reachable bal st ->
  bounded_invariant st.
Proof.
  intros Hs. induction 1 as [|st st' Hr IH Hc Hb].
  - by apply bounded_invariant_init.
  - by destruct (bounded_step _ _ IH Hc Hb).
Qed.

(** The loop returns within [debtorCount + creditorCount] iterations, with
    fewer settlements than that. *)
Lemma bounded_terminates bal :
  Forall (fun kv => small kv.2 = true) bal ->
  exists st,
    while (debtorCount bal + creditorCount bal) (init bal) = Returned st /\
    (length (settlements st) <= debtorCount bal + creditorCount bal - 1)%nat.
Proof.
  intros Hs.
  destruct (advancing_terminates bounded_invariant bounded_step
              (debtorCount bal + creditorCount bal) (init bal))
    as (st & Hw & _ & Hlen).
  - by apply bounded_invariant_init.
  - unfold remaining.
    rewrite init_debtors_length, init_creditors_length, init_eq. simpl. lia.
  - exists st. split; [done|]. revert Hlen. unfold remaining.
    rewrite init_debtors_length, init_creditors_length, init_eq. simpl. lia.
Qed.

End Binary64BoundedLoop.

(** * What the settlements leave of the balances *)

Section Residue.
Import Binary64.
Local Open Scope Z_scope.

Implicit Types (bal : list (string * float)) (st : State float).

Lemma lookup_amount_Some_elem p (l : list (Entry float)) x :
  lookup_amount p l = Some x ->
  exists k e, l !! k = Some e /\ person e = p /\ amount e = x.
Proof.
  induction l as [|e l IH]; simpl; [done|].
  destruct (decide (person e = p)) as [Hp|Hp].
  - intros [= <-]. by exists 0%nat, e.
  - intros (k & e' & Hk & He)%IH. by exists (S k), e'.
Qed.

Lemma lookup_amount_is_Some p (l : list (Entry float)) :
  p ∈ person <$> l -> is_Some (lookup_amount p l).
Proof.
  induction l as [|e l IH]; simpl; [by intros ?%elem_of_nil|].
  intros [Hp|Hp]%elem_of_cons.
  - rewrite decide_True by done. by eexists.
  - destruct (decide (person e = p)); [by eexists|by apply IH].
Qed.

(** *** Sums *)

Lemma exact_sum_cons kv bal : exact_sum (kv :: bal) = value64 kv.2 + exact_sum bal.
Proof. done. Qed.

(** Changing the balances of two participants changes the sum by the two
    differences. *)
Lemma sum_two_changes bal (f g : string * float -> string * float) pd pc x y :
  NoDup bal.*1 -> pd <> pc ->
  (forall kv, kv ∈ bal -> kv.1 = pd -> value64 (g kv).2 = value64 (f kv).2 + x) ->
  (forall kv, kv ∈ bal -> kv.1 = pc -> value64 (g kv).2 = value64 (f kv).2 + y) ->
  (forall kv, kv ∈ bal -> kv.1 <> pd -> kv.1 <> pc -> (g kv).2 = (f kv).2) ->
  exact_sum (g <$> bal)
  = exact_sum (f <$> bal)
    + (if decide (pd ∈ bal.*1) then x else 0)
    + (if decide (pc ∈ bal.*1) then y else 0).
Proof.
  intros Hnd Hne. induction bal as [|kv bal IH]; intros Hd Hc Ho.
  { rewrite !fmap_nil.
    do 2 (destruct (decide _) as [?%elem_of_nil|]; [done|]). done. }
  apply NoDup_cons in Hnd as [Hkv Hnd]. rewrite !fmap_cons, !exact_sum_cons.
  rewrite IH; [|done| | |]; cycle 1.
  { intros kv' Hin. apply Hd. by right. }
  { intros kv' Hin. apply Hc. by right. }
  { intros kv' Hin. apply Ho. by right. }
  assert (Hin : kv ∈ kv :: bal) by by left.
  destruct (decide (kv.1 = pd)) as [Hpd|Hpd];
    [|destruct (decide (kv.1 = pc)) as [Hpc|Hpc]].
  - rewrite (Hd kv Hin Hpd).
    rewrite (decide_True (P := pd ∈ kv.1 :: bal.*1)) by (rewrite Hpd; by left).
    rewrite (decide_False (P := pd ∈ bal.*1)) by by rewrite <- Hpd.
    assert (pc ∈ kv.1 :: bal.*1 <-> pc ∈ bal.*1) as Hiff.
    { rewrite elem_of_cons. split; [intros [?|?]; [congruence|done]|by right]. }
    destruct (decide (pc ∈ bal.*1)) as [H1|H1];
      destruct (decide (pc ∈ kv.1 :: bal.*1)) as [H2|H2]; try tauto; lia.
  - rewrite (Hc kv Hin Hpc).
    rewrite (decide_True (P := pc ∈ kv.1 :: bal.*1)) by (rewrite Hpc; by left).
    rewrite (decide_False (P := pc ∈ bal.*1)) by by rewrite <- Hpc.
    assert (pd ∈ kv.1 :: bal.*1 <-> pd ∈ bal.*1) as Hiff.
    { rewrite elem_of_cons. split; [intros [?|?]; [congruence|done]|by right]. }
    destruct (decide (pd ∈ bal.*1)) as [H1|H1];
      destruct (decide (pd ∈ kv.1 :: bal.*1)) as [H2|H2]; try tauto; lia.
  - rewrite (Ho kv Hin Hpd Hpc).
    assert (pd ∈ kv.1 :: bal.*1 <-> pd ∈ bal.*1) as Hiff1.
    { rewrite elem_of_cons. split; [intros [?|?]; [congruence|done]|by right]. }
    assert (pc ∈ kv.1 :: bal.*1 <-> pc ∈ bal.*1) as Hiff2.
    { rewrite elem_of_cons. split; [intros [?|?]; [congruence|done]|by right]. }
    destruct (decide (pd ∈ bal.*1)) as [H1|H1];
      destruct (decide (pd ∈ kv.1 :: bal.*1)) as [H2|H2]; try tauto;
      destruct (decide (pc ∈ bal.*1)) as [H3|H3];
      destruct (decide (pc ∈ kv.1 :: bal.*1)) as [H4|H4]; try tauto; lia.
Qed.

(** Every element at least [- c]: each is within the sum and [c] for every
    other element. *)
Lemma sum_lower (l : list (string * float)) c :
  Forall (fun kv => - c <= value64 kv.2) l ->
  - (Z.of_nat (length l) * c) <= exact_sum l.
Proof.
  induction 1 as [|kv l Hkv _ IH]; [done|].
  rewrite exact_sum_cons, length_cons, Nat2Z.inj_succ. lia.
Qed.

Lemma sum_upper (l : list (string * float)) c :
  Forall (fun kv => value64 kv.2 <= c) l ->
  exact_sum l <= Z.of_nat (length l) * c.
Proof.
  induction 1 as [|kv l Hkv _ IH]; [done|].
  rewrite exact_sum_cons, length_cons, Nat2Z.inj_succ. lia.
Qed.

Lemma exact_sum_app l1 l2 : exact_sum (l1 ++ l2) = exact_sum l1 + exact_sum l2.
Proof.
  induction l1 as [|kv l1 IH]; [done|].
  rewrite <- app_comm_cons, !exact_sum_cons, IH. lia.
Qed.

Lemma bound_from_below (l : list (string * float)) c kv :
  0 <= c -> Forall (fun kv => - c <= value64 kv.2) l -> kv ∈ l ->
  Z.abs (value64 kv.2) <= Z.abs (exact_sum l) + (Z.of_nat (length l) - 1) * c.
Proof.
  intros Hc Hall (l1 & l2 & ->)%list_elem_of_split.
  apply Forall_app in Hall as [H1 [Hkv H2]%Forall_cons].
  apply sum_lower in H1, H2.
  rewrite exact_sum_app, exact_sum_cons, length_app, length_cons.
  rewrite Nat2Z.inj_add, Nat2Z.inj_succ.
  pose proof (Nat2Z.is_nonneg (length l1)). pose proof (Nat2Z.is_nonneg (length l2)).
  set (n1 := Z.of_nat (length l1)) in *. set (n2 := Z.of_nat (length l2)) in *.
  replace ((n1 + Z.succ n2 - 1) * c) with (n1 * c + n2 * c) by lia.
  destruct (Z_le_gt_dec 0 (value64 kv.2)); [lia|].
  destruct (Z.eq_dec (n1 + n2) 0) as [Hz|Hz].
  - assert (n1 = 0) as Hn1 by lia. assert (n2 = 0) as Hn2 by lia.
    rewrite Hn1, Hn2. destruct l1; [|done]. destruct l2; [|done].
    change (exact_sum []) with 0. lia.
  - assert (c <= (n1 + n2) * c).
    { replace c with (1 * c) at 1 by lia. apply Z.mul_le_mono_nonneg_r; lia. }
    lia.
Qed.

Lemma bound_from_above (l : list (string * float)) c kv :
  0 <= c -> Forall (fun kv => value64 kv.2 <= c) l -> kv ∈ l ->
  Z.abs (value64 kv.2) <= Z.abs (exact_sum l) + (Z.of_nat (length l) - 1) * c.
Proof.
  intros Hc Hall (l1 & l2 & ->)%list_elem_of_split.
  apply Forall_app in Hall as [H1 [Hkv H2]%Forall_cons].
  apply sum_upper in H1, H2.
  rewrite exact_sum_app, exact_sum_cons, length_app, length_cons.
  rewrite Nat2Z.inj_add, Nat2Z.inj_succ.
  pose proof (Nat2Z.is_nonneg (length l1)). pose proof (Nat2Z.is_nonneg (length l2)).
  set (n1 := Z.of_nat (length l1)) in *. set (n2 := Z.of_nat (length l2)) in *.
  replace ((n1 + Z.succ n2 - 1) * c) with (n1 * c + n2 * c) by lia.
  destruct (Z_le_gt_dec (value64 kv.2) 0); [lia|].
  destruct (Z.eq_dec (n1 + n2) 0) as [Hz|Hz].
  - assert (n1 = 0) as Hn1 by lia. assert (n2 = 0) as Hn2 by lia.
    rewrite Hn1, Hn2. destruct l1; [|done]. destruct l2; [|done].
    change (exact_sum []) with 0. lia.
  - assert (c <= (n1 + n2) * c).
    { replace c with (1 * c) at 1 by lia. apply Z.mul_le_mono_nonneg_r; lia. }
    lia.
Qed.

End Residue.

Section ResidueLoop.
Import Binary64.
Local Open Scope Z_scope.

Implicit Types (bal : list (string * float)) (st : State float).

(** How one iteration changes the balance of each participant. *)
Lemma current_step bal st st' d c :
  NoDup bal.*1 -> Reachable bal st -> body st = Some st' ->
  debtors st !! i st = Some d -> creditors st !! j st = Some c ->
  person d <> person c /\ person d ∈ bal.*1 /\ person c ∈ bal.*1 /\
  forall kv : string * float,
    (kv.1 = person d ->
       (current st kv).2 = amount d /\
       (current st' kv).2 = (amount d + transfer d c)%float) /\
    (kv.1 = person c ->
       (current st kv).2 = amount c /\
       (current st' kv).2 = (amount c - transfer d c)%float) /\
    (kv.1 <> person d -> kv.1 <> person c ->
       (current st' kv).2 = (current st kv).2).
Proof.
  intros Hnd Hr Hb Hd Hc.
  destruct (reachable_persons _ _ Hr) as [Hpd Hpc].
  assert (Hnd1 : NoDup (person <$> debtors st))
    by (rewrite Hpd; by apply init_debtors_NoDup).
  assert (Hnd2 : NoDup (person <$> creditors st))
    by (rewrite Hpc; by apply init_creditors_NoDup).
  destruct (body_Some _ _ Hb) as (d0 & c0 & Hd0 & Hc0 & _ & Hds & Hcs & _).
  rewrite Hd in Hd0. rewrite Hc in Hc0.
  injection Hd0 as <-. injection Hc0 as <-. cbv zeta in Hds, Hcs.
  cbn [num_add num_sub number] in Hds, Hcs.
  assert (Hdp : person d ∈ person <$> debtors (init bal)).
  { rewrite <- Hpd. apply list_elem_of_fmap. exists d. split; [done|].
    by eapply list_elem_of_lookup_2. }
  assert (Hcp : person c ∈ person <$> creditors (init bal)).
  { rewrite <- Hpc. apply list_elem_of_fmap. exists c. split; [done|].
    by eapply list_elem_of_lookup_2. }
  assert (Hne : person d <> person c).
  { intros Heq. apply (init_disjoint bal (person d) Hnd); [done|].
    by rewrite Heq. }
  split; [done|]. split; [|split].
  { apply list_elem_of_fmap in Hdp as (e & -> & [He _]%elem_of_init_debtors).
    apply list_elem_of_fmap. by exists (person e, amount e). }
  { apply list_elem_of_fmap in Hcp as (e & -> & [He _]%elem_of_init_creditors).
    apply list_elem_of_fmap. by exists (person e, amount e). }
  intros [p a]. unfold current. cbn [fst snd]. rewrite Hds, Hcs.
  split; [|split].
  - intros ->. rewrite (lookup_amount_lookup _ _ _ Hnd1 Hd).
    by rewrite (lookup_amount_insert_eq _ _ _ _ Hnd1 Hd).
  - intros ->.
    rewrite (lookup_amount_insert_ne _ _ _ _ _ Hd) by done.
    rewrite (lookup_amount_None (person c) (debtors st)).
    2:{ rewrite Hpd. intros Hin. by apply (init_disjoint bal (person c) Hnd Hin). }
    cbn [default id].
    rewrite (lookup_amount_lookup _ _ _ Hnd2 Hc).
    by rewrite (lookup_amount_insert_eq _ _ _ _ Hnd2 Hc).
  - intros Hp1 Hp2.
    rewrite (lookup_amount_insert_ne _ _ _ _ _ Hd Hp1).
    by rewrite (lookup_amount_insert_ne _ _ _ _ _ Hc Hp2).
Qed.

(** The balances drift from their exact sum by at most [2 ^ -10] for every
    settlement. *)
Lemma reachable_drift bal st :
  NoDup bal.*1 -> Forall (fun kv => small kv.2 = true) bal ->
  Reachable bal st ->
  Z.abs (exact_sum (current st <$> bal) - exact_sum bal)
  <= Z.of_nat (length (settlements st)) * 2 ^ 1064.
Proof.
  intros Hnd Hs. induction 1 as [|st st' Hr IH Hcnd Hb].
  - assert (current (init bal) <$> bal = bal) as ->.
    { transitivity (id <$> bal); [|apply list_fmap_id]. apply list_fmap_ext.
      intros k kv Hin%list_elem_of_lookup_2. by apply current_init. }
    rewrite Z.sub_diag. rewrite init_eq. simpl. lia.
  - destruct (bounded_reachable _ _ Hs Hr) as [Id Ic].
    destruct (body_Some _ _ Hb) as (d & c & Hd & Hc & _).
    destruct (Id _ _ Hd) as [_ Hdo]. rewrite decide_False in Hdo by lia.
    destruct (Ic _ _ Hc) as [_ Hco]. rewrite decide_False in Hco by lia.
    destruct (bounded_transfer (amount d) (amount c) Hdo Hco)
      as (_ & _ & _ & _ & _ & Hdrift).
    destruct (current_step _ _ _ _ _ Hnd Hr Hb Hd Hc) as (Hne & Hpd & Hpc & Hcur).
    unfold transfer in Hcur. cbn [num_min num_abs number] in Hcur.
    set (amt := round2 (js_min (PrimFloat.abs (amount d)) (amount c))) in *.
    rewrite (sum_two_changes bal (current st) (current st') (person d) (person c)
               (value64 (amount d + amt)%float - value64 (amount d))
               (value64 (amount c - amt)%float - value64 (amount c)) Hnd Hne).
    + rewrite !decide_True by done.
      rewrite (body_settlements_length _ _ Hb), Nat2Z.inj_succ. lia.
    + intros kv _ Hkv. destruct (Hcur kv) as ((-> & ->) & _); [done|]. lia.
    + intros kv _ Hkv. destruct (Hcur kv) as (_ & (-> & ->) & _); [done|]. lia.
    + intros kv _ H1 H2. destruct (Hcur kv) as (_ & _ & H3). by apply H3.
Qed.

(** Where the balance of a participant can be: within 0.01 of zero, or at
    most -0.01 on a debtor the loop has not passed, or at least 0.01 on a
    creditor the loop has not passed. *)
Lemma current_bounds bal st kv :
  NoDup bal.*1 -> Forall (fun kv => small kv.2 = true) bal ->
  Reachable bal st -> kv ∈ bal ->
  Prim2SF (current st kv).2 <> S754_nan /\
  (Z.abs (value64 (current st kv).2) <= cent_value \/
   ((i st < length (debtors st))%nat /\ value64 (current st kv).2 <= - cent_value) \/
   ((j st < length (creditors st))%nat /\ cent_value <= value64 (current st kv).2)).
Proof.
  intros Hnd Hs Hr Hin.
  destruct (bounded_reachable _ _ Hs Hr) as [Id Ic].
  destruct (reachable_persons _ _ Hr) as [Hpd Hpc].
  destruct kv as [p a]. unfold current. cbn [fst snd].
  destruct (lookup_amount p (debtors st)) as [x|] eqn:E1; cbn [default id].
  { apply lookup_amount_Some_elem in E1 as (k & e & Hk & _ & <-).
    destruct (Id _ _ Hk) as [Hn Hv]. split; [done|].
    destruct (decide (k < i st)%nat); [left; lia|right; left].
    apply lookup_lt_Some in Hk. split; lia. }
  destruct (lookup_amount p (creditors st)) as [y|] eqn:E2; cbn [default id].
  { apply lookup_amount_Some_elem in E2 as (k & e & Hk & _ & <-).
    destruct (Ic _ _ Hk) as [Hn Hv]. split; [done|].
    destruct (decide (k < j st)%nat); [left; lia|right; right].
    apply lookup_lt_Some in Hk. split; lia. }
  pose proof (proj1 (small_value _) (proj1 (Forall_forall _ _) Hs _ Hin)) as [Hn _].
  cbn [snd] in Hn. split; [done|]. left.
  assert (Hd : ~ value64 a < - cent_value).
  { intros H%(is_debtor_value _ Hn).
    assert (Hp : p ∈ person <$> debtors st).
    { rewrite Hpd. apply list_elem_of_fmap. exists (mkEntry p a).
      split; [done|]. by apply elem_of_init_debtors. }
    apply lookup_amount_is_Some in Hp as [? Hp]. congruence. }
  assert (Hc : ~ cent_value < value64 a).
  { intros H%(is_creditor_value _ Hn).
    assert (Hp : p ∈ person <$> creditors st).
    { rewrite Hpc. apply list_elem_of_fmap. exists (mkEntry p a).
      split; [done|]. by apply elem_of_init_creditors. }
    apply lookup_amount_is_Some in Hp as [? Hp]. congruence. }
  lia.
Qed.

(** When the loop has ended, every balance is within the imbalance of the
    input, 0.01 for every other participant and the drift. *)
Lemma returned_residue bal st kv :
  NoDup bal.*1 -> Forall (fun kv => small kv.2 = true) bal ->
  Reachable bal st -> cond st = false -> kv ∈ bal ->
  Z.abs (value64 (current st kv).2)
  <= Z.abs (exact_sum bal) + (Z.of_nat (length bal) - 1) * cent_value
     + Z.of_nat (length (settlements st)) * 2 ^ 1064.
Proof.
  intros Hnd Hs Hr Hc Hin.
  pose proof (reachable_drift _ _ Hnd Hs Hr) as Hdrift.
  assert (H0 : 0 <= cent_value) by (rewrite cent_value_eq; lia).
  assert (Hin' : current st kv ∈ current st <$> bal)
    by (apply list_elem_of_fmap; by exists kv).
  assert (Hex : (length (debtors st) <= i st)%nat \/
                (length (creditors st) <= j st)%nat).
  { destruct (decide (i st < length (debtors st))%nat);
      destruct (decide (j st < length (creditors st))%nat); try lia.
    assert (cond st = true) by by apply cond_true. congruence. }
  assert (Hb : Z.abs (value64 (current st kv).2)
               <= Z.abs (exact_sum (current st <$> bal))
                  + (Z.of_nat (length (current st <$> bal)) - 1) * cent_value).
  { destruct Hex as [Hex|Hex].
    - apply bound_from_below; [done| |done].
      apply Forall_fmap, Forall_forall. intros kv' Hkv'. unfold compose. cbn beta.
      destruct (current_bounds _ _ _ Hnd Hs Hr Hkv') as [_ [?|[[? ?]|[? ?]]]]; lia.
    - apply bound_from_above; [done| |done].
      apply Forall_fmap, Forall_forall. intros kv' Hkv'. unfold compose. cbn beta.
      destruct (current_bounds _ _ _ Hnd Hs Hr Hkv') as [_ [?|[[? ?]|[? ?]]]]; lia. }
  rewrite length_fmap in Hb. lia.
Qed.

End ResidueLoop.

(** * [simplifyDebts] on the heap *)

Section HeapFacts.
Import Binary64.

Implicit Types (h : list Object) (r : nat).

(** *** The primitives *)

Lemma bind_Returned {A B : Type} (m : Run A) (f : A -> Run B) h a h' :
  m h = (Returned a, h') -> (m ≫= f) h = f a h'.
Proof. intros Hm. unfold mbind, run_bind. by rewrite Hm. Qed.

Lemma entries_spec h r props :
  h !! r = Some (Mapping props) -> entries r h = (Returned props, h).
Proof. intros Hr. unfold entries, mbind, run_bind, load. by rewrite Hr. Qed.

Lemma elements_spec h r es :
  h !! r = Some (Array es) -> elements r h = (Returned es, h).
Proof. intros Hr. unfold elements, mbind, run_bind, load. by rewrite Hr. Qed.

Lemma push_spec h arr es r :
  h !! arr = Some (Array es) ->
  push arr r h = (Returned tt, <[arr := Array (es ++ [r])]> h).
Proof.
  intros Hr. unfold push. by rewrite (bind_Returned _ _ _ _ _ (elements_spec _ _ _ Hr)).
Qed.

Lemma element_spec h arr es k r :
  h !! arr = Some (Array es) -> es !! k = Some r ->
  element arr k h = (Returned r, h).
Proof.
  intros Hr Hk. unfold element.
  rewrite (bind_Returned _ _ _ _ _ (elements_spec _ _ _ Hr)). by rewrite Hk.
Qed.

Lemma get_person_spec h r p a :
  h !! r = Some (Party p a) -> get_person r h = (Returned p, h).
Proof. intros Hr. unfold get_person, mbind, run_bind, load. by rewrite Hr. Qed.

Lemma get_amount_spec h r p a :
  h !! r = Some (Party p a) -> get_amount r h = (Returned a, h).
Proof. intros Hr. unfold get_amount, mbind, run_bind, load. by rewrite Hr. Qed.

Lemma set_amount_spec h r p a a' :
  h !! r = Some (Party p a) ->
  set_amount r a' h = (Returned tt, <[r := Party p a']> h).
Proof. intros Hr. unfold set_amount, mbind, run_bind, load. by rewrite Hr. Qed.

Lemma amount_in_spec h r p a : h !! r = Some (Party p a) -> amount_in h r = a.
Proof. intros Hr. unfold amount_in. by rewrite Hr. Qed.

(** *** Lists of references and what they refer to *)

Lemma refer_length {A} (f : A -> Object) h rs l : refer f h rs l -> length rs = length l.
Proof. apply Forall2_length. Qed.

Lemma refer_lookup {A} (f : A -> Object) h rs l k r :
  refer f h rs l -> rs !! k = Some r ->
  exists x, l !! k = Some x /\ h !! r = Some (f x).
Proof. intros Hf Hk. by destruct (Forall2_lookup_l _ _ _ _ _ Hf Hk) as (x & ? & ?); exists x. Qed.

Lemma refer_elem_of {A} (f : A -> Object) h rs l r :
  refer f h rs l -> r ∈ rs -> exists x, h !! r = Some (f x).
Proof.
  intros Hf [k Hk]%list_elem_of_lookup.
  destruct (refer_lookup _ _ _ _ _ _ Hf Hk) as (x & _ & ?). by exists x.
Qed.

(** What the references refer to stays when the heap changes elsewhere. *)
Lemma refer_agree {A} (f : A -> Object) h h' rs l :
  (forall r, r ∈ rs -> h' !! r = h !! r) -> refer f h rs l -> refer f h' rs l.
Proof.
  intros Hag Hf. unfold refer in *.
  induction Hf as [|r x rs l Hr Hf IH]; [constructor|].
  constructor.
  - rewrite Hag; [done|by left].
  - apply IH. intros r' Hr'. apply Hag. by right.
Qed.

Lemma refer_snoc {A} (f : A -> Object) h rs l r x :
  refer f h rs l -> h !! r = Some (f x) -> refer f h (rs ++ [r]) (l ++ [x]).
Proof. intros Hf Hr. apply Forall2_app; [done|]. by constructor. Qed.

Lemma refer_insert {A} (f : A -> Object) h h' rs l k r x :
  refer f h rs l -> NoDup rs -> rs !! k = Some r ->
  (forall r', r' ∈ rs -> r' <> r -> h' !! r' = h !! r') ->
  h' !! r = Some (f x) ->
  refer f h' rs (<[k := x]> l).
Proof.
  intros Hf Hnd Hk Hag Hr. unfold refer in *.
  apply Forall2_same_length_lookup. split.
  - rewrite length_insert. by eapply Forall2_length.
  - intros k' r' x' Hk' Hx'.
    destruct (decide (k' = k)) as [->|Hne].
    + rewrite Hk in Hk'. injection Hk' as <-.
      rewrite list_lookup_insert_eq in Hx'.
      * by injection Hx' as <-.
      * rewrite <- (Forall2_length _ _ _ Hf). by eapply lookup_lt_Some.
    + rewrite list_lookup_insert_ne in Hx' by done.
      rewrite Hag.
      * by eapply (Forall2_lookup_lr _ _ _ _ _ _ Hf).
      * by eapply list_elem_of_lookup_2.
      * intros ->. apply Hne. by eapply NoDup_lookup.
Qed.

(** *** Sorting references sorts what they refer to *)

Lemma insert_ref_perm cmp x l : insert_ref cmp x l ≡ₚ x :: l.
Proof.
  induction l as [|y l IH]; simpl; [done|].
  destruct (PrimFloat.ltb 0 (cmp x y)); [|done].
  rewrite IH. apply Permutation_swap.
Qed.

Lemma sort_ref_perm cmp l : foldr (insert_ref cmp) [] l ≡ₚ l.
Proof.
  induction l as [|x l IH]; simpl; [done|].
  by rewrite insert_ref_perm, IH.
Qed.

Lemma insert_ref_refer h (cmpR : nat -> nat -> float)
    (cmpE : Entry float -> Entry float -> float) x e rs l :
  (forall r1 e1 r2 e2, h !! r1 = Some (party e1) -> h !! r2 = Some (party e2) ->
                       cmpR r1 r2 = cmpE e1 e2) ->
  h !! x = Some (party e) -> refer party h rs l ->
  refer party h (insert_ref cmpR x rs) (insert_by cmpE e l).
Proof.
  intros Hcmp Hx Hf. unfold refer in *.
  induction Hf as [|r y rs l Hr Hf IH]; simpl.
  - by repeat constructor.
  - rewrite (Hcmp _ _ _ _ Hx Hr). unfold num_gt. cbn [num_lt num_zero number].
    destruct (PrimFloat.ltb 0 (cmpE e y)).
    + by constructor.
    + by repeat constructor.
Qed.

Lemma sort_ref_refer h (cmpR : nat -> nat -> float)
    (cmpE : Entry float -> Entry float -> float) rs l :
  (forall r1 e1 r2 e2, h !! r1 = Some (party e1) -> h !! r2 = Some (party e2) ->
                       cmpR r1 r2 = cmpE e1 e2) ->
  refer party h rs l ->
  refer party h (foldr (insert_ref cmpR) [] rs) (sort_by cmpE l).
Proof.
  intros Hcmp Hf. unfold refer, sort_by in *.
  induction Hf as [|r y rs l Hr Hf IH]; simpl; [constructor|].
  by apply insert_ref_refer.
Qed.

End HeapFacts.

Section HeapLists.
Import Binary64.

Implicit Types (h : list Object) (r : nat).

(** *** Allocating and writing leave the other objects alone *)

Lemma lookup_alloc_store h arr o o' r :
  r <> arr -> (r < length h)%nat ->
  (<[arr := o']> (h ++ [o])) !! r = h !! r.
Proof.
  intros Hne Hlt. rewrite list_lookup_insert_ne by done. by apply lookup_app_l.
Qed.

Lemma lookup_alloc_store_new h arr o o' :
  (arr < length h)%nat -> (<[arr := o']> (h ++ [o])) !! length h = Some o.
Proof.
  intros Hlt. rewrite list_lookup_insert_ne by lia. by apply list_lookup_middle.
Qed.

Lemma lookup_alloc_store_arr h arr o o' :
  (arr < length h)%nat -> (<[arr := o']> (h ++ [o])) !! arr = Some o'.
Proof.
  intros Hlt. apply list_lookup_insert_eq. rewrite length_app. lia.
Qed.

Lemma alloc_push_spec h arr es o :
  h !! arr = Some (Array es) ->
  (alloc o ≫= (fun r => push arr r)) h
  = (Returned tt, <[arr := Array (es ++ [length h])]> (h ++ [o])).
Proof.
  intros Harr. rewrite (bind_Returned _ _ h (length h) (h ++ [o])) by done.
  assert (Harr' : (h ++ [o]) !! arr = Some (Array es)).
  { rewrite lookup_app_l; [done|]. by eapply lookup_lt_Some. }
  by rewrite (push_spec _ _ _ _ Harr').
Qed.

(** *** The two arrays *)

Lemma lists_ref n h dArr cArr ds cs dl cl r :
  Lists n h dArr cArr ds cs dl cl -> r ∈ ds ++ cs ->
  (exists e, h !! r = Some (party e)) /\ r <> dArr /\ r <> cArr /\
  (r < length h)%nat /\ (n <= r)%nat.
Proof.
  intros [Hd Hc Hne Hdl Hcl Hnd Hnew] Hr.
  assert (He : exists e, h !! r = Some (party e)).
  { apply elem_of_app in Hr as [Hr|Hr].
    - exact (refer_elem_of party _ _ _ _ Hdl Hr).
    - exact (refer_elem_of party _ _ _ _ Hcl Hr). }
  destruct He as [e He]. split; [by exists e|]. unfold party in He.
  split; [intros ->; congruence|]. split; [intros ->; congruence|].
  split; [by eapply lookup_lt_Some|].
  apply Forall_cons in Hnew as [_ [_ Hnew]%Forall_cons].
  by apply (proj1 (Forall_forall _ _) Hnew).
Qed.

Lemma lists_arrays n h dArr cArr ds cs dl cl :
  Lists n h dArr cArr ds cs dl cl ->
  (dArr < length h)%nat /\ (cArr < length h)%nat /\
  (n <= dArr)%nat /\ (n <= cArr)%nat.
Proof.
  intros [Hd Hc Hne Hdl Hcl Hnd Hnew].
  apply Forall_cons in Hnew as [? [? _]%Forall_cons].
  repeat split; try done; by eapply lookup_lt_Some.
Qed.

(** [debtors.push({ person, amount })] *)
Lemma lists_push_debtor n h dArr cArr ds cs dl cl p a :
  Lists n h dArr cArr ds cs dl cl ->
  Lists n (<[dArr := Array (ds ++ [length h])]> (h ++ [Party p a])) dArr cArr
        (ds ++ [length h]) cs (dl ++ [mkEntry p a]) cl.
Proof.
  intros HL. destruct (lists_arrays _ _ _ _ _ _ _ _ HL) as (Hd1 & Hc1 & Hd2 & Hc2).
  pose proof (fun r Hr => lists_ref _ _ _ _ _ _ _ _ r HL Hr) as Href.
  destruct HL as [Hd Hc Hne Hdl Hcl Hnd Hnew].
  assert (Hag : forall r, r ∈ ds ++ cs ->
            (<[dArr := Array (ds ++ [length h])]> (h ++ [Party p a])) !! r = h !! r).
  { intros r (_ & ? & _ & ? & _)%Href. by apply lookup_alloc_store. }
  split.
  - by apply lookup_alloc_store_arr.
  - rewrite lookup_alloc_store; done.
  - done.
  - apply refer_snoc.
    + eapply refer_agree; [|done]. intros r Hr. apply Hag, elem_of_app. by left.
    + by apply lookup_alloc_store_new.
  - eapply refer_agree; [|done]. intros r Hr. apply Hag, elem_of_app. by right.
  - rewrite <- app_assoc. rewrite (Permutation_app_comm [length h] cs), app_assoc.
    rewrite Permutation_app_comm. simpl. apply NoDup_cons. split; [|done].
    intros (_ & _ & _ & ? & _)%Href. lia.
  - apply Forall_cons in Hnew as [? [? Hnew]%Forall_cons].
    repeat (apply Forall_cons; split; [done|]).
    rewrite <- app_assoc. apply Forall_app in Hnew as [H1 H2].
    apply Forall_app. split; [done|]. apply Forall_cons. split; [lia|done].
Qed.

(** [creditors.push({ person, amount })] *)
Lemma lists_push_creditor n h dArr cArr ds cs dl cl p a :
  Lists n h dArr cArr ds cs dl cl ->
  Lists n (<[cArr := Array (cs ++ [length h])]> (h ++ [Party p a])) dArr cArr
        ds (cs ++ [length h]) dl (cl ++ [mkEntry p a]).
Proof.
  intros HL. destruct (lists_arrays _ _ _ _ _ _ _ _ HL) as (Hd1 & Hc1 & Hd2 & Hc2).
  pose proof (fun r Hr => lists_ref _ _ _ _ _ _ _ _ r HL Hr) as Href.
  destruct HL as [Hd Hc Hne Hdl Hcl Hnd Hnew].
  assert (Hag : forall r, r ∈ ds ++ cs ->
            (<[cArr := Array (cs ++ [length h])]> (h ++ [Party p a])) !! r = h !! r).
  { intros r (_ & _ & ? & ? & _)%Href. by apply lookup_alloc_store. }
  split.
  - rewrite lookup_alloc_store; done.
  - by apply lookup_alloc_store_arr.
  - done.
  - eapply refer_agree; [|done]. intros r Hr. apply Hag, elem_of_app. by left.
  - apply refer_snoc.
    + eapply refer_agree; [|done]. intros r Hr. apply Hag, elem_of_app. by right.
    + by apply lookup_alloc_store_new.
  - rewrite app_assoc, Permutation_app_comm. simpl. apply NoDup_cons.
    split; [|done]. intros (_ & _ & _ & ? & _)%Href. lia.
  - apply Forall_cons in Hnew as [? [? Hnew]%Forall_cons].
    repeat (apply Forall_cons; split; [done|]).
    rewrite app_assoc. apply Forall_app. split; [done|].
    apply Forall_cons. split; [lia|done].
Qed.

Lemma same_below_refl n h : same_below n h h.
Proof. by intros r _. Qed.

Lemma same_below_trans n h1 h2 h3 :
  same_below n h1 h2 -> same_below n h2 h3 -> same_below n h1 h3.
Proof. intros H1 H2 r Hr. by rewrite H2, H1. Qed.

End HeapLists.

Section HeapRun.
Import Binary64.

Implicit Types (h : list Object) (r : nat).

(** *** Step 1 on the heap *)

Lemma separate_spec (l : list (string * float)) :
  forall n h dArr cArr ds cs dl cl,
  Lists n h dArr cArr ds cs dl cl ->
  exists h' ds' cs',
    separate dArr cArr l h = (Returned tt, h') /\
    Lists n h' dArr cArr ds' cs'
      (dl ++ omap debtor_entry l) (cl ++ omap creditor_entry l) /\
    same_below n h h'.
Proof.
  induction l as [|[p a] l IH]; intros n h dArr cArr ds cs dl cl HL.
  { exists h, ds, cs. simpl. rewrite !app_nil_r. split; [done|].
    split; [done|]. apply same_below_refl. }
  assert (Ed : omap debtor_entry ((p, a) :: l)
               = (if PrimFloat.ltb a (PrimFloat.opp 0x1.47ae147ae147bp-7)
                  then [mkEntry p a] else []) ++ omap debtor_entry l).
  { change (omap debtor_entry ((p, a) :: l))
      with (match debtor_entry (p, a) with
            | Some y => y :: omap debtor_entry l
            | None => omap debtor_entry l
            end).
    unfold debtor_entry at 1, is_debtor.
    cbn [fst snd num_lt num_neg num_cent number].
    by destruct (PrimFloat.ltb a _). }
  assert (Ec : omap creditor_entry ((p, a) :: l)
               = (if PrimFloat.ltb 0x1.47ae147ae147bp-7 a
                  then [mkEntry p a] else []) ++ omap creditor_entry l).
  { change (omap creditor_entry ((p, a) :: l))
      with (match creditor_entry (p, a) with
            | Some y => y :: omap creditor_entry l
            | None => omap creditor_entry l
            end).
    unfold creditor_entry at 1, is_creditor, num_gt.
    cbn [fst snd num_lt num_cent number].
    by destruct (PrimFloat.ltb _ a). }
  rewrite Ed, Ec. clear Ed Ec. cbn [separate].
  (* the debtor's turn *)
  assert (H1 : exists h1 ds1,
    (if PrimFloat.ltb a (PrimFloat.opp 0x1.47ae147ae147bp-7)
     then alloc (Party p a) ≫= (fun r => push dArr r) else mret tt) h
    = (Returned tt, h1) /\
    Lists n h1 dArr cArr ds1 cs
      (dl ++ (if PrimFloat.ltb a (PrimFloat.opp 0x1.47ae147ae147bp-7)
              then [mkEntry p a] else [])) cl /\
    same_below n h h1).
  { destruct (PrimFloat.ltb a _).
    - eexists _, _. split; [apply alloc_push_spec, HL|].
      split; [by apply lists_push_debtor|].
      destruct (lists_arrays _ _ _ _ _ _ _ _ HL) as (? & _ & ? & _).
      intros r Hr. apply lookup_alloc_store; lia.
    - exists h, ds. rewrite app_nil_r. split; [done|]. split; [done|].
      apply same_below_refl. }
  destruct H1 as (h1 & ds1 & Hrun1 & HL1 & Hsame1).
  (* the creditor's turn *)
  assert (H2 : exists h2 cs2,
    (if PrimFloat.ltb 0x1.47ae147ae147bp-7 a
     then alloc (Party p a) ≫= (fun r => push cArr r) else mret tt) h1
    = (Returned tt, h2) /\
    Lists n h2 dArr cArr ds1 cs2
      (dl ++ (if PrimFloat.ltb a (PrimFloat.opp 0x1.47ae147ae147bp-7)
              then [mkEntry p a] else []))
      (cl ++ (if PrimFloat.ltb 0x1.47ae147ae147bp-7 a
              then [mkEntry p a] else [])) /\
    same_below n h1 h2).
  { destruct (PrimFloat.ltb 0x1.47ae147ae147bp-7 a).
    - eexists _, _. split; [apply alloc_push_spec, HL1|].
      split; [by apply lists_push_creditor|].
      destruct (lists_arrays _ _ _ _ _ _ _ _ HL1) as (_ & ? & _ & ?).
      intros r Hr. apply lookup_alloc_store; lia.
    - exists h1, cs. rewrite app_nil_r. split; [done|]. split; [done|].
      apply same_below_refl. }
  destruct H2 as (h2 & cs2 & Hrun2 & HL2 & Hsame2).
  destruct (IH _ _ _ _ _ _ _ _ HL2) as (h' & ds' & cs' & Hrun & HL' & Hsame).
  exists h', ds', cs'. split; [|split].
  - rewrite (bind_Returned _ _ h tt h1 Hrun1).
    rewrite (bind_Returned _ _ h1 tt h2 Hrun2). exact Hrun.
  - rewrite <- !app_assoc in HL'. exact HL'.
  - eauto using same_below_trans.
Qed.

(** *** Step 2 on the heap *)

Lemma sort_debtors_spec n h dArr cArr ds cs dl cl cmpR cmpE :
  Lists n h dArr cArr ds cs dl cl ->
  (forall r1 e1 r2 e2, h !! r1 = Some (party e1) -> h !! r2 = Some (party e2) ->
                       cmpR h r1 r2 = cmpE e1 e2) ->
  exists h' ds',
    sort dArr cmpR h = (Returned tt, h') /\
    Lists n h' dArr cArr ds' cs (sort_by cmpE dl) cl /\
    same_below n h h'.
Proof.
  intros HL Hcmp. destruct (lists_arrays _ _ _ _ _ _ _ _ HL) as (Hd1 & Hc1 & Hd2 & Hc2).
  pose proof (fun r Hr => lists_ref _ _ _ _ _ _ _ _ r HL Hr) as Href.
  destruct HL as [Hd Hc Hne Hdl Hcl Hnd Hnew].
  set (ds' := foldr (insert_ref (cmpR h)) [] ds).
  assert (Hperm : ds' ≡ₚ ds) by apply sort_ref_perm.
  exists (<[dArr := Array ds']> h), ds'. split; [|split].
  - unfold sort. rewrite (bind_Returned _ _ h h h) by done.
    by rewrite (bind_Returned _ _ _ _ _ (elements_spec _ _ _ Hd)).
  - assert (Hag : forall r, r ∈ ds ++ cs -> (<[dArr := Array ds']> h) !! r = h !! r).
    { intros r (_ & ? & _)%Href. by apply list_lookup_insert_ne. }
    split.
    + by apply list_lookup_insert_eq.
    + by rewrite list_lookup_insert_ne.
    + done.
    + eapply refer_agree; [|by apply sort_ref_refer].
      intros r Hr. apply Hag, elem_of_app. left. by rewrite <- Hperm.
    + eapply refer_agree; [|done]. intros r Hr. apply Hag, elem_of_app. by right.
    + by rewrite Hperm.
    + by rewrite Hperm.
  - intros r Hr. apply list_lookup_insert_ne. lia.
Qed.

Lemma sort_creditors_spec n h dArr cArr ds cs dl cl cmpR cmpE :
  Lists n h dArr cArr ds cs dl cl ->
  (forall r1 e1 r2 e2, h !! r1 = Some (party e1) -> h !! r2 = Some (party e2) ->
                       cmpR h r1 r2 = cmpE e1 e2) ->
  exists h' cs',
    sort cArr cmpR h = (Returned tt, h') /\
    Lists n h' dArr cArr ds cs' dl (sort_by cmpE cl) /\
    same_below n h h'.
Proof.
  intros HL Hcmp. destruct (lists_arrays _ _ _ _ _ _ _ _ HL) as (Hd1 & Hc1 & Hd2 & Hc2).
  pose proof (fun r Hr => lists_ref _ _ _ _ _ _ _ _ r HL Hr) as Href.
  destruct HL as [Hd Hc Hne Hdl Hcl Hnd Hnew].
  set (cs' := foldr (insert_ref (cmpR h)) [] cs).
  assert (Hperm : cs' ≡ₚ cs) by apply sort_ref_perm.
  exists (<[cArr := Array cs']> h), cs'. split; [|split].
  - unfold sort. rewrite (bind_Returned _ _ h h h) by done.
    by rewrite (bind_Returned _ _ _ _ _ (elements_spec _ _ _ Hc)).
  - assert (Hag : forall r, r ∈ ds ++ cs -> (<[cArr := Array cs']> h) !! r = h !! r).
    { intros r (_ & _ & ? & _)%Href. by apply list_lookup_insert_ne. }
    split.
    + by rewrite list_lookup_insert_ne.
    + by apply list_lookup_insert_eq.
    + done.
    + eapply refer_agree; [|done]. intros r Hr. apply Hag, elem_of_app. by left.
    + eapply refer_agree; [|by apply sort_ref_refer].
      intros r Hr. apply Hag, elem_of_app. right. by rewrite <- Hperm.
    + by rewrite Hperm.
    + by rewrite Hperm.
  - intros r Hr. apply list_lookup_insert_ne. lia.
Qed.

End HeapRun.

Section HeapLoop.
Import Binary64.

Implicit Types (h : list Object) (r : nat) (st : State float).

(** The heap after the four writes of one iteration, away from them. *)
Lemma lookup_iteration h o sArr os rd od rc oc r :
  (r < length h)%nat -> r <> sArr -> r <> rd -> r <> rc ->
  (<[rc := oc]> (<[rd := od]> (<[sArr := os]> (h ++ [o])))) !! r = h !! r.
Proof.
  intros Hlt H1 H2 H3. rewrite !list_lookup_insert_ne by done.
  by apply lookup_app_l.
Qed.

(** *** One iteration on the heap *)

Lemma body_heap_spec n h dArr cArr sArr st :
  Machine n h dArr cArr sArr st -> cond st = true ->
  exists st' h',
    body st = Some st' /\
    body_heap dArr cArr sArr (i st) (j st) h = (Returned (i st', j st'), h') /\
    Machine n h' dArr cArr sArr st' /\ same_below n h h'.
Proof.
  intros (ds & cs & ss & HL & Hs & Hss & Hsd & Hsc & Hsn) [Hi Hj]%cond_true.
  destruct (lists_arrays _ _ _ _ _ _ _ _ HL) as (Hd1 & Hc1 & Hd2 & Hc2).
  pose proof (fun r Hr => lists_ref _ _ _ _ _ _ _ _ r HL Hr) as Href.
  destruct HL as [Hd Hc Hne Hdl Hcl Hnd Hnew].
  destruct (lookup_lt_is_Some_2 _ _ Hi) as [d Hdi].
  destruct (lookup_lt_is_Some_2 _ _ Hj) as [c Hcj].
  rewrite <- (refer_length _ _ _ _ Hdl) in Hi.
  rewrite <- (refer_length _ _ _ _ Hcl) in Hj.
  destruct (lookup_lt_is_Some_2 _ _ Hi) as [rd Hrd].
  destruct (lookup_lt_is_Some_2 _ _ Hj) as [rc Hrc].
  pose proof (Forall2_lookup_lr _ _ _ _ _ _ Hdl Hrd Hdi) as Hpd.
  pose proof (Forall2_lookup_lr _ _ _ _ _ _ Hcl Hrc Hcj) as Hpc.
  cbv beta in Hpd, Hpc. unfold party in Hpd, Hpc.
  assert (Hrd_in : rd ∈ ds ++ cs)
    by (apply elem_of_app; left; by eapply list_elem_of_lookup_2).
  assert (Hrc_in : rc ∈ ds ++ cs)
    by (apply elem_of_app; right; by eapply list_elem_of_lookup_2).
  destruct (Href _ Hrd_in) as (_ & Hrd1 & Hrd2 & Hrd3 & Hrd4).
  destruct (Href _ Hrc_in) as (_ & Hrc1 & Hrc2 & Hrc3 & Hrc4).
  assert (Hs1 : (sArr < length h)%nat) by by eapply lookup_lt_Some.
  assert (Hrds : rd <> sArr) by (intros ->; congruence).
  assert (Hrcs : rc <> sArr) by (intros ->; congruence).
  assert (Hrdc : rd <> rc).
  { intros ->. apply NoDup_app in Hnd as (_ & Hdis & _).
    apply (Hdis rc); by eapply list_elem_of_lookup_2. }
  set (amt := transfer d c).
  set (s := mkSettlement (person d) (person c) amt "USD").
  set (d' := mkEntry (person d) (amount d + amt)%float).
  set (c' := mkEntry (person c) (amount c - amt)%float).
  set (i' := if within_cent (amount d') then S (i st) else i st).
  set (j' := if num_lt (amount c') num_cent then S (j st) else j st).
  set (st' := mkState (balances st) (<[i st := d']> (debtors st))
                      (<[j st := c']> (creditors st))
                      (settlements st ++ [s]) i' j').
  set (h1 := h ++ [Payment s]).
  set (h2 := <[sArr := Array (ss ++ [length h])]> h1).
  set (h3 := <[rd := party d']> h2).
  set (h4 := <[rc := party c']> h3).
  assert (Hlen2 : length h2 = S (length h))
    by (unfold h2, h1; rewrite length_insert, length_app; simpl; lia).
  assert (Hlen3 : length h3 = S (length h))
    by (unfold h3; by rewrite length_insert).
  assert (Hag : forall r, (r < length h)%nat -> r <> sArr -> r <> rd -> r <> rc ->
                          h4 !! r = h !! r)
    by (intros; by apply lookup_iteration).
  exists st', h4. split; [|split; [|split]].
  - unfold body. rewrite Hdi, Hcj. done.
  - unfold body_heap.
    rewrite (bind_Returned _ _ _ _ _ (element_spec _ _ _ _ _ Hd Hrd)).
    rewrite (bind_Returned _ _ _ _ _ (element_spec _ _ _ _ _ Hc Hrc)).
    rewrite (bind_Returned _ _ _ _ _ (get_amount_spec _ _ _ _ Hpd)).
    rewrite (bind_Returned _ _ _ _ _ (get_amount_spec _ _ _ _ Hpc)).
    cbv zeta.
    rewrite (bind_Returned _ _ _ _ _ (get_person_spec _ _ _ _ Hpd)).
    rewrite (bind_Returned _ _ _ _ _ (get_person_spec _ _ _ _ Hpc)).
    rewrite (bind_Returned _ _ h (length h) h1) by done.
    assert (Hs' : h1 !! sArr = Some (Array ss)) by (unfold h1; by rewrite lookup_app_l).
    rewrite (bind_Returned _ _ _ _ _ (push_spec _ _ _ (length h) Hs')).
    fold h2.
    assert (Hpd2 : h2 !! rd = Some (Party (person d) (amount d))).
    { unfold h2, h1. by rewrite lookup_alloc_store. }
    rewrite (bind_Returned _ _ _ _ _ (get_amount_spec _ _ _ _ Hpd2)).
    rewrite (bind_Returned _ _ _ _ _
               (set_amount_spec _ _ _ _ (amount d + amt)%float Hpd2)).
    change (<[rd := Party (person d) (amount d + amt)%float]> h2) with h3.
    assert (Hpc3 : h3 !! rc = Some (Party (person c) (amount c))).
    { unfold h3. rewrite list_lookup_insert_ne by done.
      unfold h2, h1. by rewrite lookup_alloc_store. }
    rewrite (bind_Returned _ _ _ _ _ (get_amount_spec _ _ _ _ Hpc3)).
    rewrite (bind_Returned _ _ _ _ _
               (set_amount_spec _ _ _ _ (amount c - amt)%float Hpc3)).
    change (<[rc := Party (person c) (amount c - amt)%float]> h3) with h4.
    assert (Hpd4 : h4 !! rd = Some (Party (person d) (amount d + amt)%float)).
    { unfold h4. rewrite list_lookup_insert_ne by done.
      unfold h3. apply list_lookup_insert_eq. lia. }
    assert (Hpc4 : h4 !! rc = Some (Party (person c) (amount c - amt)%float)).
    { unfold h4. apply list_lookup_insert_eq. lia. }
    rewrite (bind_Returned _ _ _ _ _ (get_amount_spec _ _ _ _ Hpd4)).
    rewrite (bind_Returned _ _ _ _ _ (get_amount_spec _ _ _ _ Hpc4)).
    done.
  - exists ds, cs, (ss ++ [length h]). split; [|split; [|split]].
    + split.
      * by rewrite Hag.
      * by rewrite Hag.
      * done.
      * apply (refer_insert party h h4 ds _ (i st) rd d'); try done.
        -- by apply NoDup_app in Hnd as (? & _).
        -- intros r Hr Hne'.
           assert (Hin : r ∈ ds ++ cs) by (apply elem_of_app; by left).
           destruct (Href _ Hin) as ([e He] & ? & ? & ? & ?). unfold party in He.
           apply Hag; try done.
           ++ intros ->. congruence.
           ++ intros ->. apply NoDup_app in Hnd as (_ & Hdis & _).
              apply (Hdis rc); [done|]. by eapply list_elem_of_lookup_2.
        -- unfold h4. rewrite list_lookup_insert_ne by done.
           unfold h3. apply list_lookup_insert_eq. lia.
      * apply (refer_insert party h h4 cs _ (j st) rc c'); try done.
        -- by apply NoDup_app in Hnd as (_ & _ & ?).
        -- intros r Hr Hne'.
           assert (Hin : r ∈ ds ++ cs) by (apply elem_of_app; by right).
           destruct (Href _ Hin) as ([e He] & ? & ? & ? & ?). unfold party in He.
           apply Hag; try done.
           ++ intros ->. congruence.
           ++ intros ->. apply NoDup_app in Hnd as (_ & Hdis & _).
              apply (Hdis rd); [by eapply list_elem_of_lookup_2|done].
        -- unfold h4. apply list_lookup_insert_eq. lia.
      * done.
      * done.
    + unfold h4, h3. rewrite !list_lookup_insert_ne by done.
      unfold h2, h1. by apply lookup_alloc_store_arr.
    + apply refer_snoc.
      * eapply refer_agree; [|exact Hss]. intros r Hr.
        destruct (refer_elem_of Payment _ _ _ _ Hss Hr) as [x Hx].
        apply Hag.
        -- by eapply lookup_lt_Some.
        -- intros ->. congruence.
        -- intros ->. congruence.
        -- intros ->. congruence.
      * unfold h4, h3. rewrite !list_lookup_insert_ne by lia.
        unfold h2, h1. by apply lookup_alloc_store_new.
    + done.
  - intros r Hr. apply Hag; lia.
Qed.

(** *** The loop on the heap *)

Lemma while_heap_spec n dArr cArr sArr fuel :
  forall h st, Machine n h dArr cArr sArr st ->
  exists o h',
    while_heap fuel dArr cArr sArr (i st) (j st) h = (o, h') /\
    same_below n h h' /\
    match while fuel st with
    | Returned st' => o = Returned tt /\ Machine n h' dArr cArr sArr st'
    | OutOfFuel => o = OutOfFuel
    | Threw => False
    end.
Proof.
  induction fuel as [|fuel IH]; intros h st HM.
  - destruct HM as (ds & cs & ss & HL & Hrest).
    pose proof (lists_debtors _ _ _ _ _ _ _ _ HL) as Hd.
    pose proof (lists_creditors _ _ _ _ _ _ _ _ HL) as Hc.
    cbn [while_heap while].
    rewrite (bind_Returned _ _ _ _ _ (elements_spec _ _ _ Hd)).
    rewrite (bind_Returned _ _ _ _ _ (elements_spec _ _ _ Hc)).
    rewrite (refer_length _ _ _ _ (lists_dl _ _ _ _ _ _ _ _ HL)).
    rewrite (refer_length _ _ _ _ (lists_cl _ _ _ _ _ _ _ _ HL)).
    fold (cond st). destruct (cond st).
    + eexists _, _. split; [done|]. split; [apply same_below_refl|done].
    + eexists _, _. split; [done|]. split; [apply same_below_refl|].
      split; [done|]. by exists ds, cs, ss.
  - pose proof HM as (ds & cs & ss & HL & Hrest).
    pose proof (lists_debtors _ _ _ _ _ _ _ _ HL) as Hd.
    pose proof (lists_creditors _ _ _ _ _ _ _ _ HL) as Hc.
    cbn [while_heap while].
    rewrite (bind_Returned _ _ _ _ _ (elements_spec _ _ _ Hd)).
    rewrite (bind_Returned _ _ _ _ _ (elements_spec _ _ _ Hc)).
    rewrite (refer_length _ _ _ _ (lists_dl _ _ _ _ _ _ _ _ HL)).
    rewrite (refer_length _ _ _ _ (lists_cl _ _ _ _ _ _ _ _ HL)).
    fold (cond st). destruct (cond st) eqn:Hcond.
    + destruct (body_heap_spec _ _ _ _ _ _ HM Hcond)
        as (st' & h1 & Hb & Hrun & HM' & Hsame).
      rewrite Hb, (bind_Returned _ _ _ _ _ Hrun). cbn [fst snd].
      destruct (IH h1 st' HM') as (o & h' & Hw & Hsame' & Hres).
      exists o, h'. split; [done|]. split; [|done].
      by eapply same_below_trans.
    + eexists _, _. split; [done|]. split; [apply same_below_refl|].
      split; [done|]. by exists ds, cs, ss.
Qed.

End HeapLoop.

Section HeapCall.
Import Binary64.

Implicit Types (h : list Object) (r : nat) (st : State float).

Lemma lists_alloc n h dArr cArr ds cs dl cl o :
  Lists n h dArr cArr ds cs dl cl ->
  Lists n (h ++ [o]) dArr cArr ds cs dl cl.
Proof.
  intros HL. destruct (lists_arrays _ _ _ _ _ _ _ _ HL) as (Hd1 & Hc1 & _).
  pose proof (fun r Hr => lists_ref _ _ _ _ _ _ _ _ r HL Hr) as Href.
  destruct HL as [Hd Hc Hne Hdl Hcl Hnd Hnew].
  split; try done.
  - by rewrite lookup_app_l.
  - by rewrite lookup_app_l.
  - eapply refer_agree; [|done]. intros r Hr.
    assert (Hin : r ∈ ds ++ cs) by (apply elem_of_app; by left).
    destruct (Href _ Hin) as (_ & _ & _ & ? & _). by apply lookup_app_l.
  - eapply refer_agree; [|done]. intros r Hr.
    assert (Hin : r ∈ ds ++ cs) by (apply elem_of_app; by right).
    destruct (Href _ Hin) as (_ & _ & _ & ? & _). by apply lookup_app_l.
Qed.

Lemma payments_refer h r ss l :
  h !! r = Some (Array ss) -> refer Payment h ss l -> payments h r = Some l.
Proof.
  intros Hr Hf. unfold payments. rewrite Hr. apply mapM_Some.
  unfold refer in Hf. clear Hr.
  induction Hf as [|s x ss l Hs Hf IH]; [constructor|].
  constructor; [by rewrite Hs|done].
Qed.

Lemma same_below_alloc n h o : (n <= length h)%nat -> same_below n h (h ++ [o]).
Proof. intros Hn r Hr. apply lookup_app_l. lia. Qed.

(** The call on the heap does what the functional model does, and leaves
    the objects that were there before the call as they were. *)
Lemma simplifyDebts_heap_spec h b bal fuel :
  h !! b = Some (Mapping bal) ->
  exists o h',
    simplifyDebts_heap fuel b h = (o, h') /\ same_below (length h) h h' /\
    match o with
    | Returned r =>
        exists l, simplifyDebts fuel bal = Returned l /\ payments h' r = Some l
    | OutOfFuel => simplifyDebts fuel bal = OutOfFuel
    | Threw => False
    end.
Proof.
  intros Hb. set (n := length h).
  set (h1 := h ++ [Array []]). set (h2 := h1 ++ [Array []]).
  assert (Hl1 : length h1 = S n) by (unfold h1; rewrite length_app; simpl; lia).
  assert (Hl2 : length h2 = S (S n)) by (unfold h2; rewrite length_app; simpl; lia).
  assert (Hbn : (b < n)%nat) by by eapply lookup_lt_Some.
  assert (HL2 : Lists n h2 n (S n) [] [] [] []).
  { split.
    - unfold h2. rewrite lookup_app_l by lia. unfold h1. by apply list_lookup_middle.
    - unfold h2. apply list_lookup_middle. lia.
    - lia.
    - constructor.
    - constructor.
    - constructor.
    - repeat constructor. }
  assert (Hb2 : h2 !! b = Some (Mapping bal)).
  { unfold h2, h1. rewrite !lookup_app_l; [done|lia|rewrite length_app; simpl; lia]. }
  destruct (separate_spec bal _ _ _ _ _ _ _ _ HL2)
    as (h3 & ds3 & cs3 & Hrun3 & HL3 & Hsame3).
  simpl app in HL3.
  destruct (sort_debtors_spec _ _ _ _ _ _ _ _
              (fun h a b => (amount_in h a - amount_in h b)%float) ascending HL3)
    as (h4 & ds4 & Hrun4 & HL4 & Hsame4).
  { intros r1 e1 r2 e2 H1 H2. unfold party in H1, H2.
    by rewrite (amount_in_spec _ _ _ _ H1), (amount_in_spec _ _ _ _ H2). }
  destruct (sort_creditors_spec _ _ _ _ _ _ _ _
              (fun h a b => (amount_in h b - amount_in h a)%float) descending HL4)
    as (h5 & cs5 & Hrun5 & HL5 & Hsame5).
  { intros r1 e1 r2 e2 H1 H2. unfold party in H1, H2.
    by rewrite (amount_in_spec _ _ _ _ H1), (amount_in_spec _ _ _ _ H2). }
  destruct (lists_arrays _ _ _ _ _ _ _ _ HL5) as (Hd5 & Hc5 & _).
  set (h6 := h5 ++ [Array []]).
  assert (HM : Machine n h6 n (S n) (length h5) (init bal)).
  { exists ds4, cs5, []. rewrite init_eq, partition_eq. cbn [fst snd debtors creditors settlements].
    split; [by apply lists_alloc|]. split; [by apply list_lookup_middle|].
    split; [constructor|]. repeat split; lia. }
  destruct (while_heap_spec n n (S n) (length h5) fuel h6 (init bal) HM)
    as (o & h' & Hw & Hsame & Hres).
  assert (Hi0 : i (init bal) = 0%nat) by by rewrite init_eq.
  assert (Hj0 : j (init bal) = 0%nat) by by rewrite init_eq.
  rewrite Hi0, Hj0 in Hw.
  assert (Hsame' : same_below n h h').
  { eapply same_below_trans; [|exact Hsame].
    eapply same_below_trans; [|apply same_below_alloc; lia].
    eapply same_below_trans; [|exact Hsame5].
    eapply same_below_trans; [|exact Hsame4].
    eapply same_below_trans; [|exact Hsame3].
    eapply same_below_trans; [apply same_below_alloc; lia|].
    apply same_below_alloc. lia. }
  assert (Heq : simplifyDebts_heap fuel b h
                = (while_heap fuel n (S n) (length h5) 0 0
                   ≫= (fun _ => mret (length h5))) h6).
  { unfold simplifyDebts_heap.
    rewrite (bind_Returned _ _ h n h1) by done.
    rewrite (bind_Returned _ _ h1 (S n) h2) by (unfold alloc; by rewrite Hl1).
    rewrite (bind_Returned _ _ _ _ _ (entries_spec _ _ _ Hb2)).
    rewrite (bind_Returned _ _ _ _ _ Hrun3).
    rewrite (bind_Returned _ _ _ _ _ Hrun4).
    rewrite (bind_Returned _ _ _ _ _ Hrun5).
    by rewrite (bind_Returned _ _ h5 (length h5) h6) by done. }
  rewrite Heq. unfold mbind at 1, run_bind at 1. rewrite Hw.
  unfold simplifyDebts.
  destruct (while fuel (init bal)) as [st'| |] eqn:Hwhile.
  - destruct Hres as [-> (ds & cs & ss & _ & Hs & Hss & _)].
    eexists _, _. split; [done|]. split; [done|].
    exists (settlements st'). split; [done|]. by apply (payments_refer _ _ ss).
  - done.
  - subst o. eexists _, _. split; [done|]. by split.
Qed.

End HeapCall.

(** * The claims *)

Import Binary64 Inputs.
#[local] Set Warnings "-inexact-float".

(** Keys of the inputs are distinct. *)
Lemma scenario1_keys : NoDup scenario1.*1.
Proof. apply (bool_decide_unpack _). by vm_compute. Defined.

Lemma residue_keys : NoDup residue.*1.
Proof. apply (bool_decide_unpack _). by vm_compute. Defined.

(** ** C1: zero-sum property *)

(** C1, as stated, fails on [residue]: the balances sum to zero (within
    rounding), each of the three transfers is rounded down to 10.00, and the
    creditor D is left with a balance of 0.012, which is not within 0.01 of
    zero. *)
Lemma zero_sum_settled_fails :
  within_cent (sum_of residue) = true /\
  simplifyDebts 3 residue = Returned residue_settlements /\
  (exists b, ("D"%string, b) ∈ apply_settlements residue_settlements residue
             /\ within_cent b = false) /\
  ~ zero_sum_settled residue.
Proof.
  assert (Hsum : within_cent (sum_of residue) = true) by by vm_compute.
  assert (Hrun : simplifyDebts 3 residue = Returned residue_settlements)
    by by vm_compute.
  assert (Hlook : apply_settlements residue_settlements residue !! 3%nat
                  = Some ("D"%string, 0x1.89374bc6a8p-7%float)) by by vm_compute.
  split; [done|]. split; [done|]. split.
  - eexists. split; [by eapply list_elem_of_lookup_2|by vm_compute].
  - intros Hclaim. specialize (Hclaim Hsum 3%nat _ Hrun).
    pose proof (Forall_lookup_1 _ _ _ _ Hclaim Hlook) as Hd.
    by vm_compute in Hd.
Qed.

(** Whole cents do not help: on [whole_cents], two debts of 0.06 against
    credits of 0.05, 0.05 and 0.02 (sum zero), both debtors are left with
    -0.06 + 0.05, which is -0.009999999999999995 in binary64 and so counts
    as settled; the loop ends, and the creditor E keeps 0.02. *)
Lemma whole_cents_residue :
  within_cent (sum_of whole_cents) = true /\
  simplifyDebts 2 whole_cents
    = Returned [mkSettlement "A" "C" 0.05 "USD";
                mkSettlement "B" "D" 0.05 "USD"]%float /\
  apply_settlements [mkSettlement "A" "C" 0.05 "USD";
                     mkSettlement "B" "D" 0.05 "USD"]%float whole_cents
    = [("A", -0.009999999999999995); ("B", -0.009999999999999995);
       ("C", 0); ("D", 0); ("E", 0.02)]%float.
Proof. split; [by vm_compute|]. split; by vm_compute. Qed.

(** C1 (amended): for amounts of magnitude at most [2 ^ 40] under distinct
    names, zero-sum or not, replaying the settlements on a copy of the
    balances keeps the participants and

    - brings every debtor within 0.01 of zero, or else every creditor (the
      side whose list the loop exhausted);
    - leaves the balance of a participant who was in neither list as it
      was;
    - leaves every balance within the imbalance of the input (the exact sum
      of its amounts), plus 0.01 for every other participant, plus
      [2 ^ -10] for every settlement (the rounding of the additions and
      subtractions).

    Values are scaled by [2 ^ 1074]: [cent_value] is 0.01 and [2 ^ 1064] is
    [2 ^ -10]. *)
Theorem replay_residue_bounded (bal : list (string * float)) fuel l :
  NoDup bal.*1 -> Forall (fun kv => small kv.2 = true) bal ->
  simplifyDebts fuel bal = Returned l ->
  let final := apply_settlements l bal in
  final.*1 = bal.*1 /\
  ((forall p a b, (p, a) ∈ bal -> is_debtor a = true -> (p, b) ∈ final ->
                  within_cent b = true) \/
   (forall p a b, (p, a) ∈ bal -> is_creditor a = true -> (p, b) ∈ final ->
                  within_cent b = true)) /\
  (forall p a, (p, a) ∈ bal -> is_debtor a = false -> is_creditor a = false ->
               (p, a) ∈ final) /\
  (forall p b, (p, b) ∈ final ->
     (Z.abs (value64 b)
      <= Z.abs (exact_sum bal) + (Z.of_nat (length bal) - 1) * cent_value
         + Z.of_nat (length l) * 2 ^ 1064)%Z).
Proof.
  intros Hnd Hs (st & _ & <- & Hr & Hc)%simplifyDebts_Returned. cbv zeta.
  rewrite (reachable_simulation _ _ Hnd Hr).
  destruct (reachable_persons _ _ Hr) as [Hpd Hpc].
  destruct (bounded_reachable _ _ Hs Hr) as [Id Ic].
  assert (Hnd1 : NoDup (person <$> debtors st))
    by (rewrite Hpd; by apply init_debtors_NoDup).
  assert (Hnd2 : NoDup (person <$> creditors st))
    by (rewrite Hpc; by apply init_creditors_NoDup).
  assert (Hcur : forall p a b, (p, a) ∈ bal -> (p, b) ∈ current st <$> bal ->
                 (p, b) = current st (p, a)).
  { intros p a b Hin ([q a'] & Heq & Hin')%list_elem_of_fmap.
    unfold current in Heq. simpl in Heq. injection Heq as -> ->.
    by rewrite (assoc_functional _ _ _ _ Hnd Hin Hin'). }
  split; [|split; [|split]].
  - rewrite <- list_fmap_compose. by apply list_fmap_ext.
  - assert (Hex : i st = length (debtors st) \/ j st = length (creditors st)).
    { destruct (reachable_cursors _ _ Hr) as [Hi Hj].
      destruct (decide (i st < length (debtors st))%nat);
        destruct (decide (j st < length (creditors st))%nat); try lia.
      assert (cond st = true) by by apply cond_true. congruence. }
    destruct Hex as [Hex|Hex]; [left|right]; intros p a b Hin Hab Hfin;
      apply (Hcur p a b Hin) in Hfin; unfold current in Hfin; simpl in Hfin;
      injection Hfin as ->.
    + assert (Hp : p ∈ person <$> debtors st).
      { rewrite Hpd. apply list_elem_of_fmap. exists (mkEntry p a).
        split; [done|]. by apply elem_of_init_debtors. }
      apply list_elem_of_fmap in Hp as (e & -> & [k Hk]%list_elem_of_lookup).
      rewrite (lookup_amount_lookup _ _ _ Hnd1 Hk). simpl.
      destruct (Id _ _ Hk) as [Hn Hv].
      rewrite decide_True in Hv by (rewrite Hex; by eapply lookup_lt_Some).
      by apply within_cent_value.
    + assert (Hp : p ∈ person <$> creditors st).
      { rewrite Hpc. apply list_elem_of_fmap. exists (mkEntry p a).
        split; [done|]. by apply elem_of_init_creditors. }
      rewrite (lookup_amount_None p (debtors st)).
      2:{ rewrite Hpd. intros Hin'.
          apply (init_disjoint bal p Hnd Hin'). by rewrite <- Hpc. }
      apply list_elem_of_fmap in Hp as (e & -> & [k Hk]%list_elem_of_lookup).
      rewrite (lookup_amount_lookup _ _ _ Hnd2 Hk). simpl.
      destruct (Ic _ _ Hk) as [Hn Hv].
      rewrite decide_True in Hv by (rewrite Hex; by eapply lookup_lt_Some).
      by apply within_cent_value.
  - intros p a Hin Hd Hcr. apply list_elem_of_fmap. exists (p, a).
    split; [|done]. unfold current. simpl.
    rewrite (lookup_amount_None p (debtors st)).
    2:{ rewrite Hpd. intros (e & -> & He)%list_elem_of_fmap.
        apply elem_of_init_debtors in He as [He1 He2].
        rewrite (assoc_functional _ _ _ _ Hnd Hin He1) in Hd. congruence. }
    rewrite (lookup_amount_None p (creditors st)); [done|].
    rewrite Hpc. intros (e & -> & He)%list_elem_of_fmap.
    apply elem_of_init_creditors in He as [He1 He2].
    rewrite (assoc_functional _ _ _ _ Hnd Hin He1) in Hcr. congruence.
  - intros p b ([q a] & Heq & Hin)%list_elem_of_fmap.
    pose proof (returned_residue bal st (q, a) Hnd Hs Hr Hc Hin) as Hres.
    rewrite <- Heq in Hres. exact Hres.
Qed.

Lemma residue_small : Forall (fun kv : string * float => small kv.2 = true) residue.
Proof. repeat constructor. Qed.

Lemma replay_residue_bounded_witness :
  NoDup residue.*1 /\
  Forall (fun kv : string * float => small kv.2 = true) residue /\
  simplifyDebts 3 residue = Returned residue_settlements /\
  let final := apply_settlements residue_settlements residue in
  final.*1 = residue.*1 /\
  ((forall p a b, (p, a) ∈ residue -> is_debtor a = true -> (p, b) ∈ final ->
                  within_cent b = true) \/
   (forall p a b, (p, a) ∈ residue -> is_creditor a = true -> (p, b) ∈ final ->
                  within_cent b = true)) /\
  (forall p a, (p, a) ∈ residue -> is_debtor a = false ->
               is_creditor a = false -> (p, a) ∈ final) /\
  (forall p b, (p, b) ∈ final ->
     (Z.abs (value64 b)
      <= Z.abs (exact_sum residue) + (Z.of_nat (length residue) - 1) * cent_value
         + Z.of_nat (length residue_settlements) * 2 ^ 1064)%Z).
Proof.
  assert (Hnd : NoDup residue.*1) by (apply (bool_decide_unpack _); by vm_compute).
  split; [exact Hnd|]. split; [exact residue_small|]. split; [by vm_compute|].
  apply (replay_residue_bounded residue 3 residue_settlements);
    [exact Hnd|exact residue_small|by vm_compute].
Defined.

(** ** C2: the partition step *)

(** C2, as stated, fails on [boundary]: a balance of exactly -0.01 is not
    among the debtors and a balance of exactly 0.01 is not among the
    creditors. *)
Lemma partition_inclusive_fails :
  at_most (PrimFloat.opp 0.01) (num_neg num_cent) /\
  at_most num_cent 0.01%float /\
  debtors (init boundary) = [] /\
  creditors (init boundary) = [] /\
  ~ partition_inclusive boundary.
Proof.
  assert (Hd : debtors (init boundary) = []) by by vm_compute.
  split; [by right|]. split; [by right|]. split; [done|].
  split; [by vm_compute|].
  intros Hclaim.
  destruct (Hclaim "A"%string (PrimFloat.opp 0.01)) as [Hin _]; [by left|].
  specialize (Hin (or_intror eq_refl)). rewrite Hd in Hin.
  by apply elem_of_nil in Hin.
Qed.

(** C2 (amended): the debtors are exactly the participants whose amount is
    strictly below -0.01 and the creditors exactly those whose amount is
    strictly above 0.01; amounts from -0.01 to 0.01, both included, are in
    neither list. *)
Theorem partition_strict (bal : list (string * float)) (e : Entry float) :
  (e ∈ debtors (init bal) <->
   (person e, amount e) ∈ bal /\
   PrimFloat.ltb (amount e) (PrimFloat.opp 0.01) = true) /\
  (e ∈ creditors (init bal) <->
   (person e, amount e) ∈ bal /\ PrimFloat.ltb 0.01 (amount e) = true).
Proof.
  split; [exact (elem_of_init_debtors bal e)|exact (elem_of_init_creditors bal e)].
Qed.

(** ** C3: positive amounts *)

(** C3: on binary64, for every mapping of finite amounts, every settlement
    the loop emits has a strictly positive amount; the amount is the one
    after rounding to two decimals.  It holds at every point of a run and so
    for the sequence returned. *)
Theorem settlement_amount_positive (bal : list (string * float)) :
  Forall (fun kv => PrimFloat.is_finite kv.2 = true) bal ->
  (forall st s, Reachable bal st -> s ∈ settlements st ->
                PrimFloat.ltb 0 (s_amount s) = true) /\
  (forall fuel l s, simplifyDebts fuel bal = Returned l -> s ∈ l ->
                    PrimFloat.ltb 0 (s_amount s) = true).
Proof.
  intros Hfin. split.
  - intros st s Hr Hs.
    destruct (binary64_reachable bal st Hfin Hr) as [_ Hpos]. by apply Hpos.
  - intros fuel l s (st & _ & <- & Hr & _)%simplifyDebts_Returned Hs.
    destruct (binary64_reachable bal st Hfin Hr) as [_ Hpos]. by apply Hpos.
Qed.

Lemma settlement_amount_positive_witness :
  Forall (fun kv : string * float => PrimFloat.is_finite kv.2 = true) scenario1 /\
  (forall st s, Reachable scenario1 st -> s ∈ settlements st ->
                PrimFloat.ltb 0 (s_amount s) = true) /\
  (forall fuel l s, simplifyDebts fuel scenario1 = Returned l -> s ∈ l ->
                    PrimFloat.ltb 0 (s_amount s) = true).
Proof.
  assert (Hfin : Forall (fun kv : string * float =>
                           PrimFloat.is_finite kv.2 = true) scenario1)
    by (repeat constructor).
  split; [exact Hfin|]. exact (settlement_amount_positive scenario1 Hfin).
Defined.

(** ** C4: number of settlements *)

(** C4, as stated, fails on [stalled]: one debtor and one creditor, and 54
    settlements.  The first transfer, 3000000000000001 * 100 / 100, is
    3000000000000001.5 in binary64; it leaves the debtor at +0.5 and the
    creditor far above 0.01, so neither cursor moves, and the following
    transfers double until the creditor is used up. *)
Lemma settlements_bounded_fails :
  debtorCount stalled = 1%nat /\ creditorCount stalled = 1%nat /\
  (exists l, simplifyDebts 54 stalled = Returned l /\ length l = 54%nat /\
             s_amount <$> l !! 0%nat = Some 3000000000000001.5%float /\
             s_amount <$> l !! 1%nat = Some 0.5%float) /\
  ~ settlements_bounded stalled.
Proof.
  assert (Hd : debtorCount stalled = 1%nat) by by vm_compute.
  assert (Hc : creditorCount stalled = 1%nat) by by vm_compute.
  assert (Hrun : exists l, simplifyDebts 54 stalled = Returned l /\
                   length l = 54%nat /\
                   s_amount <$> l !! 0%nat = Some 3000000000000001.5%float /\
                   s_amount <$> l !! 1%nat = Some 0.5%float).
  { eexists. split; [by vm_compute|]. by vm_compute. }
  split; [done|]. split; [done|]. split; [done|].
  intros Hclaim. destruct Hrun as (l & Hl & Hlen & _).
  unfold settlements_bounded in Hclaim. rewrite Hd, Hc in Hclaim.
  specialize (Hclaim (le_S _ _ (le_n 1)) 54%nat l Hl). lia.
Qed.

(** C4 (amended): on binary64, as the code computes, an input whose amounts
    are numbers of magnitude at most [2 ^ 40] and that has at least one
    debtor or creditor yields at most [debtorCount + creditorCount - 1]
    settlements, whatever the fuel. *)
Theorem settlements_bounded_small (bal : list (string * float)) :
  Forall (fun kv => small kv.2 = true) bal ->
  (1 <= debtorCount bal + creditorCount bal)%nat ->
  exists l,
    simplifyDebts (debtorCount bal + creditorCount bal) bal = Returned l /\
    (length l <= debtorCount bal + creditorCount bal - 1)%nat /\
    (forall fuel l', simplifyDebts fuel bal = Returned l' -> l' = l).
Proof.
  intros Hs _. destruct (bounded_terminates bal Hs) as (st & Hw & Hlen).
  assert (Hl : simplifyDebts (debtorCount bal + creditorCount bal) bal
               = Returned (settlements st))
    by (unfold simplifyDebts; by rewrite Hw).
  exists (settlements st). repeat split; try done.
  intros fuel l' Hl'. by eapply simplifyDebts_fuel_irrelevant.
Qed.

Lemma settlements_bounded_small_witness :
  Forall (fun kv : string * float => small kv.2 = true) residue /\
  (1 <= debtorCount residue + creditorCount residue)%nat /\
  exists l,
    simplifyDebts (debtorCount residue + creditorCount residue) residue
      = Returned l /\
    (length l <= debtorCount residue + creditorCount residue - 1)%nat /\
    (forall fuel l', simplifyDebts fuel residue = Returned l' -> l' = l).
Proof.
  assert (Hs : Forall (fun kv : string * float => small kv.2 = true) residue)
    by (repeat constructor).
  assert (Hone : (1 <= debtorCount residue + creditorCount residue)%nat)
    by (vm_compute; lia).
  split; [exact Hs|]. split; [exact Hone|].
  exact (settlements_bounded_small residue Hs Hone).
Defined.

(** ** C5: number of iterations *)

(** C5, as stated, fails on [stalled]: after [debtorCount + creditorCount]
    (two) iterations the loop condition still holds, and the first iteration
    moves neither cursor. *)
Lemma loop_bounded_fails :
  while (debtorCount stalled + creditorCount stalled) (init stalled)
    = OutOfFuel /\
  cond (init stalled) = true /\
  (exists st', body (init stalled) = Some st' /\
               i st' = i (init stalled) /\ j st' = j (init stalled)) /\
  ~ loop_bounded stalled.
Proof.
  split; [by vm_compute|]. split; [by vm_compute|]. split.
  - eexists. split; [by vm_compute|]. by vm_compute.
  - intros [[st Hst] _]. by vm_compute in Hst.
Qed.

(** C5 (amended): on binary64, as the code computes, on an input whose
    amounts are numbers of magnitude at most [2 ^ 40], zero-sum or not, the
    loop ends within [debtorCount + creditorCount] iterations, and every
    iteration moves at least one cursor. *)
Theorem loop_bounded_small (bal : list (string * float)) :
  Forall (fun kv => small kv.2 = true) bal -> loop_bounded bal.
Proof.
  intros Hs. split.
  - destruct (bounded_terminates bal Hs) as (st & Hw & _). by exists st.
  - intros st st' Hr Hc Hb.
    by destruct (bounded_step _ _ (bounded_reachable _ _ Hs Hr) Hc Hb).
Qed.

Lemma loop_bounded_small_witness :
  Forall (fun kv : string * float => small kv.2 = true) scenario1 /\
  loop_bounded scenario1.
Proof.
  assert (Hs : Forall (fun kv : string * float => small kv.2 = true) scenario1)
    by (repeat constructor).
  split; [exact Hs|]. exact (loop_bounded_small scenario1 Hs).
Defined.

(** ** C6: nothing to settle *)

(** C6: an empty mapping, or one whose balances are all within 0.01 of zero,
    gives the empty sequence (the loop is not entered, so with any fuel). *)
Theorem settled_input_empty_result (bal : list (string * float)) fuel :
  bal = [] \/ Forall (fun kv => within_cent kv.2 = true) bal ->
  simplifyDebts fuel bal = Returned [].
Proof.
  intros Hcase.
  assert (Hall : Forall (fun kv : string * float => within_cent kv.2 = true) bal)
    by (destruct Hcase as [->|?]; [constructor|done]).
  clear Hcase.
  assert (omap debtor_entry bal = [] /\ omap creditor_entry bal = [])
    as [Hd Hc].
  { induction Hall as [|kv bal Hkv _ [IH1 IH2]]; [done|]. simpl.
    unfold debtor_entry at 1, creditor_entry at 1.
    by rewrite (within_cent_not_debtor _ Hkv), (within_cent_not_creditor _ Hkv). }
  unfold simplifyDebts. rewrite init_eq, partition_eq, Hd, Hc. simpl.
  by rewrite while_unfold.
Qed.

Lemma settled_input_empty_result_witness :
  (scenario3 = [] \/ Forall (fun kv => within_cent kv.2 = true) scenario3) /\
  simplifyDebts 0 scenario3 = Returned [].
Proof.
  assert (Hall : Forall (fun kv : string * float => within_cent kv.2 = true)
                   scenario3)
    by (repeat constructor).
  split; [by right|].
  apply (settled_input_empty_result scenario3 0). by right.
Defined.

(** ** C7: scenario 1 *)

(** C7: on [{A: -30, B: 10, C: 20}] the result is A->C 20 followed by
    A->B 10, after two iterations. *)
Theorem scenario1_result (k : nat) :
  simplifyDebts (2 + k) scenario1 = Returned scenario1_settlements.
Proof.
  assert (Hw : exists st, while 2 (init scenario1) = Returned st /\
                          settlements st = scenario1_settlements).
  { eexists. split; by vm_compute. }
  destruct Hw as (st & Hw & Hs). unfold simplifyDebts.
  by rewrite (while_more_fuel _ k _ _ Hw), Hs.
Qed.

(** ** C8: no self-payment *)

(** C8: no settlement pays a participant to themselves: the payer is a
    debtor, the payee a creditor, and no key of the mapping is both. *)
Theorem no_self_payment (bal : list (string * float)) fuel l s :
  NoDup bal.*1 -> simplifyDebts fuel bal = Returned l -> s ∈ l ->
  s_from s <> s_to s.
Proof.
  intros Hnd (st & _ & <- & Hr & _)%simplifyDebts_Returned Hs Heq.
  destruct (reachable_parties _ _ _ Hr Hs) as [Hf Ht].
  rewrite Heq in Hf. exact (init_disjoint bal (s_to s) Hnd Hf Ht).
Qed.

Lemma no_self_payment_witness :
  NoDup scenario1.*1 /\
  simplifyDebts 2 scenario1 = Returned scenario1_settlements /\
  mkSettlement "A" "C" 20%float "USD" ∈ scenario1_settlements /\
  s_from (mkSettlement "A" "C" 20%float "USD")
  <> s_to (mkSettlement "A" "C" 20%float "USD").
Proof.
  split; [exact scenario1_keys|]. split; [by vm_compute|]. split; [by left|].
  apply (no_self_payment scenario1 2 scenario1_settlements);
    [exact scenario1_keys|by vm_compute|by left].
Defined.

(** ** C9: totality *)

(** C9: on every mapping of participants to finite amounts the call returns
    a settlement sequence and does not throw.  On binary64, as the code
    computes: from some number of loop iterations on the run returns the
    same sequence, and no run throws, because both array reads are guarded
    by the loop condition. *)
Theorem simplifyDebts_total (bal : list (string * float)) :
  Forall (fun kv => PrimFloat.is_finite kv.2 = true) bal ->
  (exists fuel l, forall k, simplifyDebts (fuel + k) bal = Returned l) /\
  (forall fuel, simplifyDebts fuel bal <> Threw).
Proof.
  intros Hfin. split.
  - destruct (binary64_terminates bal Hfin) as (fuel & st & Hw).
    exists fuel, (settlements st). intros k.
    unfold simplifyDebts. by rewrite Hw.
  - intros fuel. apply simplifyDebts_not_Threw.
Qed.

Lemma simplifyDebts_total_witness :
  Forall (fun kv : string * float => PrimFloat.is_finite kv.2 = true) scenario1 /\
  (exists fuel l, forall k, simplifyDebts (fuel + k) scenario1 = Returned l) /\
  (forall fuel, simplifyDebts fuel scenario1 <> Threw).
Proof.
  assert (Hfin : Forall (fun kv : string * float =>
                           PrimFloat.is_finite kv.2 = true) scenario1)
    by (repeat constructor).
  split; [exact Hfin|]. exact (simplifyDebts_total scenario1 Hfin).
Defined.

(** ** C10: the input is not modified *)

(** C10: on the heap, whatever the heap holds and however long the loop
    runs, the call leaves every object that was there before it as it was,
    and so the caller's mapping holds the entries it held; every write goes
    to an object the call has allocated.  The call does not throw, and when
    it returns, its result refers to the settlements [simplifyDebts]
    computes from the entries of the mapping. *)
Theorem caller_objects_unchanged (h : list Object) (balances : nat)
    (bal : list (string * float)) (fuel : nat) :
  h !! balances = Some (Mapping bal) ->
  let run := simplifyDebts_heap fuel balances h in
  (forall r o, h !! r = Some o -> run.2 !! r = Some o) /\
  run.2 !! balances = Some (Mapping bal) /\
  match run.1 with
  | Returned r =>
      exists l, simplifyDebts fuel bal = Returned l /\
                payments run.2 r = Some l
  | OutOfFuel => simplifyDebts fuel bal = OutOfFuel
  | Threw => False
  end.
Proof.
  intros Hb. cbv zeta.
  destruct (simplifyDebts_heap_spec h balances bal fuel Hb)
    as (o & h' & -> & Hsame & Hres).
  cbn [fst snd].
  assert (Hframe : forall r ob, h !! r = Some ob -> h' !! r = Some ob).
  { intros r ob Hr. rewrite Hsame; [done|]. by eapply lookup_lt_Some. }
  split; [exact Hframe|]. split; [by apply Hframe|]. exact Hres.
Qed.

Lemma caller_objects_unchanged_witness :
  [Mapping scenario1] !! 0%nat = Some (Mapping scenario1) /\
  let run := simplifyDebts_heap 2 0 [Mapping scenario1] in
  (forall r o, [Mapping scenario1] !! r = Some o -> run.2 !! r = Some o) /\
  run.2 !! 0%nat = Some (Mapping scenario1) /\
  match run.1 with
  | Returned r =>
      exists l, simplifyDebts 2 scenario1 = Returned l /\
                payments run.2 r = Some l
  | OutOfFuel => simplifyDebts 2 scenario1 = OutOfFuel
  | Threw => False
  end.
Proof.
  split; [reflexivity|].
  exact (caller_objects_unchanged [Mapping scenario1] 0 scenario1 2 eq_refl).
Defined.

(** * Further properties: the handler and the edges of [simplifyDebts] *)

Import Trips.

(** Names that are not inherited from [Object.prototype], decided. *)
Lemma own_names_decide (names : list string) :
  bool_decide (Forall (fun k => k ∉ Object_prototype) names) = true ->
  own_names names.
Proof. apply bool_decide_eq_true_1. Qed.

(** ** The balances object *)

(** X1: the balances object the handler builds has one entry for every
    participant of the trip and every payer of an expense, and no other
    entry; every balance the handler reads, it has written before. *)
Theorem settle_balance_keys (t : Trip) (expenses : list (Expense float)) :
  own_names (participants t ++ (payer <$> expenses)) ->
  exists o, net_balances t expenses = Some o /\
    NoDup (Object_entries o).*1 /\
    forall k, k ∈ (Object_entries o).*1 <->
              k ∈ participants t \/ k ∈ payer <$> expenses.
Proof.
  intros _. destruct (net_balances_keys t expenses) as (o & Ho & Hnd & Hk).
  exists o. split; [done|]. split; [by apply Object_entries_NoDup|].
  intros k. by rewrite Object_entries_keys.
Qed.

Lemma settle_balance_keys_witness :
  own_names (participants weekend ++ (payer <$> weekend_expenses)) /\
  exists o, net_balances weekend weekend_expenses = Some o /\
    NoDup (Object_entries o).*1 /\
    forall k, k ∈ (Object_entries o).*1 <->
              k ∈ participants weekend \/ k ∈ payer <$> weekend_expenses.
Proof.
  assert (Hown : own_names (participants weekend ++ (payer <$> weekend_expenses)))
    by (apply own_names_decide; by vm_compute).
  split; [exact Hown|]. exact (settle_balance_keys weekend weekend_expenses Hown).
Defined.

(** X2: a trip without expenses is answered with status 200, a balance of 0
    for every participant and no settlement. *)
Theorem settle_without_expenses (t : Trip) (fuel : nat) :
  own_names (participants t) ->
  exists bal,
    settle fuel (Some t) ([] : list (Expense float))
      = Some (Returned (Settled (currency t) bal [])) /\
    Forall (fun kv => kv.2 = 0%float) bal /\
    forall k, k ∈ bal.*1 <-> k ∈ participants t.
Proof.
  intros _.
  destruct (zero_balances_spec (num:=float) (participants t)) as (_ & Hk & Hz).
  exists (Object_entries (zero_balances (participants t))).
  assert (Hz' : Forall (fun kv : string * float => kv.2 = 0%float)
                  (Object_entries (zero_balances (participants t)))).
  { apply Forall_forall. intros kv Hkv. rewrite Object_entries_perm in Hkv.
    revert kv Hkv. by apply Forall_forall. }
  split; [|split; [done|]].
  - unfold settle, net_balances. simpl.
    rewrite settled_balances_return_nothing; [done|].
    eapply Forall_impl; [exact Hz'|]. intros kv Hkv. simpl in *. by rewrite Hkv.
  - intros k. by rewrite Object_entries_keys.
Qed.

Lemma settle_without_expenses_witness :
  own_names (participants weekend) /\
  exists bal,
    settle 0 (Some weekend) ([] : list (Expense float))
      = Some (Returned (Settled (currency weekend) bal [])) /\
    Forall (fun kv => kv.2 = 0%float) bal /\
    forall k, k ∈ bal.*1 <-> k ∈ participants weekend.
Proof.
  assert (Hown : own_names (participants weekend))
    by (apply own_names_decide; by vm_compute).
  split; [exact Hown|]. exact (settle_without_expenses weekend 0 Hown).
Defined.

(** X5: for a trip without participants the share of every expense is
    [amount / 0].  When one payer has only positive finite amounts and
    another only negative ones, their balances are -infinity and +infinity,
    and the loop of [simplifyDebts] does not end: after any number of
    iterations its condition still holds.  (The list of settlements is
    unbounded here; an engine runs out of memory.) *)
Theorem settle_without_participants_hangs (t : Trip)
    (expenses : list (Expense float)) (p q : string) :
  own_names (payer <$> expenses) ->
  participants t = [] ->
  p ∈ payer <$> expenses -> q ∈ payer <$> expenses ->
  Forall (fun exp => payer exp = p ->
            PrimFloat.ltb 0 (exp_amount exp) = true /\
            PrimFloat.is_finite (exp_amount exp) = true) expenses ->
  Forall (fun exp => payer exp = q ->
            PrimFloat.ltb (exp_amount exp) 0 = true /\
            PrimFloat.is_finite (exp_amount exp) = true) expenses ->
  forall fuel, settle fuel (Some t) expenses = Some OutOfFuel.
Proof.
  intros _ Hps Hp Hq Hpos Hneg fuel.
  destruct (net_balances_keys t expenses) as (o & Ho & _).
  destruct (net_balances_nobody t expenses o p false Hps) as (a & Ha & Ea); try done.
  { eapply Forall_impl; [exact Hpos|]. intros exp Hexp Hpay. simpl in *.
    destruct (Hexp Hpay). by apply positive_finite. }
  destruct (net_balances_nobody t expenses o q true Hps) as (b & Hb & Eb); try done.
  { eapply Forall_impl; [exact Hneg|]. intros exp Hexp Hpay. simpl in *.
    destruct (Hexp Hpay). by apply negative_finite. }
  unfold settle. rewrite Ho. simpl.
  by rewrite (opposite_infinities_forever _ p a q b fuel Ha Ea Hb Eb).
Qed.

Lemma settle_without_participants_hangs_witness :
  own_names (payer <$> nobody_expenses) /\
  participants nobody = [] /\
  "A" ∈ payer <$> nobody_expenses /\ "B" ∈ payer <$> nobody_expenses /\
  Forall (fun exp => payer exp = "A" ->
            PrimFloat.ltb 0 (exp_amount exp) = true /\
            PrimFloat.is_finite (exp_amount exp) = true) nobody_expenses /\
  Forall (fun exp => payer exp = "B" ->
            PrimFloat.ltb (exp_amount exp) 0 = true /\
            PrimFloat.is_finite (exp_amount exp) = true) nobody_expenses /\
  forall fuel, settle fuel (Some nobody) nobody_expenses = Some OutOfFuel.
Proof.
  assert (Hown : own_names (payer <$> nobody_expenses))
    by (apply own_names_decide; by vm_compute).
  assert (Hps : participants nobody = []) by done.
  assert (Hp : "A" ∈ payer <$> nobody_expenses) by (by left).
  assert (Hq : "B" ∈ payer <$> nobody_expenses) by (right; by left).
  assert (Hpos : Forall (fun exp : Expense float => payer exp = "A" ->
                    PrimFloat.ltb 0 (exp_amount exp) = true /\
                    PrimFloat.is_finite (exp_amount exp) = true) nobody_expenses).
  { repeat constructor; simpl; done. }
  assert (Hneg : Forall (fun exp : Expense float => payer exp = "B" ->
                    PrimFloat.ltb (exp_amount exp) 0 = true /\
                    PrimFloat.is_finite (exp_amount exp) = true) nobody_expenses).
  { repeat constructor; simpl; done. }
  split; [exact Hown|]. split; [exact Hps|]. split; [exact Hp|].
  split; [exact Hq|]. split; [exact Hpos|]. split; [exact Hneg|].
  exact (settle_without_participants_hangs nobody nobody_expenses "A" "B"
           Hown Hps Hp Hq Hpos Hneg).
Defined.

(** ** The reply *)

(** X6: the reply carries the currency of the trip, while every settlement
    in it says ["USD"]. *)
Theorem reply_currencies (t : Trip) (expenses : list (Expense float))
    fuel cur bal sts :
  own_names (participants t ++ (payer <$> expenses)) ->
  settle fuel (Some t) expenses = Some (Returned (Settled cur bal sts)) ->
  cur = currency t /\ Forall (fun s => s_currency s = "USD") sts.
Proof.
  intros _ (o & _ & -> & _ & Hs)%settle_Settled. split; [done|].
  apply simplifyDebts_Returned in Hs as (st & _ & <- & Hr & _).
  apply Forall_forall. intros s Hin. by eapply reachable_currency.
Qed.

Lemma reply_currencies_witness :
  own_names (participants weekend ++ (payer <$> weekend_expenses)) /\
  settle 2 (Some weekend) weekend_expenses
    = Some (Returned (Settled "EUR"
              [("A", 20%float); ("B", (-10)%float); ("C", (-10)%float)]
              [mkSettlement "B" "A" 10%float "USD";
               mkSettlement "C" "A" 10%float "USD"])) /\
  "EUR" = currency weekend /\
  Forall (fun s : Settlement float => s_currency s = "USD")
         [mkSettlement "B" "A" 10%float "USD";
          mkSettlement "C" "A" 10%float "USD"].
Proof.
  assert (Hown : own_names (participants weekend ++ (payer <$> weekend_expenses)))
    by (apply own_names_decide; by vm_compute).
  assert (Hrun : settle 2 (Some weekend) weekend_expenses
                 = Some (Returned (Settled "EUR"
                      [("A", 20%float); ("B", (-10)%float); ("C", (-10)%float)]
                      [mkSettlement "B" "A" 10%float "USD";
                       mkSettlement "C" "A" 10%float "USD"])))
    by by vm_compute.
  split; [exact Hown|]. split; [exact Hrun|].
  exact (reply_currencies weekend weekend_expenses 2 _ _ _ Hown Hrun).
Defined.

(** X8: every settlement of the reply is between two different people, each
    a participant of the trip or the payer of one of its expenses. *)
Theorem settle_parties (t : Trip) (expenses : list (Expense float))
    fuel cur bal sts s :
  own_names (participants t ++ (payer <$> expenses)) ->
  settle fuel (Some t) expenses = Some (Returned (Settled cur bal sts)) ->
  s ∈ sts ->
  s_from s <> s_to s /\
  (s_from s ∈ participants t \/ s_from s ∈ payer <$> expenses) /\
  (s_to s ∈ participants t \/ s_to s ∈ payer <$> expenses).
Proof.
  intros _ (o & Ho & _ & _ & Hs)%settle_Settled Hin.
  destruct (net_balances_keys t expenses) as (o' & Ho' & Hnd & Hk).
  rewrite Ho in Ho'. injection Ho' as <-.
  apply simplifyDebts_Returned in Hs as (st & _ & <- & Hr & _).
  destruct (reachable_parties _ _ _ Hr Hin) as [Hf Ht].
  destruct (reachable_parties_in _ _ _ Hr Hin) as (a & b & Ha & _ & Hb & _).
  split; [|split].
  - intros Heq. rewrite Heq in Hf.
    eapply (init_disjoint (Object_entries o)); [|exact Hf|exact Ht].
    by apply Object_entries_NoDup.
  - apply Hk, Object_entries_keys, list_elem_of_fmap. by exists (s_from s, a).
  - apply Hk, Object_entries_keys, list_elem_of_fmap. by exists (s_to s, b).
Qed.

Lemma settle_parties_witness :
  own_names (participants weekend ++ (payer <$> weekend_expenses)) /\
  settle 2 (Some weekend) weekend_expenses
    = Some (Returned (Settled "EUR"
              [("A", 20%float); ("B", (-10)%float); ("C", (-10)%float)]
              [mkSettlement "B" "A" 10%float "USD";
               mkSettlement "C" "A" 10%float "USD"])) /\
  mkSettlement "B" "A" 10%float "USD"
    ∈ [mkSettlement "B" "A" 10%float "USD"; mkSettlement "C" "A" 10%float "USD"] /\
  "B" <> "A" /\
  ("B" ∈ participants weekend \/ "B" ∈ payer <$> weekend_expenses) /\
  ("A" ∈ participants weekend \/ "A" ∈ payer <$> weekend_expenses).
Proof.
  assert (Hown : own_names (participants weekend ++ (payer <$> weekend_expenses)))
    by (apply own_names_decide; by vm_compute).
  assert (Hrun : settle 2 (Some weekend) weekend_expenses
                 = Some (Returned (Settled "EUR"
                      [("A", 20%float); ("B", (-10)%float); ("C", (-10)%float)]
                      [mkSettlement "B" "A" 10%float "USD";
                       mkSettlement "C" "A" 10%float "USD"])))
    by by vm_compute.
  assert (Hin : mkSettlement "B" "A" 10%float "USD"
                ∈ [mkSettlement "B" "A" 10%float "USD";
                   mkSettlement "C" "A" 10%float "USD"]) by by left.
  split; [exact Hown|]. split; [exact Hrun|]. split; [exact Hin|].
  exact (settle_parties weekend weekend_expenses 2 _ _ _ _ Hown Hrun Hin).
Defined.

(** X9: whenever the computed balances are all finite, the handler replies
    with status 200 once the loop is given enough iterations, and every
    settlement of the reply has a positive amount. *)
Theorem settle_replies_on_finite_balances (t : Trip)
    (expenses : list (Expense float)) o :
  own_names (participants t ++ (payer <$> expenses)) ->
  net_balances t expenses = Some o ->
  Forall (fun kv => PrimFloat.is_finite kv.2 = true) o ->
  exists fuel sts,
    (forall k, settle (fuel + k) (Some t) expenses
               = Some (Returned (Settled (currency t) (Object_entries o) sts))) /\
    Forall (fun s => PrimFloat.ltb 0 (s_amount s) = true) sts.
Proof.
  intros _ Ho Hfin.
  assert (Hfin' : Forall (fun kv : string * float => PrimFloat.is_finite kv.2 = true)
                    (Object_entries o)).
  { apply Forall_forall. intros kv Hkv. rewrite Object_entries_perm in Hkv.
    revert kv Hkv. by apply Forall_forall. }
  destruct (binary64_terminates (Object_entries o) Hfin') as (fuel & st & Hw).
  exists fuel, (settlements st). split.
  - intros k. unfold settle. rewrite Ho. simpl. unfold simplifyDebts.
    by rewrite Hw.
  - specialize (Hw 0%nat).
    apply (while_reachable (Object_entries o)) in Hw as [Hr _]; [|apply reach_init].
    destruct (binary64_reachable _ _ Hfin' Hr) as [_ Hpos].
    by apply Forall_forall.
Qed.

Lemma settle_replies_on_finite_balances_witness :
  own_names (participants weekend ++ (payer <$> weekend_expenses)) /\
  net_balances weekend weekend_expenses
    = Some [("A", 20%float); ("B", (-10)%float); ("C", (-10)%float)] /\
  Forall (fun kv : string * float => PrimFloat.is_finite kv.2 = true)
         [("A", 20%float); ("B", (-10)%float); ("C", (-10)%float)] /\
  exists fuel sts,
    (forall k, settle (fuel + k) (Some weekend) weekend_expenses
               = Some (Returned (Settled (currency weekend)
                    (Object_entries
                       [("A", 20%float); ("B", (-10)%float); ("C", (-10)%float)])
                    sts))) /\
    Forall (fun s => PrimFloat.ltb 0 (s_amount s) = true) sts.
Proof.
  assert (Hown : own_names (participants weekend ++ (payer <$> weekend_expenses)))
    by (apply own_names_decide; by vm_compute).
  assert (Ho : net_balances weekend weekend_expenses
               = Some [("A", 20%float); ("B", (-10)%float); ("C", (-10)%float)])
    by by vm_compute.
  assert (Hfin : Forall (fun kv : string * float => PrimFloat.is_finite kv.2 = true)
                   [("A", 20%float); ("B", (-10)%float); ("C", (-10)%float)])
    by (repeat constructor).
  split; [exact Hown|]. split; [exact Ho|]. split; [exact Hfin|].
  exact (settle_replies_on_finite_balances weekend weekend_expenses _ Hown Ho Hfin).
Defined.

(** ** [simplifyDebts] *)

(** X10: the payer of every settlement has an input balance below -0.01 and
    the payee one above 0.01. *)
Theorem settlement_sides (bal : list (string * float)) fuel l s :
  simplifyDebts fuel bal = Returned l -> s ∈ l ->
  exists a b,
    (s_from s, a) ∈ bal /\ PrimFloat.ltb a (PrimFloat.opp 0.01) = true /\
    (s_to s, b) ∈ bal /\ PrimFloat.ltb 0.01 b = true.
Proof.
  intros (st & _ & <- & Hr & _)%simplifyDebts_Returned Hs.
  exact (reachable_parties_in bal st s Hr Hs).
Qed.

Lemma settlement_sides_witness :
  simplifyDebts 2 scenario1 = Returned scenario1_settlements /\
  mkSettlement "A" "C" 20%float "USD" ∈ scenario1_settlements /\
  exists a b,
    (s_from (mkSettlement "A" "C" 20%float "USD"), a) ∈ scenario1 /\
    PrimFloat.ltb a (PrimFloat.opp 0.01) = true /\
    (s_to (mkSettlement "A" "C" 20%float "USD"), b) ∈ scenario1 /\
    PrimFloat.ltb 0.01 b = true.
Proof.
  assert (Hrun : simplifyDebts 2 scenario1 = Returned scenario1_settlements)
    by by vm_compute.
  assert (Hin : mkSettlement "A" "C" 20%float "USD" ∈ scenario1_settlements)
    by by left.
  split; [exact Hrun|]. split; [exact Hin|].
  exact (settlement_sides scenario1 2 scenario1_settlements _ Hrun Hin).
Defined.

(** X11: a participant whose balance is neither below -0.01 nor above 0.01
    (within a cent of zero, or [NaN]) is in no settlement. *)
Theorem settled_never_party (bal : list (string * float)) fuel l p a s :
  NoDup bal.*1 -> (p, a) ∈ bal ->
  PrimFloat.ltb a (PrimFloat.opp 0.01) = false ->
  PrimFloat.ltb 0.01 a = false ->
  simplifyDebts fuel bal = Returned l -> s ∈ l ->
  s_from s <> p /\ s_to s <> p.
Proof.
  intros Hnd Hp Hd Hc (st & _ & <- & Hr & _)%simplifyDebts_Returned Hs.
  destruct (reachable_parties_in bal st s Hr Hs) as (x & y & Hx & Hxd & Hy & Hyc).
  split; intros Heq; rewrite Heq in *.
  - rewrite (assoc_functional bal p x a Hnd Hx Hp) in Hxd.
    unfold is_debtor in Hxd. cbn [num_lt num_neg num_cent Binary64.number] in Hxd. congruence.
  - rewrite (assoc_functional bal p y a Hnd Hy Hp) in Hyc.
    unfold is_creditor, num_gt in Hyc. cbn [num_lt num_cent Binary64.number] in Hyc. congruence.
Qed.

Lemma settled_never_party_witness :
  NoDup undefined_share.*1 /\ ("B", PrimFloat.nan) ∈ undefined_share /\
  PrimFloat.ltb PrimFloat.nan (PrimFloat.opp 0.01) = false /\
  PrimFloat.ltb 0.01 PrimFloat.nan = false /\
  simplifyDebts 1 undefined_share = Returned [mkSettlement "A" "C" 20%float "USD"] /\
  mkSettlement "A" "C" 20%float "USD" ∈ [mkSettlement "A" "C" 20%float "USD"] /\
  s_from (mkSettlement "A" "C" 20%float "USD") <> "B" /\
  s_to (mkSettlement "A" "C" 20%float "USD") <> "B".
Proof.
  assert (Hnd : NoDup undefined_share.*1)
    by (apply (bool_decide_unpack _); by vm_compute).
  assert (Hp : ("B", PrimFloat.nan) ∈ undefined_share) by (right; by left).
  assert (Hd : PrimFloat.ltb PrimFloat.nan (PrimFloat.opp 0.01) = false) by done.
  assert (Hc : PrimFloat.ltb 0.01 PrimFloat.nan = false) by done.
  assert (Hrun : simplifyDebts 1 undefined_share
                 = Returned [mkSettlement "A" "C" 20%float "USD"]) by by vm_compute.
  assert (Hin : mkSettlement "A" "C" 20%float "USD"
                ∈ [mkSettlement "A" "C" 20%float "USD"]) by by left.
  split; [exact Hnd|]. split; [exact Hp|]. split; [exact Hd|]. split; [exact Hc|].
  split; [exact Hrun|]. split; [exact Hin|].
  exact (settled_never_party undefined_share 1 _ "B" PrimFloat.nan _
           Hnd Hp Hd Hc Hrun Hin).
Defined.

(** X12: when the balances hold -infinity and +infinity, the loop does not
    end: after any number of iterations its condition still holds.  The
    first transfer is infinite and leaves [NaN] on both sides, which passes
    neither of the two tests that move a cursor. *)
Theorem opposite_infinities_never_return (bal : list (string * float)) p q :
  (p, PrimFloat.neg_infinity) ∈ bal -> (q, PrimFloat.infinity) ∈ bal ->
  forall fuel, simplifyDebts fuel bal = OutOfFuel.
Proof.
  intros Hp Hq fuel.
  by apply (opposite_infinities_forever bal p PrimFloat.neg_infinity
              q PrimFloat.infinity).
Qed.

Lemma opposite_infinities_never_return_witness :
  ("A", PrimFloat.neg_infinity) ∈ unbounded /\
  ("B", PrimFloat.infinity) ∈ unbounded /\
  forall fuel, simplifyDebts fuel unbounded = OutOfFuel.
Proof.
  assert (Hp : ("A", PrimFloat.neg_infinity) ∈ unbounded) by by left.
  assert (Hq : ("B", PrimFloat.infinity) ∈ unbounded) by (right; by left).
  split; [exact Hp|]. split; [exact Hq|].
  exact (opposite_infinities_never_return unbounded "A" "B" Hp Hq).
Defined.

(** X13: on finite balances the loop meets the debtors from the most
    negative amount upwards and the creditors from the largest amount
    downwards. *)
Theorem working_lists_sorted (bal : list (string * float)) :
  Forall (fun kv => PrimFloat.is_finite kv.2 = true) bal ->
  (forall k1 k2 d1 d2, (k1 < k2)%nat ->
     debtors (init bal) !! k1 = Some d1 -> debtors (init bal) !! k2 = Some d2 ->
     PrimFloat.leb (amount d1) (amount d2) = true) /\
  (forall k1 k2 c1 c2, (k1 < k2)%nat ->
     creditors (init bal) !! k1 = Some c1 -> creditors (init bal) !! k2 = Some c2 ->
     PrimFloat.leb (amount c2) (amount c1) = true).
Proof.
  intros Hfin.
  assert (Hd : Forall proper_amount (debtors (init bal))).
  { rewrite init_eq. cbn [debtors]. apply Forall_forall. intros e He.
    rewrite sort_by_perm in He. revert e He. apply Forall_forall.
    by apply debtors_proper. }
  assert (Hc : Forall proper_amount (creditors (init bal))).
  { rewrite init_eq. cbn [creditors]. apply Forall_forall. intros e He.
    rewrite sort_by_perm in He. revert e He. apply Forall_forall.
    by apply creditors_proper. }
  rewrite Forall_forall in Hd, Hc.
  split; intros k1 k2 e1 e2 Hk H1 H2.
  - apply leb_value;
      [apply proper_not_nan, Hd; by eapply list_elem_of_lookup_2
      |apply proper_not_nan, Hd; by eapply list_elem_of_lookup_2|].
    exact (StronglySorted_lookup _ _ _ _ _ _ (init_debtors_sorted bal Hfin) Hk H1 H2).
  - apply leb_value;
      [apply proper_not_nan, Hc; by eapply list_elem_of_lookup_2
      |apply proper_not_nan, Hc; by eapply list_elem_of_lookup_2|].
    exact (StronglySorted_lookup _ _ _ _ _ _ (init_creditors_sorted bal Hfin) Hk H1 H2).
Qed.

Lemma working_lists_sorted_witness :
  Forall (fun kv : string * float => PrimFloat.is_finite kv.2 = true) residue /\
  (forall k1 k2 d1 d2, (k1 < k2)%nat ->
     debtors (init residue) !! k1 = Some d1 ->
     debtors (init residue) !! k2 = Some d2 ->
     PrimFloat.leb (amount d1) (amount d2) = true) /\
  (forall k1 k2 c1 c2, (k1 < k2)%nat ->
     creditors (init residue) !! k1 = Some c1 ->
     creditors (init residue) !! k2 = Some c2 ->
     PrimFloat.leb (amount c2) (amount c1) = true).
Proof.
  assert (Hfin : Forall (fun kv : string * float =>
                           PrimFloat.is_finite kv.2 = true) residue)
    by (repeat constructor).
  split; [exact Hfin|]. exact (working_lists_sorted residue Hfin).
Defined.
